(** * Chunked audio recorder: a shallow embedding of
      [src/app/utils/chunkedRecorder.ts] and of the reset path of
      [src/app/hooks/useAudioRecorder.ts].

    The recorder is an event-driven JavaScript object.  Its fields become a
    record, each method becomes a function on a [World] (the object together
    with the platform state it talks to: the MediaRecorder task queue, armed
    timeouts, live media streams, object URLs, IndexedDB), and every
    asynchronous callback the source registers becomes the handler of an
    [Event] delivered by [step]. *)

From Stdlib Require Import ZArith Lia Ascii DecimalString DecimalNat.
From stdpp Require Import gmap strings list fin_maps.

Open Scope string_scope.
Open Scope list_scope.
Open Scope Z_scope.

(** ** Blobs *)

(** A [Blob] is an immutable byte buffer tagged with a declared MIME type. *)
Record Blob := mkBlob { blob_bytes : list Byte.byte; blob_type : string }.

(** [blob.size] *)
Definition blob_size (b : Blob) : nat := length (blob_bytes b).

(** [new Blob(parts, { type })]: the bytes of the parts, in order. *)
Definition new_Blob (parts : list Blob) (type : string) : Blob :=
  {| blob_bytes := concat (map blob_bytes parts); blob_type := type |}.

(** ** Completions and promises *)

(** How a synchronous method call ends: it returns, or it throws. *)
Inductive Completion (A : Type) : Type :=
| Returned (a : A)
| Thrown (msg : string).
Arguments Returned {A} a.
Arguments Thrown {A} msg.

(** A promise is settled at most once; later [resolve] calls are ignored. *)
Inductive Promise (A : Type) : Type :=
| Pending
| Resolved (a : A)
| Rejected (msg : string).
Arguments Pending {A}.
Arguments Resolved {A} a.
Arguments Rejected {A} msg.

Definition resolve {A} (p : Promise A) (a : A) : Promise A :=
  match p with
  | Pending => Resolved a
  | _ => p
  end.

(** ** The persistence store: IndexedDB database [AudioRecordingDB] *)

Module IDB.

(** A stored object.  Both object stores use [keyPath: 'id'].  The chunk
    entry carries [index]; the recording entry does not.  [data] is a Blob
    or [null]. *)
Record Entry := {
  e_id : string;
  e_data : option Blob;
  e_index : option nat;
  e_timestamp : Z;
  e_duration : Z
}.

Record Database := {
  version : positive;
  objectStores : gmap string (gmap string Entry)
}.

(** Ways the store can fail, besides being absent altogether. *)
Inductive Fault :=
| OpenThrows          (* indexedDB.open(...) throws synchronously *)
| OpenFails           (* the open request fires its error event *)
| TransactionThrows   (* db.transaction(...) throws *)
| RequestFails.       (* a get / clear / put request fires error *)

(** The environment: whether [window.indexedDB] exists, an injected fault,
    and the database if it has been created. *)
Record Env := {
  indexedDB : bool;
  fault : option Fault;
  database : option Database
}.

Definition set_database (d : Database) (e : Env) : Env :=
  {| indexedDB := indexedDB e; fault := fault e; database := Some d |}.

Definition contains (name : string) (d : Database) : bool :=
  bool_decide (is_Some (objectStores d !! name)).

Definition createObjectStore (name : string) (d : Database) : Database :=
  {| version := version d; objectStores := <[name := ∅]> (objectStores d) |}.

(** The [onupgradeneeded] handler shared by every open request of the
    source: create whichever of the two stores is missing. *)
Definition onupgradeneeded (d : Database) : Database :=
  let d1 := if contains "chunks" d then d else createObjectStore "chunks" d in
  if contains "recordings" d1 then d1 else createObjectStore "recordings" d1.

(** What an open request delivers.  [OpenSuccess upgraded d]: the request
    succeeded on database [d]; [upgraded] tells whether [onupgradeneeded]
    ran first. *)
Inductive OpenEvent :=
| OpenError
| OpenSuccess (upgraded : bool) (d : Database).

(** [indexedDB.open('AudioRecordingDB', v)] once the request is processed:
    a missing database is created at version [v]; an older one is upgraded;
    a newer one makes the request fail (VersionError).  Open connections are
    not part of the model: an upgrade is taken to be granted without waiting
    for the connections still open on the older version. *)
Definition open (e : Env) (v : positive) : OpenEvent :=
  match fault e with
  | Some OpenFails => OpenError
  | _ =>
    match database e with
    | None =>
        OpenSuccess true
          (onupgradeneeded {| version := v; objectStores := ∅ |})
    | Some d =>
        if (version d <? v)%positive then
          OpenSuccess true
            (onupgradeneeded
               {| version := v; objectStores := objectStores d |})
        else if (version d =? v)%positive then OpenSuccess false d
        else OpenError
    end
  end.

(** The open call itself throws when there is no [indexedDB] object or when
    the platform refuses synchronously. *)
Definition open_throws (e : Env) : bool :=
  negb (indexedDB e)
  || match fault e with Some OpenThrows => true | _ => false end.

(** [store.clear()] and [store.put(entry)] on the object store [name]. *)
Definition clear (name : string) (d : Database) : Database :=
  {| version := version d;
     objectStores := <[name := ∅]> (objectStores d) |}.

Definition put (name : string) (entry : Entry) (d : Database) : Database :=
  match objectStores d !! name with
  | Some s =>
      {| version := version d;
         objectStores := <[name := <[e_id entry := entry]> s]> (objectStores d) |}
  | None => d
  end.

(** The clear-then-put transaction both save methods run on their store.
    Nothing is written when the transaction cannot be created or the clear
    request fails (the put is issued from clear's success handler). *)
Definition replace_slot (name : string) (entry : Entry) (e : Env) (d : Database)
  : Env :=
  match fault e with
  | Some TransactionThrows => set_database d e
  | Some RequestFails => set_database d e
  | _ => set_database (put name entry (clear name d)) e
  end.

(** The slot stored under [name], if the database and the store exist. *)
Definition slot (name : string) (e : Env) : option (gmap string Entry) :=
  match database e with
  | Some d => objectStores d !! name
  | None => None
  end.

End IDB.

(** ** The platform's MediaRecorder

    Only what the recorder relies on is modelled, following the MediaStream
    Recording specification: [start()] is called without a timeslice, so
    data is delivered only when a capture leg is stopped; [stop()] returns at
    once and the [dataavailable] and [stop] events are fired later, from one
    queued task. *)

(** [MediaRecorder.state].  The source never calls the platform's own
    [pause()], so [mr_paused] is never entered; it is kept because [start()]
    and [stop()] test for [mr_inactive]. *)
Inductive RecordingState := mr_inactive | mr_recording | mr_paused.

Record MediaRecorder := {
  mr_state : RecordingState;
  mr_mimeType : option string   (* the [mimeType] option it was created with *)
}.

(** [mediaRecorder.start()]: throws InvalidStateError unless inactive.  The
    recorder's stream is taken to be live; on a stream whose tracks have
    ended the platform throws NotSupportedError instead. *)
Definition mr_start (m : MediaRecorder) : option MediaRecorder :=
  match mr_state m with
  | mr_inactive => Some {| mr_state := mr_recording; mr_mimeType := mr_mimeType m |}
  | _ => None
  end.

(** [mediaRecorder.stop()]: does nothing when inactive; otherwise the
    recorder becomes inactive and one task is queued that will fire
    [dataavailable] and then [stop].  The result tells whether a task was
    queued. *)
Definition mr_stop (m : MediaRecorder) : MediaRecorder * bool :=
  match mr_state m with
  | mr_inactive => (m, false)
  | _ => ({| mr_state := mr_inactive; mr_mimeType := mr_mimeType m |}, true)
  end.

(** ** The recorder object *)

Record ChunkedRecorderOptions := {
  chunkDuration : Z;          (* milliseconds *)
  onChunkComplete : bool;     (* was a callback supplied? *)
  onError : bool
}.

(** The private fields of [class ChunkedRecorder].  Handles (the media stream,
    the timeout, the object URL) are platform-issued identifiers. *)
Record ChunkedRecorder := {
  mediaRecorder : option MediaRecorder;
  stream : option nat;
  chunks : list Blob;
  currentChunkIndex : nat;
  chunkStartTime : Z;
  recordingStartTime : Z;
  chunkTimer : option nat;
  options : ChunkedRecorderOptions;
  audioChunks : list Blob;
  isRecording : bool;
  mainBlob : option Blob;
  mainAudioUrl : option nat
}.

(** Requests issued to IndexedDB by the two save methods, waiting for their
    open request to be processed. *)
Inductive IDBTask :=
| SaveChunk (chunk : Blob)
| SaveRecording.

(** The recorder together with the platform state it interacts with. *)
Record World := {
  this : ChunkedRecorder;
  now : Z;                             (* Date.now() *)
  mrTasks : nat;                       (* queued MediaRecorder stop tasks *)
  timeouts : list nat;                 (* armed setTimeout handles *)
  nextId : nat;                        (* next fresh platform handle *)
  liveStreams : list nat;              (* media streams whose tracks are live *)
  objectUrls : list nat;               (* object URLs not yet revoked *)
  idb : IDB.Env;
  idbTasks : list IDBTask;
  chunkCallbacks : list (Blob * nat)   (* calls made to options.onChunkComplete *)
}.

(** *** Field updates: [set_f v x] is [x] with field [f] replaced by [v] *)

Definition set_mediaRecorder (v : option MediaRecorder) (r : ChunkedRecorder) : ChunkedRecorder :=
  {| mediaRecorder := v; stream := stream r; chunks := chunks r;
     currentChunkIndex := currentChunkIndex r;
     chunkStartTime := chunkStartTime r;
     recordingStartTime := recordingStartTime r; chunkTimer := chunkTimer r;
     options := options r; audioChunks := audioChunks r;
     isRecording := isRecording r; mainBlob := mainBlob r;
     mainAudioUrl := mainAudioUrl r |}.
Definition set_stream (v : option nat) (r : ChunkedRecorder) : ChunkedRecorder :=
  {| mediaRecorder := mediaRecorder r; stream := v; chunks := chunks r;
     currentChunkIndex := currentChunkIndex r;
     chunkStartTime := chunkStartTime r;
     recordingStartTime := recordingStartTime r; chunkTimer := chunkTimer r;
     options := options r; audioChunks := audioChunks r;
     isRecording := isRecording r; mainBlob := mainBlob r;
     mainAudioUrl := mainAudioUrl r |}.
Definition set_chunks (v : list Blob) (r : ChunkedRecorder) : ChunkedRecorder :=
  {| mediaRecorder := mediaRecorder r; stream := stream r; chunks := v;
     currentChunkIndex := currentChunkIndex r;
     chunkStartTime := chunkStartTime r;
     recordingStartTime := recordingStartTime r; chunkTimer := chunkTimer r;
     options := options r; audioChunks := audioChunks r;
     isRecording := isRecording r; mainBlob := mainBlob r;
     mainAudioUrl := mainAudioUrl r |}.
Definition set_currentChunkIndex (v : nat) (r : ChunkedRecorder) : ChunkedRecorder :=
  {| mediaRecorder := mediaRecorder r; stream := stream r;
     chunks := chunks r; currentChunkIndex := v;
     chunkStartTime := chunkStartTime r;
     recordingStartTime := recordingStartTime r; chunkTimer := chunkTimer r;
     options := options r; audioChunks := audioChunks r;
     isRecording := isRecording r; mainBlob := mainBlob r;
     mainAudioUrl := mainAudioUrl r |}.
Definition set_chunkStartTime (v : Z) (r : ChunkedRecorder) : ChunkedRecorder :=
  {| mediaRecorder := mediaRecorder r; stream := stream r;
     chunks := chunks r; currentChunkIndex := currentChunkIndex r;
     chunkStartTime := v; recordingStartTime := recordingStartTime r;
     chunkTimer := chunkTimer r; options := options r;
     audioChunks := audioChunks r; isRecording := isRecording r;
     mainBlob := mainBlob r; mainAudioUrl := mainAudioUrl r |}.
Definition set_recordingStartTime (v : Z) (r : ChunkedRecorder) : ChunkedRecorder :=
  {| mediaRecorder := mediaRecorder r; stream := stream r;
     chunks := chunks r; currentChunkIndex := currentChunkIndex r;
     chunkStartTime := chunkStartTime r; recordingStartTime := v;
     chunkTimer := chunkTimer r; options := options r;
     audioChunks := audioChunks r; isRecording := isRecording r;
     mainBlob := mainBlob r; mainAudioUrl := mainAudioUrl r |}.
Definition set_chunkTimer (v : option nat) (r : ChunkedRecorder) : ChunkedRecorder :=
  {| mediaRecorder := mediaRecorder r; stream := stream r;
     chunks := chunks r; currentChunkIndex := currentChunkIndex r;
     chunkStartTime := chunkStartTime r;
     recordingStartTime := recordingStartTime r; chunkTimer := v;
     options := options r; audioChunks := audioChunks r;
     isRecording := isRecording r; mainBlob := mainBlob r;
     mainAudioUrl := mainAudioUrl r |}.
Definition set_audioChunks (v : list Blob) (r : ChunkedRecorder) : ChunkedRecorder :=
  {| mediaRecorder := mediaRecorder r; stream := stream r;
     chunks := chunks r; currentChunkIndex := currentChunkIndex r;
     chunkStartTime := chunkStartTime r;
     recordingStartTime := recordingStartTime r; chunkTimer := chunkTimer r;
     options := options r; audioChunks := v; isRecording := isRecording r;
     mainBlob := mainBlob r; mainAudioUrl := mainAudioUrl r |}.
Definition set_isRecording (v : bool) (r : ChunkedRecorder) : ChunkedRecorder :=
  {| mediaRecorder := mediaRecorder r; stream := stream r;
     chunks := chunks r; currentChunkIndex := currentChunkIndex r;
     chunkStartTime := chunkStartTime r;
     recordingStartTime := recordingStartTime r; chunkTimer := chunkTimer r;
     options := options r; audioChunks := audioChunks r; isRecording := v;
     mainBlob := mainBlob r; mainAudioUrl := mainAudioUrl r |}.
Definition set_mainBlob (v : option Blob) (r : ChunkedRecorder) : ChunkedRecorder :=
  {| mediaRecorder := mediaRecorder r; stream := stream r;
     chunks := chunks r; currentChunkIndex := currentChunkIndex r;
     chunkStartTime := chunkStartTime r;
     recordingStartTime := recordingStartTime r; chunkTimer := chunkTimer r;
     options := options r; audioChunks := audioChunks r;
     isRecording := isRecording r; mainBlob := v;
     mainAudioUrl := mainAudioUrl r |}.
Definition set_mainAudioUrl (v : option nat) (r : ChunkedRecorder) : ChunkedRecorder :=
  {| mediaRecorder := mediaRecorder r; stream := stream r;
     chunks := chunks r; currentChunkIndex := currentChunkIndex r;
     chunkStartTime := chunkStartTime r;
     recordingStartTime := recordingStartTime r; chunkTimer := chunkTimer r;
     options := options r; audioChunks := audioChunks r;
     isRecording := isRecording r; mainBlob := mainBlob r;
     mainAudioUrl := v |}.

Definition set_this (v : ChunkedRecorder) (w : World) : World :=
  {| this := v; now := now w; mrTasks := mrTasks w; timeouts := timeouts w;
     nextId := nextId w; liveStreams := liveStreams w;
     objectUrls := objectUrls w; idb := idb w; idbTasks := idbTasks w;
     chunkCallbacks := chunkCallbacks w |}.
Definition set_now (v : Z) (w : World) : World :=
  {| this := this w; now := v; mrTasks := mrTasks w; timeouts := timeouts w;
     nextId := nextId w; liveStreams := liveStreams w;
     objectUrls := objectUrls w; idb := idb w; idbTasks := idbTasks w;
     chunkCallbacks := chunkCallbacks w |}.
Definition set_mrTasks (v : nat) (w : World) : World :=
  {| this := this w; now := now w; mrTasks := v; timeouts := timeouts w;
     nextId := nextId w; liveStreams := liveStreams w;
     objectUrls := objectUrls w; idb := idb w; idbTasks := idbTasks w;
     chunkCallbacks := chunkCallbacks w |}.
Definition set_timeouts (v : list nat) (w : World) : World :=
  {| this := this w; now := now w; mrTasks := mrTasks w; timeouts := v;
     nextId := nextId w; liveStreams := liveStreams w;
     objectUrls := objectUrls w; idb := idb w; idbTasks := idbTasks w;
     chunkCallbacks := chunkCallbacks w |}.
Definition set_nextId (v : nat) (w : World) : World :=
  {| this := this w; now := now w; mrTasks := mrTasks w;
     timeouts := timeouts w; nextId := v; liveStreams := liveStreams w;
     objectUrls := objectUrls w; idb := idb w; idbTasks := idbTasks w;
     chunkCallbacks := chunkCallbacks w |}.
Definition set_liveStreams (v : list nat) (w : World) : World :=
  {| this := this w; now := now w; mrTasks := mrTasks w;
     timeouts := timeouts w; nextId := nextId w; liveStreams := v;
     objectUrls := objectUrls w; idb := idb w; idbTasks := idbTasks w;
     chunkCallbacks := chunkCallbacks w |}.
Definition set_objectUrls (v : list nat) (w : World) : World :=
  {| this := this w; now := now w; mrTasks := mrTasks w;
     timeouts := timeouts w; nextId := nextId w;
     liveStreams := liveStreams w; objectUrls := v; idb := idb w;
     idbTasks := idbTasks w; chunkCallbacks := chunkCallbacks w |}.
Definition set_idb (v : IDB.Env) (w : World) : World :=
  {| this := this w; now := now w; mrTasks := mrTasks w;
     timeouts := timeouts w; nextId := nextId w;
     liveStreams := liveStreams w; objectUrls := objectUrls w; idb := v;
     idbTasks := idbTasks w; chunkCallbacks := chunkCallbacks w |}.
Definition set_idbTasks (v : list IDBTask) (w : World) : World :=
  {| this := this w; now := now w; mrTasks := mrTasks w;
     timeouts := timeouts w; nextId := nextId w;
     liveStreams := liveStreams w; objectUrls := objectUrls w; idb := idb w;
     idbTasks := v; chunkCallbacks := chunkCallbacks w |}.
Definition set_chunkCallbacks (v : list (Blob * nat)) (w : World) : World :=
  {| this := this w; now := now w; mrTasks := mrTasks w;
     timeouts := timeouts w; nextId := nextId w;
     liveStreams := liveStreams w; objectUrls := objectUrls w; idb := idb w;
     idbTasks := idbTasks w; chunkCallbacks := v |}.

(** Apply a change to the recorder's own fields. *)
Definition upd (f : ChunkedRecorder -> ChunkedRecorder) (w : World) : World :=
  set_this (f (this w)) w.

(** ** Platform calls made by the recorder *)

(** [clearTimeout(t)] *)
Definition clearTimeout (t : nat) (w : World) : World :=
  set_timeouts (List.filter (fun x => negb (Nat.eqb x t)) (timeouts w)) w.

(** [setTimeout(callback, chunkDuration)]: a fresh armed handle. *)
Definition setTimeout (w : World) : nat * World :=
  (nextId w, set_nextId (S (nextId w)) (set_timeouts (timeouts w ++ [nextId w]) w)).

(** [URL.createObjectURL(blob)] and [URL.revokeObjectURL(u)] *)
Definition createObjectURL (w : World) : nat * World :=
  (nextId w, set_nextId (S (nextId w)) (set_objectUrls (objectUrls w ++ [nextId w]) w)).

Definition revokeObjectURL (u : nat) (w : World) : World :=
  set_objectUrls (List.filter (fun x => negb (Nat.eqb x u)) (objectUrls w)) w.

(** [stream.getTracks().forEach(track => track.stop())] *)
Definition stopTracks (s : nat) (w : World) : World :=
  set_liveStreams (List.filter (fun x => negb (Nat.eqb x s)) (liveStreams w)) w.

(** [this.mediaRecorder.start()]; [None] when the platform throws. *)
Definition mediaRecorder_start (w : World) : option World :=
  match mediaRecorder (this w) with
  | Some m =>
      match mr_start m with
      | Some m' => Some (upd (set_mediaRecorder (Some m')) w)
      | None => None
      end
  | None => None
  end.

(** [this.mediaRecorder.stop()] *)
Definition mediaRecorder_stop (w : World) : World :=
  match mediaRecorder (this w) with
  | Some m =>
      let w1 := upd (set_mediaRecorder (Some (fst (mr_stop m)))) w in
      if snd (mr_stop m) then set_mrTasks (S (mrTasks w1)) w1 else w1
  | None => w
  end.

(** ** Persistence methods *)

(** The object written by [saveChunkToStorage].  The recorder's fields and
    the clock are read when the put is issued, not when the save was
    requested. *)
Definition chunkEntry (r : ChunkedRecorder) (t : Z) (chunk : Blob) : IDB.Entry :=
  {| IDB.e_id := "latest_chunk";
     IDB.e_data := Some chunk;
     IDB.e_index := Some (currentChunkIndex r);
     IDB.e_timestamp := t;
     IDB.e_duration := if isRecording r then t - recordingStartTime r else 0 |}.

(** The object written by [saveCompleteRecordingToStorage]. *)
Definition recordingEntry (r : ChunkedRecorder) (t : Z) : IDB.Entry :=
  {| IDB.e_id := "latest_recording";
     IDB.e_data := mainBlob r;
     IDB.e_index := None;
     IDB.e_timestamp := t;
     IDB.e_duration :=
       if recordingStartTime r =? 0 then 0 else t - recordingStartTime r |}.

(** [request.onsuccess] of a save: when the store is missing, close, reopen
    at [version + 1] (which creates the stores) and ask for the save to be
    issued again; otherwise clear the store and put the entry.  The boolean
    is the "issue the save again" request.  The reissued save opens at
    version 1 again, which the upgraded database refuses. *)
Definition save_onsuccess (name : string) (entry : IDB.Entry)
    (e : IDB.Env) (d : IDB.Database) : IDB.Env * bool :=
  if IDB.contains name d then (IDB.replace_slot name entry e d, false)
  else
    match IDB.open (IDB.set_database d e) (IDB.version d + 1) with
    | IDB.OpenSuccess _ d' => (IDB.set_database d' e, true)
    | IDB.OpenError => (IDB.set_database d e, false)
    end.

(** A save request being processed: [indexedDB.open('AudioRecordingDB', 1)]
    and the handlers the save methods attach to it. *)
Definition save_request (name : string) (entry : IDB.Entry) (e : IDB.Env)
  : IDB.Env * bool :=
  match IDB.open e 1 with
  | IDB.OpenError => (e, false)
  | IDB.OpenSuccess _ d => save_onsuccess name entry e d
  end.

(** [saveChunkToStorage(chunk)]: issue the open request; an exception from
    the call is caught and logged. *)
Definition saveChunkToStorage (chunk : Blob) (w : World) : World :=
  if IDB.open_throws (idb w) then w
  else set_idbTasks (idbTasks w ++ [SaveChunk chunk]) w.

(** [saveCompleteRecordingToStorage()] *)
Definition saveCompleteRecordingToStorage (w : World) : World :=
  match mainBlob (this w) with
  | None => w
  | Some _ =>
      if IDB.open_throws (idb w) then w
      else set_idbTasks (idbTasks w ++ [SaveRecording]) w
  end.

(** IndexedDB processes the oldest outstanding save request.  The open
    request, the clear and the put of one save are taken as one step;
    requests are served in the order they were issued. *)
Definition indexedDB_task (w : World) : World :=
  match idbTasks w with
  | [] => w
  | SaveChunk chunk :: rest =>
      let res := save_request "chunks" (chunkEntry (this w) (now w) chunk) (idb w) in
      let w1 := set_idb (fst res) (set_idbTasks rest w) in
      if snd res then saveChunkToStorage chunk w1 else w1
  | SaveRecording :: rest =>
      let res := save_request "recordings" (recordingEntry (this w) (now w)) (idb w) in
      let w1 := set_idb (fst res) (set_idbTasks rest w) in
      if snd res then saveCompleteRecordingToStorage w1 else w1
  end.

(** The value [checkForRecovery] resolves with. *)
Record Recovery := { hasRecovery : bool; recording : option Blob }.

Definition noRecovery : Recovery := {| hasRecovery := false; recording := None |}.

(** [checkForRecovery()].  [recording && recording.data] is a truthiness
    test: it holds when the entry exists and its [data] is not [null]. *)
Definition checkForRecovery (e : IDB.Env) : Promise Recovery * IDB.Env :=
  if negb (IDB.indexedDB e) then (Resolved noRecovery, e)
  else if IDB.open_throws e then (Resolved noRecovery, e)
  else
    match IDB.open e 1 with
    | IDB.OpenError => (Resolved noRecovery, e)
    | IDB.OpenSuccess upgraded d =>
        let p := if upgraded then resolve Pending noRecovery else Pending in
        let e' := IDB.set_database d e in
        if negb (IDB.contains "recordings" d) then (resolve p noRecovery, e')
        else
          match IDB.fault e with
          | Some IDB.TransactionThrows => (resolve p noRecovery, e')
          | Some IDB.RequestFails => (resolve p noRecovery, e')
          | _ =>
              match IDB.slot "recordings" e' with
              | Some s =>
                  match s !! "latest_recording" with
                  | Some rec =>
                      match IDB.e_data rec with
                      | Some b =>
                          (resolve p {| hasRecovery := true; recording := Some b |}, e')
                      | None => (resolve p noRecovery, e')
                      end
                  | None => (resolve p noRecovery, e')
                  end
              | None => (resolve p noRecovery, e')
              end
          end
    end.

(** Clearing one store inside [clearStoredRecordings]: skipped when the store
    is missing; a throwing transaction or failing request is only logged. *)
Definition clearStore (name : string) (e : IDB.Env) (d : IDB.Database)
  : IDB.Database :=
  if IDB.contains name d then
    match IDB.fault e with
    | Some IDB.TransactionThrows => d
    | Some IDB.RequestFails => d
    | _ => IDB.clear name d
    end
  else d.

(** [clearStoredRecordings()] *)
Definition clearStoredRecordings (e : IDB.Env) : Promise unit * IDB.Env :=
  if negb (IDB.indexedDB e) then (Resolved (), e)
  else if IDB.open_throws e then (Resolved (), e)
  else
    match IDB.open e 1 with
    | IDB.OpenError => (Resolved (), e)
    | IDB.OpenSuccess upgraded d =>
        let p := if upgraded then resolve Pending () else Pending in
        if negb (IDB.contains "chunks" d) && negb (IDB.contains "recordings" d)
        then (resolve p (), IDB.set_database d e)
        else
          let d1 := clearStore "chunks" e d in
          let d2 := clearStore "recordings" e d1 in
          (resolve p (), IDB.set_database d2 e)
    end.

(** ** Private methods of the recorder *)

(** [clearChunkTimer()] *)
Definition clearChunkTimer (w : World) : World :=
  match chunkTimer (this w) with
  | Some t => upd (set_chunkTimer None) (clearTimeout t w)
  | None => w
  end.

(** [completeCurrentChunk()]: nothing when the fragment buffer is empty;
    otherwise a blob of the whole buffer is appended to [chunks], reported to
    the callback with the current index, and the index is incremented.  The
    buffer itself is left as it is. *)
Definition completeCurrentChunk (w : World) : World :=
  match audioChunks (this w) with
  | [] => w
  | _ :: _ =>
      let mimeType := "audio/wav" in
      let chunkBlob := new_Blob (audioChunks (this w)) mimeType in
      let w1 := upd (fun r => set_chunks (chunks r ++ [chunkBlob]) r) w in
      let w2 :=
        if onChunkComplete (options (this w1)) then
          set_chunkCallbacks
            (chunkCallbacks w1 ++ [(chunkBlob, currentChunkIndex (this w1))]) w1
        else w1 in
      upd (fun r => set_currentChunkIndex (S (currentChunkIndex r)) r) w2
  end.

(** [startChunkTimer()]: clear the existing timer and arm a new one. *)
Definition startChunkTimer (w : World) : World :=
  let w1 := clearChunkTimer w in
  let (t, w2) := setTimeout w1 in
  upd (set_chunkTimer (Some t)) w2.

(** The callback [startChunkTimer] hands to [setTimeout]. *)
Definition chunkTimer_callback (w : World) : World :=
  let w1 := completeCurrentChunk w in
  match mediaRecorder (this w1) with
  | Some _ =>
      if isRecording (this w1) then
        let w2 := mediaRecorder_stop w1 in
        let w3 := upd (set_chunkStartTime (now w2)) w2 in
        match mediaRecorder_start w3 with
        | Some w4 => startChunkTimer w4
        | None => w3
        end
      else w1
  | None => w1
  end.

(** ** Handlers installed by [initialize] *)

(** [mediaRecorder.ondataavailable] *)
Definition ondataavailable (data : Blob) (w : World) : World :=
  if (0 <? blob_size data)%nat then
    saveChunkToStorage data
      (upd (fun r => set_audioChunks (audioChunks r ++ [data]) r) w)
  else w.

(** [mediaRecorder.onstop] *)
Definition onstop (w : World) : World :=
  let mimeType := "audio/wav" in
  let w1 := upd (fun r => set_mainBlob (Some (new_Blob (audioChunks r) mimeType)) r) w in
  let w2 :=
    match mainAudioUrl (this w1) with
    | Some u => revokeObjectURL u w1
    | None => w1
    end in
  let (u, w3) := createObjectURL w2 in
  saveCompleteRecordingToStorage (upd (set_mainAudioUrl (Some u)) w3).

(** ** Public methods *)

(** [initialize()].  [granted] is the outcome of [getUserMedia];
    [webmSupported] is [MediaRecorder.isTypeSupported('audio/webm')]. *)
Definition initialize (granted webmSupported : bool) (w : World)
  : World * Promise unit :=
  if granted then
    let s := nextId w in
    let w1 :=
      upd (set_stream (Some s))
        (set_nextId (S s) (set_liveStreams (liveStreams w ++ [s]) w)) in
    let mimeType := if webmSupported then Some "audio/webm" else None in
    (upd (set_mediaRecorder
            (Some {| mr_state := mr_inactive; mr_mimeType := mimeType |})) w1,
     Resolved ())
  else (w, Rejected "NotAllowedError").

(** [start()] *)
Definition start (w : World) : World * Completion unit :=
  match mediaRecorder (this w) with
  | None => (w, Thrown "Media recorder not initialized")
  | Some _ =>
      let w1 :=
        upd (fun r =>
               set_isRecording true
                 (set_chunkStartTime (now w)
                    (set_recordingStartTime (now w)
                       (set_currentChunkIndex 0%nat
                          (set_audioChunks [] (set_chunks [] r)))))) w in
      match mediaRecorder_start w1 with
      | None => (w1, Thrown "InvalidStateError")
      | Some w2 => (startChunkTimer w2, Returned ())
      end
  end.

(** [stop()] *)
Definition stop (w : World) : World * Completion (option Blob) :=
  match mediaRecorder (this w) with
  | Some _ =>
      if isRecording (this w) then
        let w1 := clearChunkTimer w in
        let w2 := mediaRecorder_stop w1 in
        let w3 := upd (set_isRecording false) w2 in
        let w4 := completeCurrentChunk w3 in
        (w4, Returned (mainBlob (this w4)))
      else (w, Returned None)
  | None => (w, Returned None)
  end.

(** [pause()] *)
Definition pause (w : World) : World * Completion unit :=
  match mediaRecorder (this w) with
  | Some _ =>
      if isRecording (this w) then
        let w1 := clearChunkTimer w in
        let w2 := mediaRecorder_stop w1 in
        (completeCurrentChunk w2, Returned ())
      else (w, Returned ())
  | None => (w, Returned ())
  end.

(** [resume()] *)
Definition resume (w : World) : World * Completion unit :=
  match mediaRecorder (this w) with
  | Some _ =>
      if isRecording (this w) then (w, Returned ())
      else
        let w1 := upd (set_chunkStartTime (now w)) w in
        match mediaRecorder_start w1 with
        | None => (w1, Thrown "InvalidStateError")
        | Some w2 => (startChunkTimer w2, Returned ())
        end
  | None => (w, Returned ())
  end.

(** [cleanup()] *)
Definition cleanup (w : World) : World :=
  let w1 := if isRecording (this w) then fst (stop w) else w in
  let w2 := clearChunkTimer w1 in
  let w3 :=
    match stream (this w2) with
    | Some s => upd (set_stream None) (stopTracks s w2)
    | None => w2
    end in
  let w4 :=
    match mainAudioUrl (this w3) with
    | Some u => upd (set_mainAudioUrl None) (revokeObjectURL u w3)
    | None => w3
    end in
  upd (fun r =>
         set_mainBlob None
           (set_isRecording false
              (set_currentChunkIndex 0%nat
                 (set_audioChunks [] (set_chunks [] (set_mediaRecorder None r))))))
    w4.

(** [new ChunkedRecorder(options)] in a given environment. *)
Definition new_ChunkedRecorder (opts : ChunkedRecorderOptions) : ChunkedRecorder :=
  {| mediaRecorder := None; stream := None; chunks := [];
     currentChunkIndex := 0; chunkStartTime := 0; recordingStartTime := 0;
     chunkTimer := None; options := opts; audioChunks := [];
     isRecording := false; mainBlob := None; mainAudioUrl := None |}.

Definition new_World (opts : ChunkedRecorderOptions) (t : Z) (e : IDB.Env) : World :=
  {| this := new_ChunkedRecorder opts; now := t; mrTasks := 0; timeouts := [];
     nextId := 1; liveStreams := []; objectUrls := []; idb := e;
     idbTasks := []; chunkCallbacks := [] |}.

(** ** The event loop *)

(** Everything that can happen to the recorder: a caller invokes a method, or
    the platform runs one of the callbacks the recorder registered. *)
Inductive Event :=
| Initialize (granted webmSupported : bool)
| Start
| Stop
| Pause
| Resume
| Cleanup
| CheckForRecovery
| ClearStoredRecordings
| TimerFires                      (* the oldest armed timeout elapses *)
| MediaRecorderTask (data : Blob) (* a queued stop task runs: dataavailable(data), then stop *)
| IndexedDBTask                   (* the oldest outstanding save request is processed *)
| Tick (ms : nat).                (* the clock advances *)

Definition timer_fires (w : World) : World :=
  match timeouts w with
  | [] => w
  | _ :: rest => chunkTimer_callback (set_timeouts rest w)
  end.

Definition mediaRecorder_task (data : Blob) (w : World) : World :=
  match mrTasks w with
  | O => w
  | S n => onstop (ondataavailable data (set_mrTasks n w))
  end.

Definition step (w : World) (ev : Event) : World :=
  match ev with
  | Initialize granted webm => fst (initialize granted webm w)
  | Start => fst (start w)
  | Stop => fst (stop w)
  | Pause => fst (pause w)
  | Resume => fst (resume w)
  | Cleanup => cleanup w
  | CheckForRecovery => set_idb (snd (checkForRecovery (idb w))) w
  | ClearStoredRecordings => set_idb (snd (clearStoredRecordings (idb w))) w
  | TimerFires => timer_fires w
  | MediaRecorderTask data => mediaRecorder_task data w
  | IndexedDBTask => indexedDB_task w
  | Tick ms => set_now (now w + Z.of_nat ms) w
  end.

Definition run (evs : list Event) (w : World) : World := fold_left step evs w.

(** ** The hook's reset path ([useChunkedAudioRecorder]) *)

Module Hook.

(** The React state [ChunkedAudioRecorderState]. *)
Record ChunkedAudioRecorderState := {
  isRecording : bool;
  chunks : list Blob;
  currentChunkStartTime : Z;
  totalDuration : Z;
  mainBlob : option Blob;
  mainAudioUrl : option nat;
  error : option string;
  recoveryAvailable : bool
}.

(** The hook's state and refs.  [timerRef] holds the handle of the
    one-second interval that drives [elapsedTime]. *)
Record State := {
  state : ChunkedAudioRecorderState;
  streamRef : option nat;
  timerRef : option nat;
  currentChunkIndex : nat;
  elapsedTime : Z
}.



End Hook.

(** * Verification *)

(** ** Definitions used by the statements *)

(** *** The core of the world

    The chunking claims only talk about six things: the chunk list, the
    fragment buffer, the index counter, the main blob, whether a completion
    callback was supplied, and the calls made to it.  [core] projects them
    out of a world; [complete_c], [push_c], [main_c], [start_c] and
    [cleanup_c] say what [completeCurrentChunk], [ondataavailable],
    [onstop], [start] and [cleanup] do to them.  Lemma [step_core] below
    proves that this is what the embedded methods do. *)

Record Core := {
  c_chunks : list Blob;
  c_buffer : list Blob;
  c_index : nat;
  c_main : option Blob;
  c_callback : bool;
  c_calls : list (Blob * nat)
}.

Definition core (w : World) : Core :=
  {| c_chunks := chunks (this w);
     c_buffer := audioChunks (this w);
     c_index := currentChunkIndex (this w);
     c_main := mainBlob (this w);
     c_callback := onChunkComplete (options (this w));
     c_calls := chunkCallbacks w |}.

(** The effect of [completeCurrentChunk] on the core. *)
Definition complete_c (c : Core) : Core :=
  match c_buffer c with
  | [] => c
  | _ :: _ =>
      let b := new_Blob (c_buffer c) "audio/wav" in
      {| c_chunks := c_chunks c ++ [b];
         c_buffer := c_buffer c;
         c_index := S (c_index c);
         c_main := c_main c;
         c_callback := c_callback c;
         c_calls := if c_callback c then c_calls c ++ [(b, c_index c)] else c_calls c |}
  end.

(** The effect of [ondataavailable] on the core. *)
Definition push_c (d : Blob) (c : Core) : Core :=
  if (0 <? blob_size d)%nat then
  {| c_chunks := c_chunks c; c_buffer := c_buffer c ++ [d]; c_index := c_index c;
     c_main := c_main c; c_callback := c_callback c; c_calls := c_calls c |}
  else c.

(** The effect of [onstop] on the core. *)
Definition main_c (c : Core) : Core :=
  {| c_chunks := c_chunks c; c_buffer := c_buffer c; c_index := c_index c;
     c_main := Some (new_Blob (c_buffer c) "audio/wav");
     c_callback := c_callback c; c_calls := c_calls c |}.

(** The effect of the reset at the top of [start] on the core. *)
Definition start_c (c : Core) : Core :=
  {| c_chunks := []; c_buffer := []; c_index := 0; c_main := c_main c;
     c_callback := c_callback c; c_calls := c_calls c |}.

(** The effect of the reset at the end of [cleanup] on the core. *)
Definition cleanup_c (c : Core) : Core :=
  {| c_chunks := []; c_buffer := []; c_index := 0; c_main := None;
     c_callback := c_callback c; c_calls := c_calls c |}.

(** The guard shared by [stop] and [pause]: a recorder exists and
    [isRecording] is set. *)
Definition active (w : World) : bool :=
  match mediaRecorder (this w) with
  | Some _ => isRecording (this w)
  | None => false
  end.

(** What each event does to the core, given the guards it reads. *)
Definition core_of_step (w : World) (ev : Event) : Core :=
  match ev with
  | Start =>
      match mediaRecorder (this w) with
      | Some _ => start_c (core w)
      | None => core w
      end
  | Stop | Pause => if active w then complete_c (core w) else core w
  | TimerFires =>
      match timeouts w with
      | [] => core w
      | _ :: _ => complete_c (core w)
      end
  | Cleanup => cleanup_c (if active w then complete_c (core w) else core w)
  | MediaRecorderTask d =>
      match mrTasks w with
      | O => core w
      | S _ => main_c (push_c d (core w))
      end
  | _ => core w
  end.

(** *** Sessions and their invariants *)

(** A session runs from one [start()] to the next [start()] or [cleanup()]. *)
Definition session_event (ev : Event) : bool :=
  match ev with
  | Start | Cleanup => false
  | _ => true
  end.

(** The index counter equals the number of chunks, and (when a callback was
    supplied) the calls made since the log was [base] report the i-th chunk
    with index i. *)
Definition numbered (base : list (Blob * nat)) (c : Core) : Prop :=
  c_index c = length (c_chunks c) /\
  c_calls c =
    base ++ (if c_callback c then imap (fun i b => (b, i)) (c_chunks c) else []).

(** Every chunk is the blob of a non-empty prefix of the fragment buffer. *)
Definition snapshots (c : Core) : Prop :=
  Forall (fun b => exists k, (0 < k <= length (c_buffer c))%nat /\
                             b = new_Blob (take k (c_buffer c)) "audio/wav")
         (c_chunks c).

(** Chunks and main blob are declared [audio/wav]. *)
Definition declared_wav (c : Core) : Prop :=
  Forall (fun b => blob_type b = "audio/wav") (c_chunks c) /\
  Forall (fun call => blob_type (fst call) = "audio/wav") (c_calls c) /\
  (forall b, c_main c = Some b -> blob_type b = "audio/wav").

(** *** Fragments delivered along a run *)

(** The fragment an event adds to the buffer: the data of a stop task that
    actually runs, when it is not empty. *)
Definition fragment_of (ev : Event) (w : World) : list Blob :=
  match ev with
  | MediaRecorderTask d =>
      match mrTasks w with
      | O => []
      | S _ => if (0 <? blob_size d)%nat then [d] else []
      end
  | _ => []
  end.

(** The fragments delivered to the recorder along a run, in order. *)
Fixpoint delivered (evs : list Event) (w : World) : list Blob :=
  match evs with
  | [] => []
  | ev :: rest => fragment_of ev w ++ delivered rest (step w ev)
  end.

(** ** Example worlds *)

Definition fragA : Blob := mkBlob [Byte.x01] "audio/webm".
Definition fragB : Blob := mkBlob [Byte.x02] "audio/webm".
Definition fragC : Blob := mkBlob [Byte.x03] "audio/webm".

Definition env_fresh : IDB.Env :=
  {| IDB.indexedDB := true; IDB.fault := None; IDB.database := None |}.

Definition opts_example : ChunkedRecorderOptions :=
  {| chunkDuration := 10000; onChunkComplete := true; onError := true |}.

(** A new recorder, then [initialize()] granted with webm supported. *)
Definition w_new : World := new_World opts_example 0 env_fresh.
Definition w_initialized : World := step w_new (Initialize true true).

(** A session in which the timer fires three times; after each rotation the
    platform delivers the fragment of the leg that was stopped. *)
Definition rotations : list Event :=
  [TimerFires; MediaRecorderTask fragA;
   TimerFires; MediaRecorderTask fragB;
   TimerFires; MediaRecorderTask fragC].

Definition w_recording : World := fst (start w_initialized).
Definition w_three_rotations : World := run rotations w_recording.

(** The recorder paused right after [start()]. *)
Definition w_paused : World := fst (pause w_recording).

(** A recording session that has completed one chunk. *)
Definition w_one_chunk : World :=
  run [TimerFires; MediaRecorderTask fragA; TimerFires] w_recording.

(** ** Reading the recording slot *)

(** The store can be opened at version 1: [indexedDB] exists, nothing fails,
    and the database exists at that version. *)
Definition store_opens (e : IDB.Env) : bool :=
  IDB.indexedDB e &&
  match IDB.fault e with Some _ => false | None => true end &&
  match IDB.database e with
  | Some d => (IDB.version d =? 1)%positive
  | None => false
  end.

(** The entry under key [latest_recording] of the [recordings] store. *)
Definition stored_recording (e : IDB.Env) : option IDB.Entry :=
  match IDB.slot "recordings" e with
  | Some s => s !! "latest_recording"
  | None => None
  end.

(** A session stopped before any audio was captured: the stop task delivers
    an empty fragment, [onstop] builds a main blob of no bytes, and the save
    request stores it. *)
Definition emptyFrag : Blob := mkBlob [] "audio/webm".
Definition w_empty_recording : World :=
  run [Start; Stop; MediaRecorderTask emptyFrag; IndexedDBTask] w_initialized.

(** ** The recorder without its store *)




(** ** The reset path *)

(** What [cleanup] leaves alone until it releases the stream: the store, the
    requests issued to it, the stream handle and the live streams. *)
Definition outside (w : World) : IDB.Env * list IDBTask * option nat * list nat :=
  (idb w, idbTasks w, stream (this w), liveStreams w).



Definition hook_recording : Hook.State :=
  {| Hook.state :=
       {| Hook.isRecording := true; Hook.chunks := [];
          Hook.currentChunkStartTime := 0; Hook.totalDuration := 0;
          Hook.mainBlob := None; Hook.mainAudioUrl := None;
          Hook.error := None; Hook.recoveryAvailable := false |};
     Hook.streamRef := Some 1%nat;
     Hook.timerRef := Some 100%nat;
     Hook.currentChunkIndex := 0;
     Hook.elapsedTime := 12000 |}.

(** ** Slot writes *)

(** The store a save request writes to, and the entry it writes, read off the
    world in which the request is processed. *)
Definition task_store (t : IDBTask) : string :=
  match t with
  | SaveChunk _ => "chunks"
  | SaveRecording => "recordings"
  end.

Definition task_entry (t : IDBTask) (w : World) : IDB.Entry :=
  match t with
  | SaveChunk chunk => chunkEntry (this w) (now w) chunk
  | SaveRecording => recordingEntry (this w) (now w)
  end.

(** The write goes through: IndexedDB exists, nothing fails, and the database
    is either absent (the open request creates it with both stores) or at
    version 1 with the store in place. *)
Definition write_completes (name : string) (e : IDB.Env) : bool :=
  IDB.indexedDB e &&
  match IDB.fault e with Some _ => false | None => true end &&
  match IDB.database e with
  | None => true
  | Some d => (IDB.version d =? 1)%positive && IDB.contains name d
  end.

(** Every object store holds at most one entry. *)
Definition at_most_one_db (d : IDB.Database) : Prop :=
  forall name s, IDB.objectStores d !! name = Some s -> (size s <= 1)%nat.

Definition at_most_one (e : IDB.Env) : Prop :=
  match IDB.database e with
  | Some d => at_most_one_db d
  | None => True
  end.

(** The example session with its first save request still outstanding. *)
Definition w_save_pending : World :=
  run [TimerFires; MediaRecorderTask fragA] w_recording.

(** * Further coverage of [chunkedRecorder.ts] and of the hook *)

(** ** [getState()] and [getMediaRecorder()] *)

(** The object [getState()] returns ([ChunkedRecordingState]). *)
Record ChunkedRecordingState := {
  st_isRecording : bool;
  st_chunks : list Blob;
  st_currentChunkStartTime : Z;
  st_totalDuration : Z;
  st_mainBlob : option Blob;
  st_mainAudioUrl : option nat;
  st_error : option string
}.

Definition getState (w : World) : ChunkedRecordingState :=
  {| st_isRecording := isRecording (this w);
     st_chunks := chunks (this w);
     st_currentChunkStartTime := chunkStartTime (this w);
     st_totalDuration :=
       if isRecording (this w) then now w - recordingStartTime (this w) else 0;
     st_mainBlob := mainBlob (this w);
     st_mainAudioUrl := mainAudioUrl (this w);
     st_error := None |}.

Definition getMediaRecorder (w : World) : option MediaRecorder :=
  mediaRecorder (this w).

(** ** Resources held by the recorder *)

(** The armed timeouts together with the handle kept in [chunkTimer]. *)
Definition timer_view (w : World) : list nat * option nat :=
  (timeouts w, chunkTimer (this w)).

(** At most one timeout is armed, and it is the one [chunkTimer] holds. *)
Definition one_timer (v : list nat * option nat) : Prop :=
  match fst v with
  | [] => True
  | [t] => snd v = Some t
  | _ :: _ :: _ => False
  end.

(** The live object URLs together with the one kept in [mainAudioUrl]. *)
Definition url_view (w : World) : list nat * option nat :=
  (objectUrls w, mainAudioUrl (this w)).

(** The only live object URL is the one [mainAudioUrl] holds. *)
Definition one_url (v : list nat * option nat) : Prop :=
  fst v = match snd v with Some u => [u] | None => [] end.

(** The clock together with the recording flag and the session's start time. *)
Definition clock_view (w : World) : bool * Z * Z :=
  (isRecording (this w), recordingStartTime (this w), now w).

(** While recording, the session did not start in the future. *)
Definition started_in_past (v : bool * Z * Z) : Prop :=
  match v with
  | (true, t0, t) => t0 <= t
  | (false, _, _) => True
  end.

(** ** More invariants of the core *)

(** No buffered fragment and no chunk is empty. *)
Definition nonempty_c (c : Core) : Prop :=
  Forall (fun b => (0 < blob_size b)%nat) (c_buffer c) /\
  Forall (fun b => (0 < blob_size b)%nat) (c_chunks c).

(** Each chunk's bytes are a prefix of the bytes of every later chunk, and of
    the bytes of the whole fragment buffer. *)
Definition chained_c (c : Core) : Prop :=
  (forall i j b1 b2, (i <= j)%nat ->
     c_chunks c !! i = Some b1 -> c_chunks c !! j = Some b2 ->
     blob_bytes b1 `prefix_of` blob_bytes b2) /\
  Forall (fun b => blob_bytes b `prefix_of` concat (map blob_bytes (c_buffer c)))
         (c_chunks c).

(** No stop task runs: the events of a recording shorter than one rotation,
    or of one whose fragments have not been delivered yet. *)
Definition no_stop_task (ev : Event) : bool :=
  match ev with
  | MediaRecorderTask _ => false
  | _ => session_event ev
  end.

(** What the methods that neither arm nor clear a timer, nor create or
    revoke an object URL, nor read the clock, leave unchanged. *)
Definition quiet_view (w : World)
  : (list nat * option nat) * (list nat * option nat) * (bool * Z * Z) :=
  (timer_view w, url_view w, clock_view w).

(** Every live stream carries a handle the platform has already issued. *)
Definition handles_fresh (w : World) : Prop :=
  Forall (fun s => (s < nextId w)%nat) (liveStreams w).

(** [w'] has the live streams of [w] and has issued no fewer handles. *)
Definition same_streams (w w' : World) : Prop :=
  liveStreams w' = liveStreams w /\ (nextId w <= nextId w')%nat.

(** ** The store over a whole run *)

(** What an event does to the store: only the processing of a save request
    and the two store methods touch it. *)
Definition idb_of_step (w : World) (ev : Event) : IDB.Env :=
  match ev with
  | IndexedDBTask =>
      match idbTasks w with
      | [] => idb w
      | t :: _ => fst (save_request (task_store t) (task_entry t w) (idb w))
      end
  | CheckForRecovery => snd (checkForRecovery (idb w))
  | ClearStoredRecordings => snd (clearStoredRecordings (idb w))
  | _ => idb w
  end.

(** The store is in working order: IndexedDB exists, nothing fails, and the
    database is absent or at version 1 with both object stores. *)
Definition store_ready (e : IDB.Env) : bool :=
  IDB.indexedDB e &&
  match IDB.fault e with Some _ => false | None => true end &&
  match IDB.database e with
  | None => true
  | Some d =>
      (IDB.version d =? 1)%positive &&
      IDB.contains "chunks" d && IDB.contains "recordings" d
  end.

(** The database has been upgraded past version 1. *)
Definition version_too_new (e : IDB.Env) : Prop :=
  exists d, IDB.database e = Some d /\ (1 < IDB.version d)%positive.

(** The entries of the object store [name]: none when the database or the
    store does not exist. *)
Definition entries (name : string) (e : IDB.Env) : gmap string IDB.Entry :=
  default ∅ (IDB.slot name e).

(** The fragment of the last chunk-save request in a queue, after [cur]. *)
Definition final_chunk (cur : option Blob) (tasks : list IDBTask) : option Blob :=
  fold_left (fun c t => match t with SaveChunk d => Some d | SaveRecording => c end)
            tasks cur.

(** IndexedDB processes every outstanding save request. *)
Definition drain (w : World) : World :=
  run (repeat IndexedDBTask (length (idbTasks w))) w.

(** A version-1 database created elsewhere with the [chunks] store only. *)
Definition env_no_recordings_store : IDB.Env :=
  {| IDB.indexedDB := true; IDB.fault := None;
     IDB.database :=
       Some {| IDB.version := 1; IDB.objectStores := {[ "chunks" := ∅ ]} |} |}.

(** The example session with its saves outstanding, on that database. *)
Definition w_recording_save_first : World :=
  set_idbTasks [SaveRecording] (set_idb env_no_recordings_store w_save_pending).

(** ** More of the hook [useChunkedAudioRecorder] *)

(** The hook, the recorder it created, and the intervals armed by
    [setInterval] (the platform issues their handles from the same pool as
    the timeout handles). *)
Record HookWorld := {
  hook : Hook.State;
  world : World;
  intervals : list nat
}.

(** [setState(prev => ({ ...prev, ... }))] for the fields the hook updates. *)
Definition with_isRecording (v : bool) (s : Hook.ChunkedAudioRecorderState)
  : Hook.ChunkedAudioRecorderState :=
  {| Hook.isRecording := v; Hook.chunks := Hook.chunks s;
     Hook.currentChunkStartTime := Hook.currentChunkStartTime s;
     Hook.totalDuration := Hook.totalDuration s;
     Hook.mainBlob := Hook.mainBlob s; Hook.mainAudioUrl := Hook.mainAudioUrl s;
     Hook.error := Hook.error s; Hook.recoveryAvailable := Hook.recoveryAvailable s |}.

Definition with_chunks (v : list Blob) (s : Hook.ChunkedAudioRecorderState)
  : Hook.ChunkedAudioRecorderState :=
  {| Hook.isRecording := Hook.isRecording s; Hook.chunks := v;
     Hook.currentChunkStartTime := Hook.currentChunkStartTime s;
     Hook.totalDuration := Hook.totalDuration s;
     Hook.mainBlob := Hook.mainBlob s; Hook.mainAudioUrl := Hook.mainAudioUrl s;
     Hook.error := Hook.error s; Hook.recoveryAvailable := Hook.recoveryAvailable s |}.

Definition with_recoveryAvailable (v : bool) (s : Hook.ChunkedAudioRecorderState)
  : Hook.ChunkedAudioRecorderState :=
  {| Hook.isRecording := Hook.isRecording s; Hook.chunks := Hook.chunks s;
     Hook.currentChunkStartTime := Hook.currentChunkStartTime s;
     Hook.totalDuration := Hook.totalDuration s;
     Hook.mainBlob := Hook.mainBlob s; Hook.mainAudioUrl := Hook.mainAudioUrl s;
     Hook.error := Hook.error s; Hook.recoveryAvailable := v |}.

(** [setState(prev => ({ ...prev, mainBlob, mainAudioUrl, recoveryAvailable:
    false }))] of [recoverRecording]. *)
Definition with_recovered (b : Blob) (u : nat) (s : Hook.ChunkedAudioRecorderState)
  : Hook.ChunkedAudioRecorderState :=
  {| Hook.isRecording := Hook.isRecording s; Hook.chunks := Hook.chunks s;
     Hook.currentChunkStartTime := Hook.currentChunkStartTime s;
     Hook.totalDuration := Hook.totalDuration s;
     Hook.mainBlob := Some b; Hook.mainAudioUrl := Some u;
     Hook.error := Hook.error s; Hook.recoveryAvailable := false |}.

Definition with_state (s : Hook.ChunkedAudioRecorderState) (h : Hook.State) : Hook.State :=
  {| Hook.state := s; Hook.streamRef := Hook.streamRef h;
     Hook.timerRef := Hook.timerRef h;
     Hook.currentChunkIndex := Hook.currentChunkIndex h;
     Hook.elapsedTime := Hook.elapsedTime h |}.

Definition with_timerRef (t : option nat) (h : Hook.State) : Hook.State :=
  {| Hook.state := Hook.state h; Hook.streamRef := Hook.streamRef h;
     Hook.timerRef := t;
     Hook.currentChunkIndex := Hook.currentChunkIndex h;
     Hook.elapsedTime := Hook.elapsedTime h |}.

(** The [onChunkComplete] callback the hook hands to the recorder: each call
    the recorder made between [before] and [after] appends its chunk to the
    hook's chunk list. *)
Definition onChunkComplete_calls (before after : World)
    (s : Hook.ChunkedAudioRecorderState) : Hook.ChunkedAudioRecorderState :=
  with_chunks
    (Hook.chunks s ++
     map fst (drop (length (chunkCallbacks before)) (chunkCallbacks after))) s.

(** [if (timerRef.current) { clearInterval(timerRef.current); ... }] *)
Definition clearInterval (t : option nat) (l : list nat) : list nat :=
  match t with
  | Some h => List.filter (fun x => negb (Nat.eqb x h)) l
  | None => l
  end.

(** [pauseRecording()] *)
Definition pauseRecording (hw : HookWorld) : HookWorld :=
  let w' := fst (pause (world hw)) in
  {| hook :=
       with_state
         (with_isRecording false
            (onChunkComplete_calls (world hw) w' (Hook.state (hook hw))))
         (with_timerRef None (hook hw));
     world := w';
     intervals := clearInterval (Hook.timerRef (hook hw)) (intervals hw) |}.

(** [resumeRecording()].  An exception of [recorder.resume()] is not caught:
    it leaves the function before the interval and the state are touched. *)
Definition resumeRecording (hw : HookWorld) : HookWorld * Completion unit :=
  match resume (world hw) with
  | (w', Thrown msg) =>
      ({| hook := hook hw; world := w'; intervals := intervals hw |}, Thrown msg)
  | (w', Returned _) =>
      let t := nextId w' in
      ({| hook :=
            with_state
              (with_isRecording true
                 (onChunkComplete_calls (world hw) w' (Hook.state (hook hw))))
              (with_timerRef (Some t) (hook hw));
          world := set_nextId (S t) w';
          intervals := clearInterval (Hook.timerRef (hook hw)) (intervals hw) ++ [t] |},
       Returned ())
  end.

(** [setState(prev => ({ ...prev, isRecording: false, chunks, mainBlob,
    mainAudioUrl }))] of [stopRecording], from [recorder.getState()]. *)
Definition with_stopped (r : ChunkedRecordingState) (s : Hook.ChunkedAudioRecorderState)
  : Hook.ChunkedAudioRecorderState :=
  {| Hook.isRecording := false; Hook.chunks := st_chunks r;
     Hook.currentChunkStartTime := Hook.currentChunkStartTime s;
     Hook.totalDuration := Hook.totalDuration s;
     Hook.mainBlob := st_mainBlob r; Hook.mainAudioUrl := st_mainAudioUrl r;
     Hook.error := Hook.error s; Hook.recoveryAvailable := Hook.recoveryAvailable s |}.

(** [stopRecording()]: the blob it resolves with.  [recorder.stop()] does not
    throw. *)
Definition stopRecording (hw : HookWorld) : HookWorld * option Blob :=
  let (w1, c) := stop (world hw) in
  let blob := match c with Returned b => b | Thrown _ => None end in
  let recorderState := getState w1 in
  let s1 := onChunkComplete_calls (world hw) w1 (Hook.state (hook hw)) in
  let w2 :=
    match Hook.streamRef (hook hw) with
    | Some s => stopTracks s w1
    | None => w1
    end in
  ({| hook :=
        {| Hook.state := with_stopped recorderState s1;
           Hook.streamRef := None;
           Hook.timerRef := None;
           Hook.currentChunkIndex := Hook.currentChunkIndex (hook hw);
           Hook.elapsedTime := Hook.elapsedTime (hook hw) |};
      world := w2;
      intervals := clearInterval (Hook.timerRef (hook hw)) (intervals hw) |},
   blob).

(** The effect run on mount: [checkRecovery()], when recording is
    supported. *)
Definition checkRecovery (isSupported : bool) (hw : HookWorld) : HookWorld :=
  if isSupported then
    match checkForRecovery (idb (world hw)) with
    | (Resolved recovery, e') =>
        {| hook :=
             with_state
               (with_recoveryAvailable (hasRecovery recovery) (Hook.state (hook hw)))
               (hook hw);
           world := set_idb e' (world hw);
           intervals := intervals hw |}
    | (_, e') =>
        {| hook := hook hw; world := set_idb e' (world hw); intervals := intervals hw |}
    end
  else hw.

(** [recoverRecording()]: the boolean it resolves with. *)
Definition recoverRecording (hw : HookWorld) : HookWorld * Promise bool :=
  match checkForRecovery (idb (world hw)) with
  | (Resolved recovery, e') =>
      let w1 := set_idb e' (world hw) in
      match hasRecovery recovery, recording recovery with
      | true, Some b =>
          let (audioUrl, w2) := createObjectURL w1 in
          ({| hook := with_state (with_recovered b audioUrl (Hook.state (hook hw))) (hook hw);
              world := w2;
              intervals := intervals hw |}, Resolved true)
      | _, _ =>
          ({| hook := hook hw; world := w1; intervals := intervals hw |}, Resolved false)
      end
  | (Rejected _, e') =>
      ({| hook := hook hw; world := set_idb e' (world hw); intervals := intervals hw |},
       Resolved false)
  | (Pending, e') =>
      ({| hook := hook hw; world := set_idb e' (world hw); intervals := intervals hw |},
       Pending)
  end.

(** The time shown in the hook's toasts:
    [Math.round(elapsed / 1000)] seconds as [m:ss].  [elapsed] is the hook's
    [elapsedTime], a non-negative whole number of milliseconds. *)
Definition totalSeconds (elapsed : nat) : nat := (elapsed + 500) / 1000.

(** [n.toString()] for a non-negative integer. *)
Definition toString (n : nat) : string :=
  DecimalString.NilZero.string_of_uint (Nat.to_uint n).

(** [s.padStart(2, '0')] *)
Definition padStart2 (s : string) : string :=
  match String.length s with
  | O => "00"
  | 1%nat => "0" ++ s
  | _ => s
  end.

Definition timeString (elapsed : nat) : string :=
  let minutes := (totalSeconds elapsed / 60)%nat in
  let seconds := (totalSeconds elapsed mod 60)%nat in
  toString minutes ++ ":" ++ padStart2 (toString seconds).

(** A hook in the middle of the example session. *)
Definition hw_recording : HookWorld :=
  {| hook := hook_recording; world := w_save_pending; intervals := [100%nat] |}.

(** What a reader of the recording slot finds: the [data] of the stored
    entry, when the store can be opened. *)
Definition recoverable (e : IDB.Env) : option Blob :=
  if store_opens e then
    match stored_recording e with
    | Some ent => IDB.e_data ent
    | None => None
    end
  else None.

(** The answer of [checkForRecovery()] for the blob found. *)
Definition recovery_of (found : option Blob) : Recovery :=
  match found with
  | Some b => {| hasRecovery := true; recording := Some b |}
  | None => noRecovery
  end.

(** No character of the string is a colon. *)
Fixpoint colon_free (s : string) : Prop :=
  match s with
  | EmptyString => True
  | String c s' => c <> ":"%char /\ colon_free s'
  end.

(** ** Lemmas and theorems *)

(** *** What each method does to the core *)

Lemma core_clearChunkTimer w : core (clearChunkTimer w) = core w.
Proof. unfold clearChunkTimer. destruct (chunkTimer (this w)); reflexivity. Qed.

Lemma core_mediaRecorder_stop w : core (mediaRecorder_stop w) = core w.
Proof.
  unfold mediaRecorder_stop. destruct (mediaRecorder (this w)) as [m|]; [|reflexivity].
  destruct (snd (mr_stop m)); reflexivity.
Qed.

Lemma core_mediaRecorder_start w w' :
  mediaRecorder_start w = Some w' -> core w' = core w.
Proof.
  unfold mediaRecorder_start. destruct (mediaRecorder (this w)) as [m|]; [|discriminate].
  destruct (mr_start m); [|discriminate]. intros [= <-]. reflexivity.
Qed.

Lemma core_startChunkTimer w : core (startChunkTimer w) = core w.
Proof. unfold startChunkTimer. simpl. apply core_clearChunkTimer. Qed.

Lemma core_saveChunkToStorage d w : core (saveChunkToStorage d w) = core w.
Proof. unfold saveChunkToStorage. destruct (IDB.open_throws _); reflexivity. Qed.

Lemma core_saveCompleteRecordingToStorage w :
  core (saveCompleteRecordingToStorage w) = core w.
Proof.
  unfold saveCompleteRecordingToStorage. destruct (mainBlob _); [|reflexivity].
  destruct (IDB.open_throws _); reflexivity.
Qed.

Lemma core_completeCurrentChunk w :
  core (completeCurrentChunk w) = complete_c (core w).
Proof.
  unfold completeCurrentChunk, complete_c. simpl.
  destruct (audioChunks (this w)) eqn:E; [reflexivity|].
  destruct (onChunkComplete (options (this w))) eqn:F; unfold core; simpl; rewrite ?E, ?F; reflexivity.
Qed.

Lemma core_start w :
  core (fst (start w)) =
  match mediaRecorder (this w) with
  | Some _ => start_c (core w)
  | None => core w
  end.
Proof.
  unfold start. destruct (mediaRecorder (this w)) eqn:E; [|reflexivity].
  match goal with |- context [mediaRecorder_start ?x] =>
    destruct (mediaRecorder_start x) as [w2|] eqn:F end; simpl.
  - rewrite core_startChunkTimer. rewrite (core_mediaRecorder_start _ _ F). reflexivity.
  - reflexivity.
Qed.

Lemma core_stop w :
  core (fst (stop w)) = if active w then complete_c (core w) else core w.
Proof.
  unfold stop, active. destruct (mediaRecorder (this w)); [|reflexivity].
  destruct (isRecording (this w)); [|reflexivity]. simpl.
  rewrite core_completeCurrentChunk. f_equal.
  transitivity (core (mediaRecorder_stop (clearChunkTimer w))); [reflexivity|].
  rewrite core_mediaRecorder_stop. apply core_clearChunkTimer.
Qed.

Lemma core_pause w :
  core (fst (pause w)) = if active w then complete_c (core w) else core w.
Proof.
  unfold pause, active. destruct (mediaRecorder (this w)); [|reflexivity].
  destruct (isRecording (this w)); [|reflexivity]. simpl.
  rewrite core_completeCurrentChunk, core_mediaRecorder_stop.
  rewrite core_clearChunkTimer. reflexivity.
Qed.

Lemma core_resume w : core (fst (resume w)) = core w.
Proof.
  unfold resume. destruct (mediaRecorder (this w)); [|reflexivity].
  destruct (isRecording (this w)); [reflexivity|].
  match goal with |- context [mediaRecorder_start ?x] =>
    destruct (mediaRecorder_start x) as [w2|] eqn:F end; simpl.
  - rewrite core_startChunkTimer. rewrite (core_mediaRecorder_start _ _ F). reflexivity.
  - reflexivity.
Qed.

Lemma core_initialize g s w : core (fst (initialize g s w)) = core w.
Proof. unfold initialize. destruct g; reflexivity. Qed.

Lemma core_chunkTimer_callback w :
  core (chunkTimer_callback w) = complete_c (core w).
Proof.
  unfold chunkTimer_callback. rewrite <- core_completeCurrentChunk.
  set (w1 := completeCurrentChunk w).
  destruct (mediaRecorder (this w1)); [|reflexivity].
  destruct (isRecording (this w1)); [|reflexivity].
  match goal with |- context [mediaRecorder_start ?x] =>
    destruct (mediaRecorder_start x) as [w4|] eqn:F end.
  - rewrite core_startChunkTimer. rewrite (core_mediaRecorder_start _ _ F).
    transitivity (core (mediaRecorder_stop w1)); [reflexivity|].
    apply core_mediaRecorder_stop.
  - transitivity (core (mediaRecorder_stop w1)); [reflexivity|].
    apply core_mediaRecorder_stop.
Qed.

Lemma core_ondataavailable d w : core (ondataavailable d w) = push_c d (core w).
Proof.
  unfold ondataavailable, push_c. destruct (0 <? blob_size d)%nat; [|reflexivity].
  rewrite core_saveChunkToStorage. reflexivity.
Qed.

Lemma core_onstop w : core (onstop w) = main_c (core w).
Proof.
  unfold onstop. simpl. rewrite core_saveCompleteRecordingToStorage.
  destruct (mainAudioUrl (this w)); reflexivity.
Qed.

Lemma core_cleanup w :
  core (cleanup w) = cleanup_c (if active w then complete_c (core w) else core w).
Proof.
  rewrite <- core_stop. unfold cleanup.
  assert (H : (if isRecording (this w) then fst (stop w) else w) = fst (stop w)).
  { unfold stop. destruct (isRecording (this w)); [reflexivity|].
    destruct (mediaRecorder (this w)); reflexivity. }
  rewrite H. set (w1 := fst (stop w)).
  transitivity (cleanup_c (core (clearChunkTimer w1))).
  2:{ rewrite core_clearChunkTimer. reflexivity. }
  set (w2 := clearChunkTimer w1).
  destruct (stream (this w2)), (mainAudioUrl (this w2)) eqn:E; simpl; rewrite ?E; reflexivity.
Qed.

Lemma core_indexedDB_task w : core (indexedDB_task w) = core w.
Proof.
  unfold indexedDB_task. destruct (idbTasks w) as [|[c|] rest]; [reflexivity| |].
  - destruct (snd _); [rewrite core_saveChunkToStorage|]; reflexivity.
  - destruct (snd _); [rewrite core_saveCompleteRecordingToStorage|]; reflexivity.
Qed.

Lemma step_core w ev : core (step w ev) = core_of_step w ev.
Proof.
  destruct ev; simpl.
  - apply core_initialize.
  - apply core_start.
  - apply core_stop.
  - apply core_pause.
  - apply core_resume.
  - apply core_cleanup.
  - reflexivity.
  - reflexivity.
  - unfold timer_fires. destruct (timeouts w); [reflexivity|].
    rewrite core_chunkTimer_callback. reflexivity.
  - unfold mediaRecorder_task. destruct (mrTasks w); [reflexivity|].
    rewrite core_onstop, core_ondataavailable. reflexivity.
  - apply core_indexedDB_task.
  - reflexivity.
Qed.

(** *** Runs and session invariants *)

Lemma run_snoc evs ev w : run (evs ++ [ev]) w = step (run evs w) ev.
Proof. unfold run. rewrite fold_left_app. reflexivity. Qed.

Lemma run_invariant (P : World -> Prop) (ok : Event -> bool) :
  (forall w ev, ok ev = true -> P w -> P (step w ev)) ->
  forall evs w, forallb ok evs = true -> P w -> P (run evs w).
Proof.
  intros Hstep evs. induction evs as [|ev evs IH]; intros w Hok Hw; [exact Hw|].
  simpl in Hok. apply andb_true_iff in Hok as [Hev Hrest].
  simpl. apply IH; [exact Hrest|]. apply Hstep; assumption.
Qed.

(** During a session the core only changes by completing a chunk or by a
    MediaRecorder stop task (push the fragment, rebuild the main blob). *)
Lemma session_step_core w ev :
  session_event ev = true ->
  core (step w ev) = core w
  \/ core (step w ev) = complete_c (core w)
  \/ exists d, core (step w ev) = main_c (push_c d (core w)).
Proof.
  intros Hev. rewrite step_core.
  destruct ev; simpl in *; try discriminate; auto.
  - destruct (active w); auto.
  - destruct (active w); auto.
  - destruct (timeouts w); auto.
  - destruct (mrTasks w); eauto.
Qed.

Lemma numbered_complete base c : numbered base c -> numbered base (complete_c c).
Proof.
  intros [Hi Hc]. unfold complete_c. destruct (c_buffer c) eqn:E; [split; assumption|].
  split; simpl.
  - rewrite length_app. simpl. lia.
  - destruct (c_callback c).
    + rewrite Hc, imap_app. simpl. rewrite Nat.add_0_r, Hi, <- app_assoc. reflexivity.
    + exact Hc.
Qed.

Lemma numbered_task base d c : numbered base c -> numbered base (main_c (push_c d c)).
Proof. unfold numbered, push_c. destruct (0 <? blob_size d)%nat; simpl; auto. Qed.

Lemma snapshots_complete c : snapshots c -> snapshots (complete_c c).
Proof.
  unfold snapshots, complete_c. intros H.
  destruct (c_buffer c) as [|x l] eqn:E; [rewrite E; exact H|].
  simpl. apply Forall_app. split; [exact H|].
  constructor; [|constructor].
  exists (length (x :: l)). split; [simpl; lia|].
  rewrite firstn_all. reflexivity.
Qed.

Lemma snapshots_task d c : snapshots c -> snapshots (main_c (push_c d c)).
Proof.
  unfold snapshots, push_c. intros H.
  destruct (0 <? blob_size d)%nat; simpl; [|exact H].
  eapply Forall_impl; [exact H|]. intros b (k & Hk & ->).
  exists k. rewrite length_app. split; [simpl; lia|].
  rewrite take_app_le by lia. reflexivity.
Qed.

Lemma declared_wav_complete c : declared_wav c -> declared_wav (complete_c c).
Proof.
  unfold declared_wav, complete_c. intros (Hc & Hl & Hm).
  destruct (c_buffer c); [auto|]. simpl. split; [|split; [|exact Hm]].
  - apply Forall_app. split; [exact Hc|]. constructor; [reflexivity|constructor].
  - destruct (c_callback c); [|exact Hl].
    apply Forall_app. split; [exact Hl|]. constructor; [reflexivity|constructor].
Qed.

Lemma declared_wav_task d c : declared_wav c -> declared_wav (main_c (push_c d c)).
Proof.
  unfold declared_wav, main_c, push_c. intros (Hc & Hl & Hm).
  destruct (0 <? blob_size d)%nat; simpl;
    (split; [exact Hc|split; [exact Hl|]]); intros b [= <-]; reflexivity.
Qed.

Lemma declared_wav_step w ev : declared_wav (core w) -> declared_wav (core (step w ev)).
Proof.
  intros H. rewrite step_core.
  assert (Hs : declared_wav (start_c (core w))).
  { destruct H as (_ & Hl & Hm). split; [constructor|split; assumption]. }
  assert (Hx : forall c, declared_wav c -> declared_wav (cleanup_c c)).
  { intros c (_ & Hl & _). split; [constructor|split; [exact Hl|]]. simpl. discriminate. }
  destruct ev; simpl; auto.
  - destruct (mediaRecorder (this w)); auto.
  - destruct (active w); auto using declared_wav_complete.
  - destruct (active w); auto using declared_wav_complete.
  - destruct (active w); auto using declared_wav_complete.
  - destruct (timeouts w); auto using declared_wav_complete.
  - destruct (mrTasks w); auto using declared_wav_task.
Qed.

Lemma session_invariant (P : Core -> Prop) :
  (forall c, P c -> P (complete_c c)) ->
  (forall d c, P c -> P (main_c (push_c d c))) ->
  forall evs w, forallb session_event evs = true -> P (core w) -> P (core (run evs w)).
Proof.
  intros Hc Ht evs w Hev Hw.
  apply (run_invariant (fun w => P (core w)) session_event); try assumption.
  intros w' ev Hev' Hw'.
  destruct (session_step_core w' ev Hev') as [-> | [-> | [d ->]]]; auto.
Qed.

(** *** The fragment buffer along a session *)

Lemma buffer_step w ev :
  session_event ev = true ->
  audioChunks (this (step w ev)) = audioChunks (this w) ++ fragment_of ev w.
Proof.
  intros Hev.
  change (c_buffer (core (step w ev)) = c_buffer (core w) ++ fragment_of ev w).
  rewrite step_core.
  assert (Hc : forall c, c_buffer (complete_c c) = c_buffer c).
  { intros c. unfold complete_c. destruct (c_buffer c) eqn:E; simpl; congruence. }
  destruct ev; simpl in *; try discriminate; rewrite ?app_nil_r; try reflexivity.
  - destruct (active w); rewrite ?Hc; reflexivity.
  - destruct (active w); rewrite ?Hc; reflexivity.
  - destruct (timeouts w); rewrite ?Hc; reflexivity.
  - destruct (mrTasks w); [rewrite app_nil_r; reflexivity|].
    unfold push_c. destruct (0 <? blob_size data)%nat; simpl;
      rewrite ?app_nil_r; reflexivity.
Qed.

Lemma session_buffer evs : forall w,
  forallb session_event evs = true ->
  audioChunks (this (run evs w)) = audioChunks (this w) ++ delivered evs w.
Proof.
  induction evs as [|ev evs IH]; intros w Hev; simpl.
  - rewrite app_nil_r. reflexivity.
  - simpl in Hev. apply andb_true_iff in Hev as [H1 H2].
    unfold run in IH. rewrite (IH _ H2), (buffer_step _ _ H1), app_assoc. reflexivity.
Qed.

Lemma delivered_app evs1 evs2 w :
  delivered (evs1 ++ evs2) w = delivered evs1 w ++ delivered evs2 (run evs1 w).
Proof.
  revert w. induction evs1 as [|ev evs1 IH]; intros w; simpl; [reflexivity|].
  rewrite IH, app_assoc. reflexivity.
Qed.

(** [start()] on an initialised recorder opens a session with an empty core. *)
Lemma core_session_start w :
  is_Some (mediaRecorder (this w)) -> core (fst (start w)) = start_c (core w).
Proof. intros [m Hm]. rewrite core_start, Hm. reflexivity. Qed.

Lemma session_forallb_snoc evs ev :
  forallb session_event evs = true -> session_event ev = true ->
  forallb session_event (evs ++ [ev]) = true.
Proof. intros H1 H2. rewrite forallb_app, H1. simpl. rewrite H2. reflexivity. Qed.

(** ** Claims about chunking *)

(** C9. Within one session (from a [start()] on an initialised recorder, up
    to the next [start()] or [cleanup()]): the index counter equals the number
    of chunks; the completion callback has been called for the i-th chunk
    with index i, so the indices are exactly 0..N-1; every chunk was built
    from a non-empty fragment buffer; and [completeCurrentChunk] on an empty
    buffer changes nothing (no chunk, no index advance). *)
Theorem C9_chunk_indices_are_consecutive (w : World) (evs : list Event) :
  is_Some (mediaRecorder (this w)) ->
  forallb session_event evs = true ->
  let w' := run evs (fst (start w)) in
  currentChunkIndex (this w') = length (chunks (this w')) /\
  chunkCallbacks w' =
    chunkCallbacks w ++
    (if onChunkComplete (options (this w))
     then imap (fun i b => (b, i)) (chunks (this w')) else []) /\
  Forall (fun b => exists k, (0 < k <= length (audioChunks (this w')))%nat /\
                    b = new_Blob (take k (audioChunks (this w'))) "audio/wav")
         (chunks (this w')) /\
  (forall v, audioChunks (this v) = [] -> completeCurrentChunk v = v).
Proof.
  intros Hm Hev w'.
  assert (Hn : numbered (chunkCallbacks w) (core w')).
  { apply session_invariant; auto using numbered_complete, numbered_task.
    rewrite core_session_start by exact Hm.
    split; simpl; [reflexivity|]. destruct (onChunkComplete _); rewrite app_nil_r; reflexivity. }
  assert (Hs : snapshots (core w')).
  { apply session_invariant; auto using snapshots_complete, snapshots_task.
    rewrite core_session_start by exact Hm. constructor. }
  assert (Ho : c_callback (core w') = onChunkComplete (options (this w))).
  { transitivity (c_callback (core (fst (start w)))).
    - apply (session_invariant (fun c => c_callback c = c_callback (core (fst (start w))))); auto.
      + intros c <-. unfold complete_c. destruct (c_buffer c); reflexivity.
      + intros d c <-. unfold push_c. destruct (0 <? blob_size d)%nat; reflexivity.
    - rewrite core_session_start by exact Hm. reflexivity. }
  destruct Hn as [Hi Hc]. rewrite Ho in Hc.
  repeat split; try assumption.
  intros v Hv. unfold completeCurrentChunk. rewrite Hv. reflexivity.
Qed.

(** C9, at a concrete session: three rotations on the example recorder. *)
Lemma C9_witness :
  is_Some (mediaRecorder (this w_initialized)) /\
  forallb session_event rotations = true /\
  currentChunkIndex (this w_three_rotations) = 2%nat /\
  map snd (chunkCallbacks w_three_rotations) = [0%nat; 1%nat].
Proof.
  assert (Hm : is_Some (mediaRecorder (this w_initialized))) by (eexists; reflexivity).
  assert (Hev : forallb session_event rotations = true) by reflexivity.
  destruct (C9_chunk_indices_are_consecutive w_initialized rotations Hm Hev)
    as (Hi & Hc & _).
  split; [exact Hm|]. split; [exact Hev|].
  unfold w_three_rotations, w_recording. split.
  - rewrite Hi. reflexivity.
  - rewrite Hc. reflexivity.
Defined.

(** In a session, the fragment buffer is exactly what was delivered since
    [start()], and every chunk is the blob of a non-empty prefix of it. *)
Lemma session_state w evs :
  is_Some (mediaRecorder (this w)) ->
  forallb session_event evs = true ->
  let w' := run evs (fst (start w)) in
  audioChunks (this w') = delivered evs (fst (start w)) /\ snapshots (core w').
Proof.
  intros Hm Hev w'. split.
  - unfold w'. rewrite session_buffer by exact Hev.
    change (audioChunks (this (fst (start w)))) with (c_buffer (core (fst (start w)))).
    rewrite core_session_start by exact Hm. reflexivity.
  - apply session_invariant; auto using snapshots_complete, snapshots_task.
    rewrite core_session_start by exact Hm. constructor.
Qed.

(** [stop()] hands back whatever the [mainBlob] field holds when it is called;
    the field is only written by the [onstop] handler. *)
Lemma stop_returns_mainBlob_field w :
  active w = true -> snd (stop w) = Returned (mainBlob (this w)).
Proof.
  unfold active, stop. destruct (mediaRecorder (this w)); [|discriminate].
  intros ->. simpl. f_equal.
  change (c_main (core (completeCurrentChunk
           (upd (set_isRecording false) (mediaRecorder_stop (clearChunkTimer w)))))
          = c_main (core w)).
  rewrite core_completeCurrentChunk.
  assert (Hc : forall c, c_main (complete_c c) = c_main c).
  { intros c. unfold complete_c. destruct (c_buffer c); reflexivity. }
  rewrite Hc.
  change (c_main (core (mediaRecorder_stop (clearChunkTimer w))) = c_main (core w)).
  rewrite core_mediaRecorder_stop, core_clearChunkTimer. reflexivity.
Qed.

(** C1 (amended). In a session, when the platform runs a queued stop task
    (the last fragment [d] is delivered, then [onstop] runs), the main blob
    becomes a single blob declared [audio/wav] whose bytes are the ordered
    concatenation of every raw fragment delivered since [start()]; the
    chunks of the session are blobs of non-empty prefixes of that same
    fragment list, not disjoint pieces of it. *)
Theorem C1_full_recording_concatenates_fragments
    (w : World) (evs : list Event) (d : Blob) :
  is_Some (mediaRecorder (this w)) ->
  forallb session_event evs = true ->
  (0 < mrTasks (run evs (fst (start w))))%nat ->
  let w2 := step (run evs (fst (start w))) (MediaRecorderTask d) in
  let fragments := delivered (evs ++ [MediaRecorderTask d]) (fst (start w)) in
  exists full,
    mainBlob (this w2) = Some full /\
    blob_type full = "audio/wav" /\
    blob_bytes full = concat (map blob_bytes fragments) /\
    Forall (fun c => exists k, (0 < k <= length fragments)%nat /\
                      c = new_Blob (take k fragments) "audio/wav")
           (chunks (this w2)).
Proof.
  intros Hm Hev Hq w2 fragments.
  assert (Hev' : forallb session_event (evs ++ [MediaRecorderTask d]) = true)
    by (apply session_forallb_snoc; [exact Hev|reflexivity]).
  destruct (session_state w _ Hm Hev') as [Hb Hs].
  rewrite run_snoc in Hb, Hs. fold w2 in Hb, Hs. fold fragments in Hb.
  exists (new_Blob fragments "audio/wav"). repeat split.
  - change (c_main (core w2) = Some (new_Blob fragments "audio/wav")).
    rewrite <- Hb.
    change (audioChunks (this w2)) with (c_buffer (core w2)).
    unfold w2. rewrite step_core. simpl.
    destruct (mrTasks (run evs (fst (start w)))); [lia|]. reflexivity.
  - unfold snapshots in Hs. simpl in Hs. rewrite Hb in Hs. exact Hs.
Qed.

(** C1 at a concrete session: one rotation, then the stop task delivers
    [fragA]. *)
Lemma C1_witness :
  is_Some (mediaRecorder (this w_initialized)) /\
  forallb session_event [TimerFires] = true /\
  (0 < mrTasks (run [TimerFires] (fst (start w_initialized))))%nat /\
  exists full,
    mainBlob (this (step (run [TimerFires] (fst (start w_initialized)))
                         (MediaRecorderTask fragA))) = Some full /\
    blob_type full = "audio/wav" /\
    blob_bytes full = [Byte.x01].
Proof.
  assert (Hm : is_Some (mediaRecorder (this w_initialized))) by (eexists; reflexivity).
  assert (Hev : forallb session_event [TimerFires] = true) by reflexivity.
  assert (Hq : (0 < mrTasks (run [TimerFires] (fst (start w_initialized))))%nat)
    by (vm_compute; lia).
  destruct (C1_full_recording_concatenates_fragments
              w_initialized [TimerFires] fragA Hm Hev Hq) as (full & H1 & H2 & H3 & _).
  split; [exact Hm|]. split; [exact Hev|]. split; [exact Hq|].
  exists full. split; [exact H1|]. split; [exact H2|]. rewrite H3. reflexivity.
Defined.

(** C1 as stated fails: after three rotations [stop()] returns a blob of
    three bytes, while the completed chunks concatenate to six. *)
Lemma C1_counterexample :
  active w_three_rotations = true /\
  exists b,
    snd (stop w_three_rotations) = Returned (Some b) /\
    blob_bytes b = [Byte.x01; Byte.x02; Byte.x03] /\
    concat (map blob_bytes (chunks (this (fst (stop w_three_rotations))))) =
      [Byte.x01; Byte.x01; Byte.x02; Byte.x01; Byte.x02; Byte.x03] /\
    blob_bytes b <>
      concat (map blob_bytes (chunks (this (fst (stop w_three_rotations))))).
Proof.
  split; [reflexivity|].
  exists (mkBlob [Byte.x01; Byte.x02; Byte.x03] "audio/wav").
  split; [reflexivity|]. split; [reflexivity|]. split; [reflexivity|].
  vm_compute. discriminate.
Qed.

(** C2 (amended). In a session, when the rotation timer fires the fragment
    buffer is read but not drained: it still holds every fragment delivered
    since [start()].  If it is empty nothing is emitted; otherwise one chunk
    is appended whose content is the whole buffer, the callback receives it
    with the current index, and the index advances by one. *)
Theorem C2_rotation_snapshots_whole_buffer (w : World) (evs : list Event) :
  is_Some (mediaRecorder (this w)) ->
  forallb session_event evs = true ->
  timeouts (run evs (fst (start w))) <> [] ->
  let w1 := run evs (fst (start w)) in
  let w2 := step w1 TimerFires in
  let fragments := delivered evs (fst (start w)) in
  audioChunks (this w2) = fragments /\
  match fragments with
  | [] =>
      chunks (this w2) = chunks (this w1) /\
      currentChunkIndex (this w2) = currentChunkIndex (this w1) /\
      chunkCallbacks w2 = chunkCallbacks w1
  | _ :: _ =>
      chunks (this w2) = chunks (this w1) ++ [new_Blob fragments "audio/wav"] /\
      currentChunkIndex (this w2) = S (currentChunkIndex (this w1)) /\
      chunkCallbacks w2 =
        chunkCallbacks w1 ++
        (if onChunkComplete (options (this w1))
         then [(new_Blob fragments "audio/wav", currentChunkIndex (this w1))]
         else [])
  end.
Proof.
  intros Hm Hev Ht w1 w2 fragments.
  destruct (session_state w evs Hm Hev) as [Hb _]. fold w1 fragments in Hb.
  assert (Hc : core w2 = complete_c (core w1)).
  { unfold w2, w1. rewrite step_core. simpl.
    destruct (timeouts (run evs (fst (start w)))); [congruence|reflexivity]. }
  assert (Hb1 : c_buffer (core w1) = fragments) by exact Hb.
  split.
  - change (c_buffer (core w2) = fragments). rewrite Hc. unfold complete_c.
    destruct (c_buffer (core w1)) eqn:E; simpl; congruence.
  - change (chunks (this w2)) with (c_chunks (core w2)).
    change (currentChunkIndex (this w2)) with (c_index (core w2)).
    change (chunkCallbacks w2) with (c_calls (core w2)).
    rewrite Hc. unfold complete_c. rewrite Hb1.
    destruct fragments; simpl; [auto|].
    repeat split. destruct (onChunkComplete (options (this w1))); [reflexivity|].
    rewrite app_nil_r. reflexivity.
Qed.

(** C2 at a concrete session: the second timer fire of the example. *)
Lemma C2_witness :
  is_Some (mediaRecorder (this w_initialized)) /\
  forallb session_event [TimerFires; MediaRecorderTask fragA] = true /\
  timeouts (run [TimerFires; MediaRecorderTask fragA] (fst (start w_initialized))) <> [] /\
  audioChunks
    (this (step (run [TimerFires; MediaRecorderTask fragA] (fst (start w_initialized)))
                TimerFires)) = [fragA].
Proof.
  assert (Hm : is_Some (mediaRecorder (this w_initialized))) by (eexists; reflexivity).
  assert (Hev : forallb session_event [TimerFires; MediaRecorderTask fragA] = true)
    by reflexivity.
  assert (Ht : timeouts (run [TimerFires; MediaRecorderTask fragA]
                             (fst (start w_initialized))) <> [])
    by (vm_compute; discriminate).
  destruct (C2_rotation_snapshots_whole_buffer w_initialized _ Hm Hev Ht) as [Hb _].
  split; [exact Hm|]. split; [exact Hev|]. split; [exact Ht|].
  rewrite Hb. reflexivity.
Defined.

(** C2 as stated fails: [fragA] was already emitted in chunk 0, is still in
    the buffer at the next rotation, and is emitted again in chunk 1, which
    therefore is not the blob of the fragments captured since the previous
    boundary ([fragB] alone). *)
Lemma C2_counterexample :
  let before :=
    run [TimerFires; MediaRecorderTask fragA; TimerFires; MediaRecorderTask fragB]
        w_recording in
  let after := step before TimerFires in
  chunks (this before) = [new_Blob [fragA] "audio/wav"] /\
  chunks (this after) =
    [new_Blob [fragA] "audio/wav"; new_Blob [fragA; fragB] "audio/wav"] /\
  audioChunks (this after) = [fragA; fragB] /\
  new_Blob [fragA; fragB] "audio/wav" <> new_Blob [fragB] "audio/wav".
Proof. repeat split; try reflexivity. vm_compute. discriminate. Qed.

(** C10. Along every run from a new recorder, every chunk, every blob handed
    to the completion callback and the main blob are declared [audio/wav];
    yet [initialize()] configures the capture with [audio/webm] whenever that
    type is supported, and a blob's bytes are those of its parts, unchanged.
    The declared type is a constant that does not depend on the encoding. *)
Theorem C10_blobs_are_declared_wav
    (opts : ChunkedRecorderOptions) (t : Z) (e : IDB.Env) (evs : list Event) :
  let w := run evs (new_World opts t e) in
  Forall (fun b => blob_type b = "audio/wav") (chunks (this w)) /\
  Forall (fun call => blob_type (fst call) = "audio/wav") (chunkCallbacks w) /\
  match mainBlob (this w) with
  | Some b => blob_type b = "audio/wav"
  | None => True
  end /\
  (forall v, mediaRecorder (this (fst (initialize true true v))) =
             Some {| mr_state := mr_inactive; mr_mimeType := Some "audio/webm" |}) /\
  (forall parts, blob_bytes (new_Blob parts "audio/wav") = concat (map blob_bytes parts)) /\
  "audio/wav" <> "audio/webm".
Proof.
  intros w.
  assert (H : declared_wav (core w)).
  { apply (run_invariant (fun w => declared_wav (core w)) (fun _ => true)).
    - intros w' ev _. apply declared_wav_step.
    - induction evs; simpl; auto.
    - split; [constructor|split; [constructor|]]. simpl. discriminate. }
  destruct H as (Hc & Hl & Hm).
  split; [exact Hc|]. split; [exact Hl|]. split.
  { change (mainBlob (this w)) with (c_main (core w)).
    destruct (c_main (core w)) eqn:E; [apply Hm; reflexivity|exact I]. }
  split; [reflexivity|]. split; [reflexivity|]. discriminate.
Qed.

(** ** Claims about the state machine *)

Lemma guards_clearChunkTimer w :
  isRecording (this (clearChunkTimer w)) = isRecording (this w) /\
  mediaRecorder (this (clearChunkTimer w)) = mediaRecorder (this w) /\
  chunkTimer (this (clearChunkTimer w)) = None.
Proof.
  unfold clearChunkTimer. destruct (chunkTimer (this w)) eqn:E; simpl; auto.
Qed.

Lemma guards_mediaRecorder_stop w :
  isRecording (this (mediaRecorder_stop w)) = isRecording (this w) /\
  (is_Some (mediaRecorder (this w)) -> is_Some (mediaRecorder (this (mediaRecorder_stop w)))) /\
  chunkTimer (this (mediaRecorder_stop w)) = chunkTimer (this w).
Proof.
  unfold mediaRecorder_stop. destruct (mediaRecorder (this w)) as [m|] eqn:E.
  - destruct (snd (mr_stop m)); simpl; repeat split; eauto.
  - rewrite E. auto.
Qed.

Lemma guards_completeCurrentChunk w :
  isRecording (this (completeCurrentChunk w)) = isRecording (this w) /\
  mediaRecorder (this (completeCurrentChunk w)) = mediaRecorder (this w) /\
  chunkTimer (this (completeCurrentChunk w)) = chunkTimer (this w).
Proof.
  unfold completeCurrentChunk. destruct (audioChunks (this w)); [auto|].
  simpl. destruct (onChunkComplete (options (this w))); auto.
Qed.

(** C3 (what the code does instead). [pause()] from an active recording
    leaves [isRecording] set, so the [resume()] that follows is rejected by
    its own guard: it changes nothing, and the chunk timer cleared by
    [pause()] stays cleared. *)
Theorem C3_resume_after_pause_is_rejected (w : World) :
  active w = true ->
  let p := fst (pause w) in
  isRecording (this p) = true /\
  chunkTimer (this p) = None /\
  resume p = (p, Returned ()).
Proof.
  intros Ha p. unfold active in Ha.
  destruct (mediaRecorder (this w)) as [m|] eqn:Em; [|discriminate].
  assert (Hp : p = completeCurrentChunk (mediaRecorder_stop (clearChunkTimer w))).
  { unfold p, pause. rewrite Em, Ha. reflexivity. }
  destruct (guards_clearChunkTimer w) as (H1 & H2 & H3).
  destruct (guards_mediaRecorder_stop (clearChunkTimer w)) as (H4 & H5 & H6).
  destruct (guards_completeCurrentChunk (mediaRecorder_stop (clearChunkTimer w)))
    as (H7 & H8 & H9).
  assert (Hi : isRecording (this p) = true) by (rewrite Hp; congruence).
  assert (Hr : is_Some (mediaRecorder (this p))).
  { rewrite Hp, H8. apply H5. rewrite H2, Em. eauto. }
  split; [exact Hi|]. split; [rewrite Hp; congruence|].
  unfold resume. destruct Hr as [m' ->]. rewrite Hi. reflexivity.
Qed.

(** C3 at the failing input: initialize, start, pause, resume. *)
Lemma C3_witness :
  active w_recording = true /\
  resume w_paused = (w_paused, Returned ()) /\
  timeouts w_paused = [] /\
  mediaRecorder (this w_paused) =
    Some {| mr_state := mr_inactive; mr_mimeType := Some "audio/webm" |}.
Proof.
  assert (Ha : active w_recording = true) by reflexivity.
  destruct (C3_resume_after_pause_is_rejected w_recording Ha) as (_ & _ & Hr).
  split; [exact Ha|]. split; [exact Hr|]. split; reflexivity.
Defined.

(** C5 (amended). The calls a method's own guard rejects are no-ops that do
    not throw and change nothing: [resume()] while [isRecording] is set, and
    [stop()] (returning null) and [pause()] when it is not set or no
    recorder exists.  [start()] has no such guard: without a recorder it
    throws, with one it always begins a new session (no chunks, index 0). *)
Theorem C5_guarded_calls_are_noops (w : World) :
  (if active w then resume w = (w, Returned ())
   else stop w = (w, Returned None) /\ pause w = (w, Returned ())) /\
  match mediaRecorder (this w) with
  | None =>
      start w = (w, Thrown "Media recorder not initialized") /\
      resume w = (w, Returned ())
  | Some _ =>
      chunks (this (fst (start w))) = [] /\
      currentChunkIndex (this (fst (start w))) = 0%nat
  end.
Proof.
  split.
  - unfold active, resume, stop, pause.
    destruct (mediaRecorder (this w)); [|auto].
    destruct (isRecording (this w)); auto.
  - destruct (mediaRecorder (this w)) eqn:E.
    + change (c_chunks (core (fst (start w))) = [] /\
              c_index (core (fst (start w))) = 0%nat).
      rewrite core_start, E. auto.
    + unfold start, resume. rewrite E. auto.
Qed.

(** C5 as stated fails: from a recording session holding one chunk,
    [start()] discards the chunk and throws. *)
Lemma C5_counterexample :
  active w_one_chunk = true /\
  chunks (this w_one_chunk) = [new_Blob [fragA] "audio/wav"] /\
  chunks (this (fst (start w_one_chunk))) = [] /\
  snd (start w_one_chunk) = Thrown "InvalidStateError" /\
  fst (start w_one_chunk) <> w_one_chunk.
Proof.
  repeat split; try reflexivity.
  intros H. apply (f_equal (fun w => length (chunks (this w)))) in H.
  vm_compute in H. discriminate.
Qed.

(** ** Claims about recovery *)

Lemma open_at_1 e :
  IDB.open e 1 =
  match IDB.fault e with
  | Some IDB.OpenFails => IDB.OpenError
  | _ =>
      match IDB.database e with
      | None =>
          IDB.OpenSuccess true
            (IDB.onupgradeneeded {| IDB.version := 1; IDB.objectStores := ∅ |})
      | Some d =>
          if (IDB.version d =? 1)%positive then IDB.OpenSuccess false d
          else IDB.OpenError
      end
  end.
Proof.
  unfold IDB.open. destruct (IDB.fault e) as [[]|]; try reflexivity;
    destruct (IDB.database e) as [d|]; try reflexivity;
    destruct (Pos.ltb_spec (IDB.version d) 1); try lia; reflexivity.
Qed.

(** What [checkForRecovery] resolves with, as a function of the store. *)
Lemma checkForRecovery_result e :
  fst (checkForRecovery e) =
  Resolved
    (if store_opens e then
       match stored_recording e with
       | Some ent =>
           match IDB.e_data ent with
           | Some b => {| hasRecovery := true; recording := Some b |}
           | None => noRecovery
           end
       | None => noRecovery
       end
     else noRecovery).
Proof.
  unfold checkForRecovery, store_opens, stored_recording, IDB.open_throws.
  destruct (IDB.indexedDB e) eqn:Ei; [|reflexivity].
  rewrite open_at_1. cbn [negb orb andb].
  destruct (IDB.fault e) as [[]|] eqn:Ef; cbn [andb]; try reflexivity.
  - destruct (IDB.database e) as [d|]; [|reflexivity].
    destruct (IDB.version d =? 1)%positive; [|reflexivity].
    destruct (negb (IDB.contains "recordings" d)); reflexivity.
  - destruct (IDB.database e) as [d|]; [|reflexivity].
    destruct (IDB.version d =? 1)%positive; [|reflexivity].
    destruct (negb (IDB.contains "recordings" d)); reflexivity.
  - destruct (IDB.database e) as [d|] eqn:Ed; [|reflexivity].
    destruct (IDB.version d =? 1)%positive; [|reflexivity].
    unfold IDB.slot, IDB.contains. cbn [IDB.set_database IDB.database]. rewrite Ed.
    destruct (IDB.objectStores d !! "recordings") as [s|] eqn:Es.
    + rewrite bool_decide_eq_true_2 by eauto. cbn [negb fst resolve].
      destruct (s !! "latest_recording") as [ent|]; [|reflexivity].
      destruct (IDB.e_data ent); reflexivity.
    + rewrite bool_decide_eq_false_2 by (intros [? [=]]). reflexivity.
Qed.

(** C6 (amended). [checkForRecovery()] always resolves, and it reports a
    recovery exactly when the store opens and the recording slot holds an
    entry whose [data] is present; the payload it returns is that [data],
    whatever its length, and there is no payload without a recovery. *)
Theorem C6_hasRecovery_iff_data_present (e : IDB.Env) :
  exists r,
    fst (checkForRecovery e) = Resolved r /\
    (hasRecovery r = true <->
     store_opens e = true /\
     exists ent b, stored_recording e = Some ent /\ IDB.e_data ent = Some b) /\
    (forall ent, store_opens e = true -> stored_recording e = Some ent ->
                 recording r = IDB.e_data ent) /\
    (hasRecovery r = false -> recording r = None).
Proof.
  eexists. split; [apply checkForRecovery_result|].
  destruct (store_opens e).
  2:{ simpl. split; [|split; [discriminate|reflexivity]].
      split; [discriminate|]. intros [[=] _]. }
  destruct (stored_recording e) as [ent|].
  2:{ simpl. split; [|split; [discriminate|reflexivity]].
      split; [discriminate|]. intros (_ & ent & b & [=] & _). }
  destruct (IDB.e_data ent) as [b|] eqn:Eb; simpl.
  - split; [|split].
    + split; [|reflexivity]. intros _. split; [reflexivity|]. exists ent, b. auto.
    + intros ent' _ [= <-]. symmetry. exact Eb.
    + discriminate.
  - split; [|split].
    + split; [discriminate|]. intros (_ & ent' & b & [= <-] & Hb). congruence.
    + intros ent' _ [= <-]. symmetry. exact Eb.
    + reflexivity.
Qed.

(** C6 as stated fails: the store reached by a session stopped before any
    audio arrived holds an entry whose payload has no bytes, and
    [checkForRecovery()] reports a recovery. *)
Lemma C6_counterexample :
  exists b,
    fst (checkForRecovery (idb w_empty_recording)) =
      Resolved {| hasRecovery := true; recording := Some b |} /\
    blob_size b = 0%nat.
Proof. exists (mkBlob [] "audio/wav"). split; vm_compute; reflexivity. Qed.

(** ** The recorder does not depend on the store *)

(** Each method and handler commutes with forgetting the store: what it does
    to the recorder and to the rest of the platform is the same whatever the
    store holds, and whether or not the store works. *)


























(** ** Claims about reset *)

Lemma outside_clearChunkTimer w : outside (clearChunkTimer w) = outside w.
Proof. unfold clearChunkTimer. destruct (chunkTimer (this w)); reflexivity. Qed.

Lemma outside_mediaRecorder_stop w : outside (mediaRecorder_stop w) = outside w.
Proof.
  unfold mediaRecorder_stop. destruct (mediaRecorder (this w)) as [m|]; [|reflexivity].
  destruct (snd (mr_stop m)); reflexivity.
Qed.

Lemma outside_completeCurrentChunk w : outside (completeCurrentChunk w) = outside w.
Proof.
  unfold completeCurrentChunk. destruct (audioChunks (this w)); [reflexivity|].
  simpl. destruct (onChunkComplete (options (this w))); reflexivity.
Qed.

Lemma outside_stop w : outside (fst (stop w)) = outside w.
Proof.
  unfold stop. destruct (mediaRecorder (this w)); [|reflexivity].
  destruct (isRecording (this w)); [|reflexivity]. simpl.
  rewrite outside_completeCurrentChunk.
  transitivity (outside (mediaRecorder_stop (clearChunkTimer w))); [reflexivity|].
  rewrite outside_mediaRecorder_stop. apply outside_clearChunkTimer.
Qed.

Lemma not_In_filter_neq (s : nat) (l : list nat) :
  ~ In s (List.filter (fun x => negb (Nat.eqb x s)) l).
Proof.
  intros H. apply filter_In in H as [_ H]. rewrite Nat.eqb_refl in H. discriminate.
Qed.

(** Where [cleanup()] leaves the world. *)
Lemma cleanup_effect w :
  let w' := cleanup w in
  mediaRecorder (this w') = None /\ isRecording (this w') = false /\
  chunks (this w') = [] /\ audioChunks (this w') = [] /\
  currentChunkIndex (this w') = 0%nat /\ mainBlob (this w') = None /\
  chunkTimer (this w') = None /\ mainAudioUrl (this w') = None /\
  stream (this w') = None /\
  idb w' = idb w /\ idbTasks w' = idbTasks w /\
  liveStreams w' =
    match stream (this w) with
    | Some s => List.filter (fun x => negb (Nat.eqb x s)) (liveStreams w)
    | None => liveStreams w
    end.
Proof.
  intros w'. unfold w', cleanup.
  set (w1 := if isRecording (this w) then fst (stop w) else w).
  assert (H1 : outside w1 = outside w).
  { unfold w1. destruct (isRecording (this w)); [apply outside_stop|reflexivity]. }
  set (w2 := clearChunkTimer w1).
  assert (H2 : outside w2 = outside w) by (unfold w2; rewrite outside_clearChunkTimer; exact H1).
  assert (Ht : chunkTimer (this w2) = None) by apply guards_clearChunkTimer.
  unfold outside in H2. injection H2 as Hi Hq Hs Hl.
  destruct (stream (this w2)) as [s|] eqn:Es, (mainAudioUrl (this w2)) as [u|] eqn:Eu;
    simpl; rewrite ?Es, ?Eu, <- ?Hs; simpl; repeat split; auto; congruence.
Qed.



(** ** Claims about the persisted slots *)

Lemma contains_spec name d :
  IDB.contains name d = true <-> is_Some (IDB.objectStores d !! name).
Proof. unfold IDB.contains. apply bool_decide_eq_true. Qed.

Lemma contains_createObjectStore name d :
  IDB.contains name (IDB.createObjectStore name d) = true.
Proof. apply contains_spec. simpl. rewrite lookup_insert_eq. eauto. Qed.

Lemma contains_createObjectStore_mono name name' d :
  IDB.contains name d = true ->
  IDB.contains name (IDB.createObjectStore name' d) = true.
Proof.
  rewrite !contains_spec. simpl. intros [s Hs].
  destruct (decide (name' = name)) as [->|Hne].
  - rewrite lookup_insert_eq. eauto.
  - rewrite lookup_insert_ne by exact Hne. eauto.
Qed.

Lemma contains_onupgradeneeded d :
  IDB.contains "chunks" (IDB.onupgradeneeded d) = true /\
  IDB.contains "recordings" (IDB.onupgradeneeded d) = true.
Proof.
  unfold IDB.onupgradeneeded.
  destruct (IDB.contains "chunks" d) eqn:E1.
  - destruct (IDB.contains "recordings" d) eqn:E2; split; auto.
    + apply contains_createObjectStore_mono. exact E1.
    + apply contains_createObjectStore.
  - set (d1 := IDB.createObjectStore "chunks" d).
    assert (H1 : IDB.contains "chunks" d1 = true) by apply contains_createObjectStore.
    destruct (IDB.contains "recordings" d1) eqn:E2; split; auto.
    + apply contains_createObjectStore_mono. exact H1.
    + apply contains_createObjectStore.
Qed.

(** Clear-then-put leaves exactly the new entry in the store. *)
Lemma slot_replace_slot name entry e d :
  IDB.fault e = None ->
  IDB.slot name (IDB.replace_slot name entry e d) = Some {[ IDB.e_id entry := entry ]}.
Proof.
  intros Hf. unfold IDB.replace_slot. rewrite Hf.
  unfold IDB.slot, IDB.put, IDB.clear. simpl.
  rewrite lookup_insert_eq. simpl. rewrite lookup_insert_eq, insert_empty. reflexivity.
Qed.

Lemma save_request_completes name entry e :
  name = "chunks" \/ name = "recordings" ->
  write_completes name e = true ->
  IDB.slot name (fst (save_request name entry e)) = Some {[ IDB.e_id entry := entry ]}.
Proof.
  intros Hn Hw. unfold write_completes in Hw.
  apply andb_true_iff in Hw as [Hw Hd]. apply andb_true_iff in Hw as [_ Hf].
  assert (Hf' : IDB.fault e = None) by (destruct (IDB.fault e); [discriminate|reflexivity]).
  unfold save_request. rewrite open_at_1, Hf'.
  destruct (IDB.database e) as [d|].
  - apply andb_true_iff in Hd as [Hv Hc]. rewrite Hv.
    unfold save_onsuccess. rewrite Hc. simpl. apply slot_replace_slot. exact Hf'.
  - unfold save_onsuccess.
    destruct (contains_onupgradeneeded {| IDB.version := 1; IDB.objectStores := ∅ |})
      as [Hc Hr].
    destruct Hn as [-> | ->]; [rewrite Hc|rewrite Hr]; simpl;
      apply slot_replace_slot; exact Hf'.
Qed.

Lemma at_most_one_createObjectStore name d :
  at_most_one_db d -> at_most_one_db (IDB.createObjectStore name d).
Proof.
  intros H n s. simpl. destruct (decide (name = n)) as [->|Hne].
  - rewrite lookup_insert_eq. intros [= <-]. rewrite map_size_empty. lia.
  - rewrite lookup_insert_ne by exact Hne. apply H.
Qed.

Lemma at_most_one_onupgradeneeded d :
  at_most_one_db d -> at_most_one_db (IDB.onupgradeneeded d).
Proof.
  intros H. unfold IDB.onupgradeneeded.
  destruct (IDB.contains "chunks" d);
    match goal with |- context [IDB.contains "recordings" ?x] =>
      destruct (IDB.contains "recordings" x) end;
    auto using at_most_one_createObjectStore.
Qed.

Lemma at_most_one_replace name entry d :
  at_most_one_db d -> at_most_one_db (IDB.put name entry (IDB.clear name d)).
Proof.
  intros H n s. unfold IDB.put, IDB.clear. simpl. rewrite lookup_insert_eq. simpl.
  destruct (decide (name = n)) as [->|Hne].
  - rewrite lookup_insert_eq. intros [= <-].
    rewrite insert_empty, map_size_singleton. lia.
  - rewrite !lookup_insert_ne by exact Hne. apply H.
Qed.

Lemma at_most_one_open e v b d :
  at_most_one e -> IDB.open e v = IDB.OpenSuccess b d -> at_most_one_db d.
Proof.
  unfold at_most_one, IDB.open. intros H.
  destruct (IDB.fault e) as [[]|]; try discriminate;
    (destruct (IDB.database e) as [d0|];
     [ destruct (IDB.version d0 <? v)%positive;
       [ intros [= _ <-]; apply at_most_one_onupgradeneeded; exact H
       | destruct (IDB.version d0 =? v)%positive; [intros [= _ <-]; exact H|discriminate] ]
     | intros [= _ <-]; apply at_most_one_onupgradeneeded;
       intros n s; simpl; rewrite lookup_empty; discriminate ]).
Qed.

Lemma at_most_one_save_request name entry e :
  at_most_one e -> at_most_one (fst (save_request name entry e)).
Proof.
  intros H. unfold save_request.
  destruct (IDB.open e 1) as [|b d] eqn:Eo; [exact H|].
  pose proof (at_most_one_open _ _ _ _ H Eo) as Hd.
  unfold save_onsuccess. destruct (IDB.contains name d).
  - unfold IDB.replace_slot.
    destruct (IDB.fault e) as [[]|]; simpl; unfold at_most_one; simpl;
      auto using at_most_one_replace.
  - destruct (IDB.open (IDB.set_database d e) (IDB.version d + 1)) as [|b' d'] eqn:Eo';
      simpl; unfold at_most_one; simpl; [exact Hd|].
    exact (at_most_one_open (IDB.set_database d e) _ _ _ Hd Eo').
Qed.

Lemma idb_indexedDB_task w t rest :
  idbTasks w = t :: rest ->
  idb (indexedDB_task w) = fst (save_request (task_store t) (task_entry t w) (idb w)).
Proof.
  intros Ht. unfold indexedDB_task. rewrite Ht. destruct t as [chunk|]; simpl.
  - destruct (snd _); [|reflexivity].
    unfold saveChunkToStorage. destruct (IDB.open_throws _); reflexivity.
  - destruct (snd _); [|reflexivity].
    unfold saveCompleteRecordingToStorage. simpl.
    destruct (mainBlob (this w)); [|reflexivity].
    destruct (IDB.open_throws _); reflexivity.
Qed.

(** C8. When a save request is processed, the entry it writes has the slot's
    fixed id; if the write goes through, the slot's store then holds that
    entry and nothing else, whatever it held before (clear, then insert:
    the last write wins); and in every case a store that held at most one
    entry still holds at most one. *)
Theorem C8_put_replaces_slot (w : World) (t : IDBTask) (rest : list IDBTask) :
  idbTasks w = t :: rest ->
  let w' := indexedDB_task w in
  IDB.e_id (task_entry t w) =
    match t with SaveChunk _ => "latest_chunk" | SaveRecording => "latest_recording" end /\
  (if write_completes (task_store t) (idb w)
   then IDB.slot (task_store t) (idb w') =
        Some {[ IDB.e_id (task_entry t w) := task_entry t w ]}
   else True) /\
  (at_most_one (idb w) -> at_most_one (idb w')).
Proof.
  intros Ht w'. unfold w'. rewrite (idb_indexedDB_task _ _ _ Ht).
  split; [destruct t; reflexivity|]. split.
  - destruct (write_completes (task_store t) (idb w)) eqn:Ew; [|exact I].
    apply save_request_completes; [|exact Ew]. destruct t; auto.
  - apply at_most_one_save_request.
Qed.

(** C8 at a concrete write: the first chunk save of the example session,
    processed while the database does not exist yet. *)
Lemma C8_witness :
  idbTasks w_save_pending = [SaveChunk fragA; SaveRecording] /\
  IDB.slot "chunks" (idb (indexedDB_task w_save_pending)) =
    Some {[ "latest_chunk" := chunkEntry (this w_save_pending) (now w_save_pending) fragA ]}.
Proof.
  assert (Ht : idbTasks w_save_pending = [SaveChunk fragA; SaveRecording]) by reflexivity.
  destruct (C8_put_replaces_slot w_save_pending _ _ Ht) as (_ & Hs & _).
  split; [exact Ht|]. exact Hs.
Defined.

(** * Further coverage: lemmas and theorems *)

(** ** Invariants over every run *)

Lemma core_run_invariant (P : Core -> Prop) :
  (forall c, P c -> P (complete_c c)) ->
  (forall d c, P c -> P (main_c (push_c d c))) ->
  (forall c, P c -> P (start_c c)) ->
  (forall c, P c -> P (cleanup_c c)) ->
  forall evs w, P (core w) -> P (core (run evs w)).
Proof.
  intros Hc Ht Hs Hx evs w Hw.
  apply (run_invariant (fun w => P (core w)) (fun _ => true)); [|induction evs; auto|exact Hw].
  intros w' ev _ Hw'. rewrite step_core.
  destruct ev; simpl; auto.
  - destruct (mediaRecorder (this w')); auto.
  - destruct (active w'); auto.
  - destruct (active w'); auto.
  - destruct (active w'); auto.
  - destruct (timeouts w'); auto.
  - destruct (mrTasks w'); auto.
Qed.

Lemma blob_size_new_Blob parts ty :
  blob_size (new_Blob parts ty) = length (concat (map blob_bytes parts)).
Proof. reflexivity. Qed.

Lemma nonempty_complete c : nonempty_c c -> nonempty_c (complete_c c).
Proof.
  unfold nonempty_c, complete_c. intros [Hb Hc].
  destruct (c_buffer c) as [|x l] eqn:E; [rewrite E; auto|]. simpl.
  split; [exact Hb|]. apply Forall_app. split; [exact Hc|].
  constructor; [|constructor].
  rewrite blob_size_new_Blob. simpl. rewrite length_app.
  apply Forall_inv in Hb. unfold blob_size in Hb. lia.
Qed.

Lemma nonempty_task d c : nonempty_c c -> nonempty_c (main_c (push_c d c)).
Proof.
  unfold nonempty_c, push_c. intros [Hb Hc].
  destruct (0 <? blob_size d)%nat eqn:E; simpl; [|auto].
  split; [|exact Hc]. apply Forall_app. split; [exact Hb|].
  constructor; [|constructor]. apply Nat.ltb_lt. exact E.
Qed.

(** X1. Along every run from a new recorder, no fragment in the buffer and
    no chunk is empty: [ondataavailable] drops fragments of size 0, and a
    chunk is only built from a non-empty buffer. *)
Theorem chunks_are_never_empty
    (opts : ChunkedRecorderOptions) (t : Z) (e : IDB.Env) (evs : list Event) :
  let w := run evs (new_World opts t e) in
  Forall (fun b => (0 < blob_size b)%nat) (audioChunks (this w)) /\
  Forall (fun b => (0 < blob_size b)%nat) (chunks (this w)).
Proof.
  intros w. change (nonempty_c (core w)).
  apply core_run_invariant; auto using nonempty_complete, nonempty_task.
  - intros c _. split; constructor.
  - intros c _. split; constructor.
  - split; constructor.
Qed.

Lemma chained_complete c : chained_c c -> chained_c (complete_c c).
Proof.
  unfold chained_c, complete_c. intros [Hp Hb].
  destruct (c_buffer c) as [|x l] eqn:E; [rewrite E; auto|].
  rewrite <- E in Hb |- *. cbn [c_chunks c_buffer]. split.
  - intros i j b1 b2 Hij H1 H2.
    destruct (decide (j < length (c_chunks c))%nat) as [Hj|Hj].
    + rewrite lookup_app_l in H1, H2 by lia. eauto.
    + rewrite lookup_app_r in H2 by lia.
      assert (Hb2 : b2 = new_Blob (c_buffer c) "audio/wav").
      { destruct (j - length (c_chunks c))%nat as [|n]; simpl in H2; [congruence|].
        rewrite lookup_nil in H2. discriminate. }
      subst b2. simpl.
      destruct (decide (i < length (c_chunks c))%nat) as [Hi|Hi].
      * rewrite lookup_app_l in H1 by lia.
        eapply Forall_forall in Hb; [exact Hb|].
        eapply list_elem_of_lookup_2. exact H1.
      * rewrite lookup_app_r in H1 by lia.
        destruct (i - length (c_chunks c))%nat as [|n]; simpl in H1.
        -- injection H1 as <-. reflexivity.
        -- rewrite lookup_nil in H1. discriminate.
  - apply Forall_app. split; [exact Hb|]. constructor; [reflexivity|constructor].
Qed.

Lemma chained_task d c : chained_c c -> chained_c (main_c (push_c d c)).
Proof.
  unfold chained_c, push_c. intros [Hp Hb].
  destruct (0 <? blob_size d)%nat; simpl; [|auto].
  split; [exact Hp|]. eapply Forall_impl; [exact Hb|].
  intros b H. simpl in H. rewrite map_app, concat_app.
  etransitivity; [exact H|]. apply prefix_app_r. reflexivity.
Qed.

(** X2. Along every run from a new recorder, the chunks form a chain: the
    bytes of each chunk are a prefix of the bytes of every later chunk, and
    of the bytes of the fragment buffer. *)
Theorem chunks_extend_one_another
    (opts : ChunkedRecorderOptions) (t : Z) (e : IDB.Env) (evs : list Event) :
  let w := run evs (new_World opts t e) in
  (forall i j b1 b2, (i <= j)%nat ->
     chunks (this w) !! i = Some b1 -> chunks (this w) !! j = Some b2 ->
     blob_bytes b1 `prefix_of` blob_bytes b2) /\
  Forall (fun b => blob_bytes b `prefix_of`
                   concat (map blob_bytes (audioChunks (this w))))
         (chunks (this w)).
Proof.
  intros w. change (chained_c (core w)).
  apply core_run_invariant; auto using chained_complete, chained_task.
  - intros c _. split; [|constructor]. intros i j b1 b2 _ H. simpl in H.
    rewrite lookup_nil in H. discriminate.
  - intros c _. split; [|constructor]. intros i j b1 b2 _ H. simpl in H.
    rewrite lookup_nil in H. discriminate.
  - split; [|constructor]. intros i j b1 b2 _ H. simpl in H.
    rewrite lookup_nil in H. discriminate.
Qed.

(** ** Timers, object URLs and the clock *)

Lemma quiet_mediaRecorder_stop w :
  timer_view (mediaRecorder_stop w) = timer_view w /\
  url_view (mediaRecorder_stop w) = url_view w /\
  clock_view (mediaRecorder_stop w) = clock_view w.
Proof.
  unfold mediaRecorder_stop. destruct (mediaRecorder (this w)) as [m|]; [|auto].
  destruct (snd (mr_stop m)); auto.
Qed.

Lemma quiet_mediaRecorder_start w w' :
  mediaRecorder_start w = Some w' ->
  timer_view w' = timer_view w /\ url_view w' = url_view w /\
  clock_view w' = clock_view w.
Proof.
  unfold mediaRecorder_start. destruct (mediaRecorder (this w)) as [m|]; [|discriminate].
  destruct (mr_start m); [|discriminate]. intros [= <-]. auto.
Qed.

Lemma quiet_completeCurrentChunk w :
  timer_view (completeCurrentChunk w) = timer_view w /\
  url_view (completeCurrentChunk w) = url_view w /\
  clock_view (completeCurrentChunk w) = clock_view w.
Proof.
  unfold completeCurrentChunk. destruct (audioChunks (this w)); [auto|].
  simpl. destruct (onChunkComplete (options (this w))); auto.
Qed.

Lemma quiet_saveChunkToStorage d w :
  timer_view (saveChunkToStorage d w) = timer_view w /\
  url_view (saveChunkToStorage d w) = url_view w /\
  clock_view (saveChunkToStorage d w) = clock_view w.
Proof. unfold saveChunkToStorage. destruct (IDB.open_throws _); auto. Qed.

Lemma quiet_saveCompleteRecordingToStorage w :
  timer_view (saveCompleteRecordingToStorage w) = timer_view w /\
  url_view (saveCompleteRecordingToStorage w) = url_view w /\
  clock_view (saveCompleteRecordingToStorage w) = clock_view w.
Proof.
  unfold saveCompleteRecordingToStorage. destruct (mainBlob _); [|auto].
  destruct (IDB.open_throws _); auto.
Qed.

Lemma quiet_indexedDB_task w :
  timer_view (indexedDB_task w) = timer_view w /\
  url_view (indexedDB_task w) = url_view w /\
  clock_view (indexedDB_task w) = clock_view w.
Proof.
  unfold indexedDB_task. destruct (idbTasks w) as [|[c|] rest]; [auto| |].
  - destruct (snd _); [|auto].
    match goal with |- context [saveChunkToStorage c ?x] =>
      exact (quiet_saveChunkToStorage c x) end.
  - destruct (snd _); [|auto].
    match goal with |- context [saveCompleteRecordingToStorage ?x] =>
      exact (quiet_saveCompleteRecordingToStorage x) end.
Qed.

Lemma quiet_ondataavailable d w :
  timer_view (ondataavailable d w) = timer_view w /\
  url_view (ondataavailable d w) = url_view w /\
  clock_view (ondataavailable d w) = clock_view w.
Proof.
  unfold ondataavailable. destruct (0 <? blob_size d)%nat; [|auto].
  match goal with |- context [saveChunkToStorage d ?x] =>
    exact (quiet_saveChunkToStorage d x) end.
Qed.

Lemma views_clearChunkTimer w :
  url_view (clearChunkTimer w) = url_view w /\
  clock_view (clearChunkTimer w) = clock_view w.
Proof. unfold clearChunkTimer. destruct (chunkTimer (this w)); auto. Qed.

Lemma views_startChunkTimer w :
  url_view (startChunkTimer w) = url_view w /\
  clock_view (startChunkTimer w) = clock_view w.
Proof. unfold startChunkTimer. simpl. apply views_clearChunkTimer. Qed.

Lemma views_onstop w :
  timer_view (onstop w) = timer_view w /\ clock_view (onstop w) = clock_view w.
Proof.
  unfold onstop. simpl.
  match goal with |- context [saveCompleteRecordingToStorage ?x] =>
    destruct (quiet_saveCompleteRecordingToStorage x) as (-> & _ & ->) end.
  destruct (mainAudioUrl (this w)); auto.
Qed.

(** Clearing the timer disarms it. *)
Lemma timer_cleared w :
  one_timer (timer_view w) -> timer_view (clearChunkTimer w) = ([], None).
Proof.
  unfold one_timer, timer_view, clearChunkTimer, clearTimeout. simpl.
  destruct (chunkTimer (this w)) as [t|] eqn:Et; simpl.
  - destruct (timeouts w) as [|t' [|]] eqn:E; simpl; [reflexivity| |tauto].
    intros [= ->]. rewrite Nat.eqb_refl. reflexivity.
  - rewrite Et. destruct (timeouts w) as [|t' [|]]; [reflexivity|discriminate|tauto].
Qed.

Lemma timer_armed w :
  one_timer (timer_view w) ->
  exists t, timer_view (startChunkTimer w) = ([t], Some t).
Proof.
  intros H. apply timer_cleared in H. unfold timer_view in H. injection H as H1 H2.
  unfold startChunkTimer, setTimeout. simpl. rewrite H1. eauto.
Qed.

Lemma one_timer_start w :
  one_timer (timer_view w) -> one_timer (timer_view (fst (start w))).
Proof.
  intros H. unfold start. destruct (mediaRecorder (this w)); [|exact H].
  match goal with |- context [mediaRecorder_start ?x] =>
    destruct (mediaRecorder_start x) as [w2|] eqn:F end; simpl; [|exact H].
  destruct (quiet_mediaRecorder_start _ _ F) as (Ht & _).
  destruct (timer_armed w2) as [t ->]; [rewrite Ht; exact H|reflexivity].
Qed.

Lemma one_timer_resume w :
  one_timer (timer_view w) -> one_timer (timer_view (fst (resume w))).
Proof.
  intros H. unfold resume. destruct (mediaRecorder (this w)); [|exact H].
  destruct (isRecording (this w)); [exact H|].
  match goal with |- context [mediaRecorder_start ?x] =>
    destruct (mediaRecorder_start x) as [w2|] eqn:F end; simpl; [|exact H].
  destruct (quiet_mediaRecorder_start _ _ F) as (Ht & _).
  destruct (timer_armed w2) as [t ->]; [rewrite Ht; exact H|reflexivity].
Qed.

Lemma timer_stop w :
  one_timer (timer_view w) ->
  timer_view (fst (stop w)) = if active w then ([], None) else timer_view w.
Proof.
  intros H. unfold stop, active. destruct (mediaRecorder (this w)); [|reflexivity].
  destruct (isRecording (this w)); [|reflexivity]. simpl.
  destruct (quiet_completeCurrentChunk
              (upd (set_isRecording false) (mediaRecorder_stop (clearChunkTimer w))))
    as (-> & _).
  change (timer_view (mediaRecorder_stop (clearChunkTimer w)) = ([], None)).
  destruct (quiet_mediaRecorder_stop (clearChunkTimer w)) as (-> & _).
  apply timer_cleared. exact H.
Qed.

Lemma timer_pause w :
  one_timer (timer_view w) ->
  timer_view (fst (pause w)) = if active w then ([], None) else timer_view w.
Proof.
  intros H. unfold pause, active. destruct (mediaRecorder (this w)); [|reflexivity].
  destruct (isRecording (this w)); [|reflexivity]. simpl.
  destruct (quiet_completeCurrentChunk (mediaRecorder_stop (clearChunkTimer w)))
    as (-> & _).
  destruct (quiet_mediaRecorder_stop (clearChunkTimer w)) as (-> & _).
  apply timer_cleared. exact H.
Qed.

Lemma timer_cleanup w :
  one_timer (timer_view w) -> timer_view (cleanup w) = ([], None).
Proof.
  intros H. unfold cleanup.
  set (w1 := if isRecording (this w) then fst (stop w) else w).
  assert (H1 : one_timer (timer_view w1)).
  { unfold w1. destruct (isRecording (this w)); [|exact H].
    rewrite (timer_stop _ H). destruct (active w); [exact I|exact H]. }
  pose proof (timer_cleared _ H1) as H2. set (w2 := clearChunkTimer w1) in *.
  unfold timer_view in H2. injection H2 as Ha Hb.
  destruct (stream (this w2)), (mainAudioUrl (this w2)) eqn:E; simpl;
    rewrite ?E; unfold timer_view; simpl; rewrite ?Ha, ?Hb; reflexivity.
Qed.

Lemma one_timer_callback w :
  timeouts w = [] -> one_timer (timer_view (chunkTimer_callback w)).
Proof.
  intros H0. unfold chunkTimer_callback.
  set (w1 := completeCurrentChunk w).
  assert (H1 : timer_view w1 = timer_view w) by apply quiet_completeCurrentChunk.
  assert (Hok : one_timer (timer_view w1)).
  { rewrite H1. unfold one_timer, timer_view. simpl. rewrite H0. exact I. }
  destruct (mediaRecorder (this w1)); [|exact Hok].
  destruct (isRecording (this w1)); [|exact Hok].
  match goal with |- context [mediaRecorder_start ?x] =>
    destruct (mediaRecorder_start x) as [w4|] eqn:F end.
  - destruct (quiet_mediaRecorder_start _ _ F) as (Ht & _).
    destruct (timer_armed w4) as [t ->]; [|reflexivity].
    rewrite Ht.
    change (one_timer (timer_view (mediaRecorder_stop w1))).
    destruct (quiet_mediaRecorder_stop w1) as (-> & _). exact Hok.
  - change (one_timer (timer_view (mediaRecorder_stop w1))).
    destruct (quiet_mediaRecorder_stop w1) as (-> & _). exact Hok.
Qed.

Lemma one_timer_step w ev :
  one_timer (timer_view w) -> one_timer (timer_view (step w ev)).
Proof.
  intros H. destruct ev; simpl.
  - unfold initialize. destruct granted; exact H.
  - apply one_timer_start, H.
  - rewrite (timer_stop _ H). destruct (active w); [exact I|exact H].
  - rewrite (timer_pause _ H). destruct (active w); [exact I|exact H].
  - apply one_timer_resume, H.
  - rewrite (timer_cleanup _ H). exact I.
  - exact H.
  - exact H.
  - unfold timer_fires. destruct (timeouts w) as [|t [|]] eqn:E; [exact H| |].
    + apply one_timer_callback. reflexivity.
    + unfold one_timer, timer_view in H. simpl in H. rewrite E in H. tauto.
  - unfold mediaRecorder_task. destruct (mrTasks w) as [|n]; [exact H|].
    destruct (views_onstop (ondataavailable data (set_mrTasks n w))) as (-> & _).
    destruct (quiet_ondataavailable data (set_mrTasks n w)) as (-> & _). exact H.
  - destruct (quiet_indexedDB_task w) as (-> & _). exact H.
  - exact H.
Qed.

(** X3. Along every run from a new recorder at most one chunk timeout is
    armed, and it is the one [chunkTimer] holds; an accepted [stop()] or
    [pause()], and every [cleanup()], leave no timeout armed. *)
Theorem at_most_one_timer_is_armed
    (opts : ChunkedRecorderOptions) (t : Z) (e : IDB.Env) (evs : list Event) :
  let w := run evs (new_World opts t e) in
  one_timer (timer_view w) /\
  (if active w
   then timeouts (fst (stop w)) = [] /\ timeouts (fst (pause w)) = []
   else True) /\
  timeouts (cleanup w) = [].
Proof.
  intros w.
  assert (H : one_timer (timer_view w)).
  { apply (run_invariant (fun w => one_timer (timer_view w)) (fun _ => true)).
    - intros w' ev _. apply one_timer_step.
    - induction evs; auto.
    - exact I. }
  split; [exact H|]. split.
  - pose proof (timer_stop _ H) as Hs. pose proof (timer_pause _ H) as Hp.
    destruct (active w); [|exact I].
    unfold timer_view in Hs, Hp. injection Hs as Hs _. injection Hp as Hp _. auto.
  - pose proof (timer_cleanup _ H) as Hc. unfold timer_view in Hc.
    injection Hc as Hc _. exact Hc.
Qed.

Lemma views_start w :
  url_view (fst (start w)) = url_view w /\
  clock_view (fst (start w)) =
    match mediaRecorder (this w) with
    | Some _ => (true, now w, now w)
    | None => clock_view w
    end.
Proof.
  unfold start. destruct (mediaRecorder (this w)); [|auto].
  match goal with |- context [mediaRecorder_start ?x] =>
    destruct (mediaRecorder_start x) as [w2|] eqn:F end; simpl; [|auto].
  destruct (quiet_mediaRecorder_start _ _ F) as (_ & Hu & Hc).
  destruct (views_startChunkTimer w2) as (-> & ->). rewrite Hu, Hc. auto.
Qed.

Lemma views_stop w :
  url_view (fst (stop w)) = url_view w /\
  clock_view (fst (stop w)) =
    if active w then (false, recordingStartTime (this w), now w) else clock_view w.
Proof.
  unfold stop, active. destruct (mediaRecorder (this w)); [|auto].
  destruct (isRecording (this w)) eqn:E; [|auto]. simpl.
  destruct (quiet_completeCurrentChunk
              (upd (set_isRecording false) (mediaRecorder_stop (clearChunkTimer w))))
    as (_ & -> & ->).
  destruct (quiet_mediaRecorder_stop (clearChunkTimer w)) as (_ & Hu & Hc).
  destruct (views_clearChunkTimer w) as (Hu' & Hc').
  split.
  - change (url_view (mediaRecorder_stop (clearChunkTimer w)) = url_view w).
    congruence.
  - unfold clock_view in *. simpl. injection Hc as _ H2 H3. injection Hc' as _ H5 H6.
    congruence.
Qed.

Lemma views_pause w :
  url_view (fst (pause w)) = url_view w /\ clock_view (fst (pause w)) = clock_view w.
Proof.
  unfold pause. destruct (mediaRecorder (this w)); [|auto].
  destruct (isRecording (this w)); [|auto]. simpl.
  destruct (quiet_completeCurrentChunk (mediaRecorder_stop (clearChunkTimer w)))
    as (_ & -> & ->).
  destruct (quiet_mediaRecorder_stop (clearChunkTimer w)) as (_ & -> & ->).
  apply views_clearChunkTimer.
Qed.

Lemma views_resume w :
  url_view (fst (resume w)) = url_view w /\ clock_view (fst (resume w)) = clock_view w.
Proof.
  unfold resume. destruct (mediaRecorder (this w)); [|auto].
  destruct (isRecording (this w)); [auto|].
  match goal with |- context [mediaRecorder_start ?x] =>
    destruct (mediaRecorder_start x) as [w2|] eqn:F end; simpl; [|auto].
  destruct (quiet_mediaRecorder_start _ _ F) as (_ & Hu & Hc).
  destruct (views_startChunkTimer w2) as (-> & ->). rewrite Hu, Hc. auto.
Qed.

Lemma views_chunkTimer_callback w :
  url_view (chunkTimer_callback w) = url_view w /\
  clock_view (chunkTimer_callback w) = clock_view w.
Proof.
  unfold chunkTimer_callback. set (w1 := completeCurrentChunk w).
  destruct (quiet_completeCurrentChunk w) as (_ & Hu1 & Hc1). fold w1 in Hu1, Hc1.
  rewrite <- Hu1, <- Hc1.
  destruct (mediaRecorder (this w1)); [|auto].
  destruct (isRecording (this w1)); [|auto].
  destruct (quiet_mediaRecorder_stop w1) as (_ & Hu2 & Hc2).
  match goal with |- context [mediaRecorder_start ?x] =>
    destruct (mediaRecorder_start x) as [w4|] eqn:F end.
  - destruct (quiet_mediaRecorder_start _ _ F) as (_ & Hu & Hc).
    destruct (views_startChunkTimer w4) as (-> & ->). rewrite Hu, Hc.
    split; [exact Hu2|exact Hc2].
  - split; [exact Hu2|exact Hc2].
Qed.

(** [onstop] replaces the live URL by a fresh one. *)
Lemma url_onstop w :
  one_url (url_view w) -> exists u, url_view (onstop w) = ([u], Some u).
Proof.
  unfold one_url, url_view. simpl. intros H. unfold onstop. simpl.
  match goal with |- context [saveCompleteRecordingToStorage ?x] =>
    destruct (quiet_saveCompleteRecordingToStorage x) as (_ & Hu & _) end.
  unfold url_view in Hu. rewrite Hu. clear Hu.
  destruct (mainAudioUrl (this w)) as [u|]; simpl; rewrite H; simpl;
    rewrite ?Nat.eqb_refl; simpl; eauto.
Qed.

Lemma url_cleanup w : one_url (url_view w) -> url_view (cleanup w) = ([], None).
Proof.
  intros H. unfold cleanup.
  set (w1 := if isRecording (this w) then fst (stop w) else w).
  assert (H1 : url_view w1 = url_view w).
  { unfold w1. destruct (isRecording (this w)); [apply views_stop|reflexivity]. }
  set (w2 := clearChunkTimer w1).
  assert (H2 : url_view w2 = url_view w)
    by (unfold w2; rewrite <- H1; apply views_clearChunkTimer).
  unfold one_url in H. rewrite <- H2 in H. unfold url_view in H. simpl in H.
  destruct (stream (this w2)), (mainAudioUrl (this w2)) as [u|] eqn:E; simpl;
    rewrite ?E; unfold url_view; simpl; rewrite ?E, H; simpl;
    rewrite ?Nat.eqb_refl; reflexivity.
Qed.

Lemma one_url_step w ev : one_url (url_view w) -> one_url (url_view (step w ev)).
Proof.
  intros H. destruct ev; simpl.
  - unfold initialize. destruct granted; exact H.
  - destruct (views_start w) as (-> & _). exact H.
  - destruct (views_stop w) as (-> & _). exact H.
  - destruct (views_pause w) as (-> & _). exact H.
  - destruct (views_resume w) as (-> & _). exact H.
  - rewrite (url_cleanup _ H). reflexivity.
  - exact H.
  - exact H.
  - unfold timer_fires. destruct (timeouts w) as [|t rest]; [exact H|].
    destruct (views_chunkTimer_callback (set_timeouts rest w)) as (-> & _). exact H.
  - unfold mediaRecorder_task. destruct (mrTasks w) as [|n]; [exact H|].
    destruct (url_onstop (ondataavailable data (set_mrTasks n w))) as [u ->];
      [|reflexivity].
    destruct (quiet_ondataavailable data (set_mrTasks n w)) as (_ & -> & _). exact H.
  - destruct (quiet_indexedDB_task w) as (_ & -> & _). exact H.
  - exact H.
Qed.

(** X4. Along every run from a new recorder the recorder keeps at most one
    object URL alive, the one in [mainAudioUrl]: [onstop] revokes the
    previous URL before creating the next, and [cleanup()] revokes the last
    one. *)
Theorem object_urls_do_not_leak
    (opts : ChunkedRecorderOptions) (t : Z) (e : IDB.Env) (evs : list Event) :
  let w := run evs (new_World opts t e) in
  objectUrls w =
    match mainAudioUrl (this w) with
    | Some u => [u]
    | None => []
    end /\
  objectUrls (cleanup w) = [].
Proof.
  intros w.
  assert (H : one_url (url_view w)).
  { apply (run_invariant (fun w => one_url (url_view w)) (fun _ => true)).
    - intros w' ev _. apply one_url_step.
    - induction evs; auto.
    - reflexivity. }
  split; [exact H|].
  pose proof (url_cleanup _ H) as Hc. unfold url_view in Hc. injection Hc as Hc _.
  exact Hc.
Qed.

Lemma started_in_past_step w ev :
  started_in_past (clock_view w) -> started_in_past (clock_view (step w ev)).
Proof.
  intros H. destruct ev; cbn [step].
  - unfold initialize. destruct granted; exact H.
  - destruct (views_start w) as (_ & ->).
    destruct (mediaRecorder (this w)); [simpl; lia|exact H].
  - destruct (views_stop w) as (_ & ->). destruct (active w); [exact I|exact H].
  - destruct (views_pause w) as (_ & ->). exact H.
  - destruct (views_resume w) as (_ & ->). exact H.
  - exact I.
  - exact H.
  - exact H.
  - unfold timer_fires. destruct (timeouts w) as [|t rest]; [exact H|].
    destruct (views_chunkTimer_callback (set_timeouts rest w)) as (_ & ->). exact H.
  - unfold mediaRecorder_task. destruct (mrTasks w) as [|n]; [exact H|].
    destruct (views_onstop (ondataavailable data (set_mrTasks n w))) as (_ & ->).
    destruct (quiet_ondataavailable data (set_mrTasks n w)) as (_ & _ & ->). exact H.
  - destruct (quiet_indexedDB_task w) as (_ & _ & ->). exact H.
  - unfold started_in_past, clock_view in *. simpl.
    destruct (isRecording (this w)); [lia|exact I].
Qed.

(** X5. Along every run from a new recorder [getState().totalDuration] is
    never negative.  It is 0 once a [stop()] was accepted, so the length of
    the finished recording cannot be read from it; and [pause()] does not
    stop the count: the time spent paused is part of the duration. *)
Theorem getState_totalDuration
    (opts : ChunkedRecorderOptions) (t : Z) (e : IDB.Env) (evs : list Event)
    (ms : nat) :
  let w := run evs (new_World opts t e) in
  0 <= st_totalDuration (getState w) /\
  (if active w then
     st_totalDuration (getState (fst (stop w))) = 0 /\
     st_totalDuration (getState (step (fst (pause w)) (Tick ms))) =
       st_totalDuration (getState w) + Z.of_nat ms
   else st_totalDuration (getState (fst (stop w))) = st_totalDuration (getState w)).
Proof.
  intros w.
  assert (H : started_in_past (clock_view w)).
  { apply (run_invariant (fun w => started_in_past (clock_view w)) (fun _ => true)).
    - intros w' ev _. apply started_in_past_step.
    - induction evs; auto.
    - exact I. }
  assert (Hd : forall v, st_totalDuration (getState v) =
            match clock_view v with (true, t0, t1) => t1 - t0 | (false, _, _) => 0 end).
  { intros v. unfold getState, clock_view. simpl. destruct (isRecording (this v)); reflexivity. }
  split.
  - rewrite Hd. unfold started_in_past in H. destruct (clock_view w) as [[[] t0] t1]; lia.
  - destruct (views_stop w) as (_ & Hs). destruct (views_pause w) as (_ & Hp).
    assert (Ha : active w = true -> isRecording (this w) = true).
    { unfold active. destruct (mediaRecorder (this w)); [auto|discriminate]. }
    destruct (active w).
    + split; [rewrite Hd, Hs; reflexivity|].
      rewrite !Hd. unfold clock_view in Hp |- *. simpl. injection Hp as -> -> ->.
      rewrite (Ha eq_refl). lia.
    + rewrite !Hd, Hs. reflexivity.
Qed.

(** ** How the methods compose *)

Lemma stop_rejected w : active w = false -> stop w = (w, Returned None).
Proof.
  unfold active, stop. destruct (mediaRecorder (this w)); [|reflexivity].
  intros ->. reflexivity.
Qed.

Lemma pause_rejected w : active w = false -> pause w = (w, Returned ()).
Proof.
  unfold active, pause. destruct (mediaRecorder (this w)); [|reflexivity].
  intros ->. reflexivity.
Qed.

Lemma isRecording_clock w : isRecording (this w) = fst (fst (clock_view w)).
Proof. reflexivity. Qed.

Lemma active_after_stop w : active (fst (stop w)) = false.
Proof.
  destruct (active w) eqn:Ha.
  - unfold active. destruct (mediaRecorder (this (fst (stop w)))); [|reflexivity].
    rewrite isRecording_clock. destruct (views_stop w) as (_ & ->). rewrite Ha. reflexivity.
  - rewrite (stop_rejected _ Ha). exact Ha.
Qed.

(** X6. [stop()] is idempotent: a second [stop()] right after the first is
    rejected, returns null and changes nothing (no second finalization, no
    index change, no further save request). *)
Theorem stop_twice_changes_nothing (w : World) :
  stop (fst (stop w)) = (fst (stop w), Returned None).
Proof. apply stop_rejected, active_after_stop. Qed.

Lemma cleanup_of_clean v :
  mediaRecorder (this v) = None -> isRecording (this v) = false ->
  chunks (this v) = [] -> audioChunks (this v) = [] ->
  currentChunkIndex (this v) = 0%nat -> mainBlob (this v) = None ->
  chunkTimer (this v) = None -> mainAudioUrl (this v) = None ->
  stream (this v) = None ->
  cleanup v = v.
Proof.
  destruct v as [r ? ? ? ? ? ? ? ? ?]. destruct r. simpl.
  intros -> -> -> -> -> -> -> -> ->. reflexivity.
Qed.

(** X7. [cleanup()] is idempotent, and it leaves a recorder on which every
    method is rejected until [initialize()] is called again: [start()]
    throws, [stop()] returns null, [pause()] and [resume()] do nothing. *)
Theorem cleanup_is_final (w : World) :
  let v := cleanup w in
  cleanup v = v /\
  start v = (v, Thrown "Media recorder not initialized") /\
  stop v = (v, Returned None) /\
  pause v = (v, Returned ()) /\
  resume v = (v, Returned ()).
Proof.
  intros v.
  destruct (cleanup_effect w)
    as (K1 & K2 & K3 & K4 & K5 & K6 & K7 & K8 & K9 & _).
  fold v in K1, K2, K3, K4, K5, K6, K7, K8, K9.
  split; [apply cleanup_of_clean; assumption|].
  unfold start, stop, pause, resume. rewrite K1. auto.
Qed.

Lemma active_pause w : active w = true -> active (fst (pause w)) = true.
Proof.
  intros Ha. unfold active in *.
  destruct (mediaRecorder (this w)) as [m|] eqn:Em; [|discriminate].
  assert (Hp : fst (pause w) = completeCurrentChunk (mediaRecorder_stop (clearChunkTimer w))).
  { unfold pause. rewrite Em, Ha. reflexivity. }
  destruct (guards_clearChunkTimer w) as (H1 & H2 & _).
  destruct (guards_mediaRecorder_stop (clearChunkTimer w)) as (H4 & H5 & _).
  destruct (guards_completeCurrentChunk (mediaRecorder_stop (clearChunkTimer w)))
    as (H7 & H8 & _).
  rewrite Hp, H8, H7, H4, H1.
  destruct H5 as [m' ->]; [rewrite H2, Em; eauto|]. exact Ha.
Qed.

(** X8. [pause()] does not close the chunk it completes: a [stop()] or a
    second [pause()] that follows it with no new fragment in between
    appends the same blob once more, under the next index. *)
Theorem pause_then_stop_repeats_the_chunk (w : World) :
  active w = true ->
  audioChunks (this w) <> [] ->
  let b := new_Blob (audioChunks (this w)) "audio/wav" in
  chunks (this (fst (stop (fst (pause w))))) = chunks (this w) ++ [b; b] /\
  chunks (this (fst (pause (fst (pause w))))) = chunks (this w) ++ [b; b] /\
  currentChunkIndex (this (fst (stop (fst (pause w))))) =
    S (S (currentChunkIndex (this w))).
Proof.
  intros Ha Hb b.
  assert (Hc : core (fst (stop (fst (pause w)))) = complete_c (complete_c (core w))).
  { rewrite core_stop, (active_pause _ Ha), core_pause, Ha. reflexivity. }
  assert (Hc' : core (fst (pause (fst (pause w)))) = complete_c (complete_c (core w))).
  { rewrite core_pause, (active_pause _ Ha), core_pause, Ha. reflexivity. }
  assert (Hcc : c_chunks (complete_c (complete_c (core w))) = chunks (this w) ++ [b; b] /\
                c_index (complete_c (complete_c (core w))) = S (S (currentChunkIndex (this w)))).
  { destruct (audioChunks (this w)) as [|x l] eqn:E; [congruence|].
    assert (E' : c_buffer (core w) = x :: l) by exact E.
    unfold complete_c at 2. rewrite E'.
    unfold complete_c. cbn [c_buffer c_chunks c_index]. rewrite E'.
    cbn [c_buffer c_chunks c_index]. rewrite <- app_assoc. unfold b.
    split; reflexivity. }
  change (c_chunks (core (fst (stop (fst (pause w))))) = chunks (this w) ++ [b; b] /\
          c_chunks (core (fst (pause (fst (pause w))))) = chunks (this w) ++ [b; b] /\
          c_index (core (fst (stop (fst (pause w))))) = S (S (currentChunkIndex (this w)))).
  rewrite Hc, Hc'. tauto.
Qed.

(** X8 at the example session holding one fragment. *)
Lemma pause_then_stop_repeats_the_chunk_witness :
  active w_save_pending = true /\
  audioChunks (this w_save_pending) <> [] /\
  chunks (this (fst (stop (fst (pause w_save_pending))))) =
    [new_Blob [fragA] "audio/wav"; new_Blob [fragA] "audio/wav"].
Proof.
  assert (Ha : active w_save_pending = true) by reflexivity.
  assert (Hb : audioChunks (this w_save_pending) <> []) by (vm_compute; discriminate).
  destruct (pause_then_stop_repeats_the_chunk w_save_pending Ha Hb) as (H1 & _).
  split; [exact Ha|]. split; [exact Hb|]. rewrite H1. reflexivity.
Defined.

Lemma mediaRecorder_startChunkTimer w :
  mediaRecorder (this (startChunkTimer w)) = mediaRecorder (this w).
Proof. unfold startChunkTimer. simpl. apply guards_clearChunkTimer. Qed.

Lemma timeouts_startChunkTimer w : timeouts (startChunkTimer w) <> [].
Proof.
  unfold startChunkTimer, setTimeout. simpl.
  destruct (timeouts (clearChunkTimer w)); discriminate.
Qed.

Lemma main_blob_without_stop_task w ev :
  no_stop_task ev = true -> mainBlob (this (step w ev)) = mainBlob (this w).
Proof.
  intros Hev. change (c_main (core (step w ev)) = c_main (core w)).
  rewrite step_core.
  assert (Hc : forall c, c_main (complete_c c) = c_main c).
  { intros c. unfold complete_c. destruct (c_buffer c); reflexivity. }
  destruct ev; simpl in *; try discriminate; try reflexivity.
  - destruct (active w); rewrite ?Hc; reflexivity.
  - destruct (active w); rewrite ?Hc; reflexivity.
  - destruct (timeouts w); rewrite ?Hc; reflexivity.
Qed.

(** X10. [start()] keeps the main blob of the previous session, and only a
    MediaRecorder stop task replaces it.  So when no stop task has run since
    [start()] (a recording shorter than one rotation, in particular),
    [stop()] returns the main blob the recorder held before [start()]: the
    previous session's recording, or null on a new recorder. *)
Theorem stop_before_any_stop_task_returns_old_blob (w : World) (evs : list Event) :
  is_Some (mediaRecorder (this w)) ->
  forallb no_stop_task evs = true ->
  active (run evs (fst (start w))) = true ->
  snd (stop (run evs (fst (start w)))) = Returned (mainBlob (this w)).
Proof.
  intros Hm Hev Ha. rewrite (stop_returns_mainBlob_field _ Ha). f_equal.
  transitivity (mainBlob (this (fst (start w)))).
  - apply (run_invariant
             (fun v => mainBlob (this v) = mainBlob (this (fst (start w)))) no_stop_task);
      [|exact Hev|reflexivity].
    intros v ev Hok <-. apply main_blob_without_stop_task, Hok.
  - change (c_main (core (fst (start w))) = c_main (core w)).
    rewrite core_session_start by exact Hm. reflexivity.
Qed.

(** X10 on a new recorder: a first recording stopped after one second. *)
Lemma stop_before_any_stop_task_returns_old_blob_witness :
  is_Some (mediaRecorder (this w_initialized)) /\
  forallb no_stop_task [Tick 1000] = true /\
  active (run [Tick 1000] (fst (start w_initialized))) = true /\
  snd (stop (run [Tick 1000] (fst (start w_initialized)))) = Returned None.
Proof.
  assert (Hm : is_Some (mediaRecorder (this w_initialized))) by (eexists; reflexivity).
  assert (Hev : forallb no_stop_task [Tick 1000] = true) by reflexivity.
  assert (Ha : active (run [Tick 1000] (fst (start w_initialized))) = true) by reflexivity.
  pose proof (stop_before_any_stop_task_returns_old_blob _ _ Hm Hev Ha) as H.
  split; [exact Hm|]. split; [exact Hev|]. split; [exact Ha|]. exact H.
Defined.

(** ** Media streams *)

Lemma same_streams_refl w : same_streams w w.
Proof. split; [reflexivity|lia]. Qed.

Lemma same_streams_trans w1 w2 w3 :
  same_streams w1 w2 -> same_streams w2 w3 -> same_streams w1 w3.
Proof. intros [H1 H2] [H3 H4]. split; [congruence|lia]. Qed.

Lemma same_streams_fresh w w' : same_streams w w' -> handles_fresh w -> handles_fresh w'.
Proof.
  unfold handles_fresh. intros [-> Hn] H. eapply Forall_impl; [exact H|].
  intros s Hs. simpl in Hs. lia.
Qed.

Lemma streams_clearChunkTimer w : same_streams w (clearChunkTimer w).
Proof. unfold clearChunkTimer. destruct (chunkTimer (this w)); (split; [reflexivity|simpl; lia]). Qed.

Lemma streams_startChunkTimer w : same_streams w (startChunkTimer w).
Proof.
  eapply same_streams_trans; [apply streams_clearChunkTimer|].
  unfold startChunkTimer, same_streams. simpl. split; [reflexivity|lia].
Qed.

Lemma streams_mediaRecorder_stop w : same_streams w (mediaRecorder_stop w).
Proof.
  unfold mediaRecorder_stop. destruct (mediaRecorder (this w)) as [m|];
    [destruct (snd (mr_stop m))|]; (split; [reflexivity|simpl; lia]).
Qed.

Lemma streams_mediaRecorder_start w w' :
  mediaRecorder_start w = Some w' -> same_streams w w'.
Proof.
  unfold mediaRecorder_start. destruct (mediaRecorder (this w)) as [m|]; [|discriminate].
  destruct (mr_start m); [|discriminate]. intros [= <-]. (split; [reflexivity|simpl; lia]).
Qed.

Lemma streams_completeCurrentChunk w : same_streams w (completeCurrentChunk w).
Proof.
  unfold completeCurrentChunk. destruct (audioChunks (this w)); [(split; [reflexivity|simpl; lia])|].
  simpl. destruct (onChunkComplete (options (this w))); (split; [reflexivity|simpl; lia]).
Qed.

Lemma streams_saveChunkToStorage d w : same_streams w (saveChunkToStorage d w).
Proof. unfold saveChunkToStorage. destruct (IDB.open_throws _); (split; [reflexivity|simpl; lia]). Qed.

Lemma streams_saveCompleteRecordingToStorage w :
  same_streams w (saveCompleteRecordingToStorage w).
Proof.
  unfold saveCompleteRecordingToStorage. destruct (mainBlob _); [|(split; [reflexivity|simpl; lia])].
  destruct (IDB.open_throws _); (split; [reflexivity|simpl; lia]).
Qed.

Lemma streams_start w : same_streams w (fst (start w)).
Proof.
  unfold start. destruct (mediaRecorder (this w)); [|(split; [reflexivity|simpl; lia])].
  match goal with |- context [mediaRecorder_start ?x] =>
    destruct (mediaRecorder_start x) as [w2|] eqn:F end; simpl;
    [|(split; [reflexivity|simpl; lia])].
  eapply same_streams_trans; [|apply streams_startChunkTimer].
  exact (streams_mediaRecorder_start _ _ F).
Qed.

Lemma streams_resume w : same_streams w (fst (resume w)).
Proof.
  unfold resume. destruct (mediaRecorder (this w)); [|(split; [reflexivity|simpl; lia])].
  destruct (isRecording (this w)); [(split; [reflexivity|simpl; lia])|].
  match goal with |- context [mediaRecorder_start ?x] =>
    destruct (mediaRecorder_start x) as [w2|] eqn:F end; simpl;
    [|(split; [reflexivity|simpl; lia])].
  eapply same_streams_trans; [|apply streams_startChunkTimer].
  exact (streams_mediaRecorder_start _ _ F).
Qed.

Lemma streams_stop w : same_streams w (fst (stop w)).
Proof.
  unfold stop. destruct (mediaRecorder (this w)); [|(split; [reflexivity|simpl; lia])].
  destruct (isRecording (this w)); [|(split; [reflexivity|simpl; lia])]. simpl.
  eapply same_streams_trans; [|apply streams_completeCurrentChunk].
  eapply same_streams_trans; [apply streams_clearChunkTimer|].
  exact (streams_mediaRecorder_stop (clearChunkTimer w)).
Qed.

Lemma streams_pause w : same_streams w (fst (pause w)).
Proof.
  unfold pause. destruct (mediaRecorder (this w)); [|(split; [reflexivity|simpl; lia])].
  destruct (isRecording (this w)); [|(split; [reflexivity|simpl; lia])]. simpl.
  eapply same_streams_trans; [|apply streams_completeCurrentChunk].
  eapply same_streams_trans; [apply streams_clearChunkTimer|].
  apply streams_mediaRecorder_stop.
Qed.

(** X9. [resume()] on an initialised recorder that is not recording and
    whose stream is live is accepted: it starts a capture leg on that stream
    and arms the timer while [isRecording] stays false, so the [stop()] and
    [pause()] that follow are rejected and the leg keeps capturing; only
    [cleanup()] ends it. *)
Theorem resume_when_not_recording_starts_a_leg
    (w : World) (m : MediaRecorder) (s : nat) :
  mediaRecorder (this w) = Some m ->
  mr_state m = mr_inactive ->
  stream (this w) = Some s ->
  In s (liveStreams w) ->
  isRecording (this w) = false ->
  let w' := fst (resume w) in
  snd (resume w) = Returned () /\
  getMediaRecorder w' =
    Some {| mr_state := mr_recording; mr_mimeType := mr_mimeType m |} /\
  In s (liveStreams w') /\
  timeouts w' <> [] /\
  isRecording (this w') = false /\
  stop w' = (w', Returned None) /\
  pause w' = (w', Returned ()).
Proof.
  intros Hm Hs Hst Hlive Hi w'.
  assert (Hr : resume w =
               (startChunkTimer
                  (upd (set_mediaRecorder
                          (Some {| mr_state := mr_recording; mr_mimeType := mr_mimeType m |}))
                       (upd (set_chunkStartTime (now w)) w)), Returned ())).
  { unfold resume, mediaRecorder_start. rewrite Hm, Hi. simpl. rewrite Hm.
    unfold mr_start. rewrite Hs. reflexivity. }
  assert (Hi' : isRecording (this w') = false).
  { unfold w'. rewrite isRecording_clock. destruct (views_resume w) as (_ & ->). exact Hi. }
  assert (Ha : active w' = false).
  { unfold active. rewrite Hi'. destruct (mediaRecorder (this w')); reflexivity. }
  assert (Hl : In s (liveStreams w')).
  { unfold w'. destruct (streams_resume w) as [-> _]. exact Hlive. }
  unfold w' in *. rewrite Hr in *. simpl fst in *. simpl snd.
  split; [reflexivity|]. split; [apply mediaRecorder_startChunkTimer|].
  split; [exact Hl|].
  split; [apply timeouts_startChunkTimer|]. split; [exact Hi'|].
  split; [apply stop_rejected, Ha|apply pause_rejected, Ha].
Qed.

(** X9 after the example session has been stopped by the recorder's own
    [stop()], which leaves the stream live. *)
Lemma resume_when_not_recording_starts_a_leg_witness :
  mediaRecorder (this (fst (stop w_recording))) =
    Some {| mr_state := mr_inactive; mr_mimeType := Some "audio/webm" |} /\
  stream (this (fst (stop w_recording))) = Some 1%nat /\
  In 1%nat (liveStreams (fst (stop w_recording))) /\
  isRecording (this (fst (stop w_recording))) = false /\
  snd (resume (fst (stop w_recording))) = Returned () /\
  timeouts (fst (resume (fst (stop w_recording)))) <> [].
Proof.
  assert (Hm : mediaRecorder (this (fst (stop w_recording))) =
               Some {| mr_state := mr_inactive; mr_mimeType := Some "audio/webm" |})
    by reflexivity.
  assert (Hst : stream (this (fst (stop w_recording))) = Some 1%nat) by reflexivity.
  assert (Hl : In 1%nat (liveStreams (fst (stop w_recording)))) by (left; reflexivity).
  assert (Hi : isRecording (this (fst (stop w_recording))) = false) by reflexivity.
  destruct (resume_when_not_recording_starts_a_leg _ _ _ Hm eq_refl Hst Hl Hi)
    as (H1 & _ & _ & H3 & _).
  split; [exact Hm|]. split; [exact Hst|]. split; [exact Hl|].
  split; [exact Hi|]. split; [exact H1|exact H3].
Defined.

Lemma streams_chunkTimer_callback w : same_streams w (chunkTimer_callback w).
Proof.
  unfold chunkTimer_callback. set (w1 := completeCurrentChunk w).
  assert (H1 : same_streams w w1) by apply streams_completeCurrentChunk.
  destruct (mediaRecorder (this w1)); [|exact H1].
  destruct (isRecording (this w1)); [|exact H1].
  assert (H2 : same_streams w (mediaRecorder_stop w1))
    by (eapply same_streams_trans; [exact H1|apply streams_mediaRecorder_stop]).
  match goal with |- context [mediaRecorder_start ?x] =>
    destruct (mediaRecorder_start x) as [w4|] eqn:F end; [|exact H2].
  eapply same_streams_trans; [|apply streams_startChunkTimer].
  eapply same_streams_trans; [exact H2|]. exact (streams_mediaRecorder_start _ _ F).
Qed.

Lemma streams_mediaRecorder_task d w : same_streams w (mediaRecorder_task d w).
Proof.
  unfold mediaRecorder_task. destruct (mrTasks w) as [|n]; [(split; [reflexivity|simpl; lia])|].
  set (w1 := ondataavailable d (set_mrTasks n w)).
  assert (H1 : same_streams w w1).
  { unfold w1, ondataavailable. destruct (0 <? blob_size d)%nat; [|(split; [reflexivity|simpl; lia])].
    match goal with |- context [saveChunkToStorage d ?x] =>
      exact (streams_saveChunkToStorage d x) end. }
  eapply same_streams_trans; [exact H1|].
  unfold onstop. simpl.
  eapply same_streams_trans; [|apply streams_saveCompleteRecordingToStorage].
  destruct (mainAudioUrl (this w1)); split; simpl; try reflexivity; lia.
Qed.

Lemma streams_indexedDB_task w : same_streams w (indexedDB_task w).
Proof.
  unfold indexedDB_task. destruct (idbTasks w) as [|[c|] rest]; [(split; [reflexivity|simpl; lia])| |].
  - destruct (snd _); [|(split; [reflexivity|simpl; lia])].
    match goal with |- context [saveChunkToStorage c ?x] =>
      exact (streams_saveChunkToStorage c x) end.
  - destruct (snd _); [|(split; [reflexivity|simpl; lia])].
    match goal with |- context [saveCompleteRecordingToStorage ?x] =>
      exact (streams_saveCompleteRecordingToStorage x) end.
Qed.

Lemma nextId_clearChunkTimer w : nextId (clearChunkTimer w) = nextId w.
Proof. unfold clearChunkTimer. destruct (chunkTimer (this w)); reflexivity. Qed.

Lemma nextId_mediaRecorder_stop w : nextId (mediaRecorder_stop w) = nextId w.
Proof.
  unfold mediaRecorder_stop. destruct (mediaRecorder (this w)) as [m|]; [|reflexivity].
  destruct (snd (mr_stop m)); reflexivity.
Qed.

Lemma nextId_completeCurrentChunk w : nextId (completeCurrentChunk w) = nextId w.
Proof.
  unfold completeCurrentChunk. destruct (audioChunks (this w)); [reflexivity|].
  simpl. destruct (onChunkComplete (options (this w))); reflexivity.
Qed.

Lemma nextId_stop w : nextId (fst (stop w)) = nextId w.
Proof.
  unfold stop. destruct (mediaRecorder (this w)); [|reflexivity].
  destruct (isRecording (this w)); [|reflexivity]. simpl.
  rewrite nextId_completeCurrentChunk.
  transitivity (nextId (mediaRecorder_stop (clearChunkTimer w))); [reflexivity|].
  rewrite nextId_mediaRecorder_stop. apply nextId_clearChunkTimer.
Qed.

Lemma nextId_cleanup w : nextId (cleanup w) = nextId w.
Proof.
  unfold cleanup.
  set (w1 := if isRecording (this w) then fst (stop w) else w).
  assert (H1 : nextId w1 = nextId w).
  { unfold w1. destruct (isRecording (this w)); [apply nextId_stop|reflexivity]. }
  set (w2 := clearChunkTimer w1).
  assert (H2 : nextId w2 = nextId w)
    by (rewrite <- H1; apply nextId_clearChunkTimer).
  destruct (stream (this w2)), (mainAudioUrl (this w2)) eqn:E; simpl; rewrite ?E;
    exact H2.
Qed.

Lemma handles_fresh_step w ev : handles_fresh w -> handles_fresh (step w ev).
Proof.
  intros H. destruct ev; cbn [step].
  - unfold initialize. destruct granted; [|exact H].
    unfold handles_fresh in *. simpl. apply Forall_app. split.
    + eapply Forall_impl; [exact H|]. intros s Hs. simpl in Hs. lia.
    + constructor; [lia|constructor].
  - exact (same_streams_fresh _ _ (streams_start w) H).
  - exact (same_streams_fresh _ _ (streams_stop w) H).
  - exact (same_streams_fresh _ _ (streams_pause w) H).
  - exact (same_streams_fresh _ _ (streams_resume w) H).
  - unfold handles_fresh.
    destruct (cleanup_effect w) as (_ & _ & _ & _ & _ & _ & _ & _ & _ & _ & _ & Hl).
    rewrite Hl.
    rewrite nextId_cleanup. destruct (stream (this w)) as [s|]; [|exact H].
    unfold handles_fresh in H. rewrite Forall_forall in H |- *.
    intros x Hx. apply H. apply list_elem_of_In in Hx. apply filter_In in Hx as [Hx _].
    apply list_elem_of_In. exact Hx.
  - exact H.
  - exact H.
  - unfold timer_fires. destruct (timeouts w) as [|t rest]; [exact H|].
    exact (same_streams_fresh _ _ (streams_chunkTimer_callback (set_timeouts rest w)) H).
  - exact (same_streams_fresh _ _ (streams_mediaRecorder_task data w) H).
  - exact (same_streams_fresh _ _ (streams_indexedDB_task w) H).
  - exact H.
Qed.

(** X11. [initialize()] never releases the stream acquired by an earlier
    [initialize()], and [cleanup()] releases only the stream the recorder
    holds at that moment.  So along every run from a new recorder, when the
    recorder holds a live stream and [initialize()] is called again, that
    stream is still live after the [cleanup()] that follows, and the
    recorder no longer refers to it. *)
Theorem reinitialize_leaks_the_stream
    (opts : ChunkedRecorderOptions) (t : Z) (e : IDB.Env) (evs : list Event)
    (webm : bool) (s : nat) :
  stream (this (run evs (new_World opts t e))) = Some s ->
  In s (liveStreams (run evs (new_World opts t e))) ->
  let v := cleanup (fst (initialize true webm (run evs (new_World opts t e)))) in
  In s (liveStreams v) /\ stream (this v) = None.
Proof.
  assert (H : handles_fresh (run evs (new_World opts t e))).
  { apply (run_invariant handles_fresh (fun _ => true)).
    - intros w' ev _. apply handles_fresh_step.
    - clear. induction evs; auto.
    - constructor. }
  set (w := run evs (new_World opts t e)) in *. intros Hs Hl v.
  assert (Hlt : (s < nextId w)%nat).
  { unfold handles_fresh in H. rewrite Forall_forall in H. apply H.
    apply list_elem_of_In. exact Hl. }
  destruct (cleanup_effect (fst (initialize true webm w)))
    as (_ & _ & _ & _ & _ & _ & _ & _ & K9 & _ & _ & K12).
  fold v in K9, K12. split; [|exact K9].
  rewrite K12. simpl. apply filter_In. split.
  - apply in_or_app. left. exact Hl.
  - apply negb_true_iff, Nat.eqb_neq. lia.
Qed.

(** X11 on the example recorder: the stream of the first [initialize()]. *)
Lemma reinitialize_leaks_the_stream_witness :
  stream (this (run [Initialize true true] (new_World opts_example 0 env_fresh))) =
    Some 1%nat /\
  In 1%nat (liveStreams (run [Initialize true true] (new_World opts_example 0 env_fresh))) /\
  In 1%nat
    (liveStreams
       (cleanup (fst (initialize true true
                        (run [Initialize true true]
                             (new_World opts_example 0 env_fresh)))))).
Proof.
  assert (Hs : stream (this (run [Initialize true true]
                                 (new_World opts_example 0 env_fresh))) = Some 1%nat)
    by reflexivity.
  assert (Hl : In 1%nat (liveStreams (run [Initialize true true]
                                          (new_World opts_example 0 env_fresh))))
    by (left; reflexivity).
  destruct (reinitialize_leaks_the_stream opts_example 0 env_fresh
              [Initialize true true] true 1%nat Hs Hl) as [H _].
  split; [exact Hs|]. split; [exact Hl|exact H].
Defined.

(** ** The store over a whole run *)

Lemma idb_clearChunkTimer w : idb (clearChunkTimer w) = idb w.
Proof. unfold clearChunkTimer. destruct (chunkTimer (this w)); reflexivity. Qed.

Lemma idb_startChunkTimer w : idb (startChunkTimer w) = idb w.
Proof. unfold startChunkTimer. simpl. apply idb_clearChunkTimer. Qed.

Lemma idb_mediaRecorder_stop w : idb (mediaRecorder_stop w) = idb w.
Proof.
  unfold mediaRecorder_stop. destruct (mediaRecorder (this w)) as [m|]; [|reflexivity].
  destruct (snd (mr_stop m)); reflexivity.
Qed.

Lemma idb_mediaRecorder_start w w' : mediaRecorder_start w = Some w' -> idb w' = idb w.
Proof.
  unfold mediaRecorder_start. destruct (mediaRecorder (this w)) as [m|]; [|discriminate].
  destruct (mr_start m); [|discriminate]. intros [= <-]. reflexivity.
Qed.

Lemma idb_completeCurrentChunk w : idb (completeCurrentChunk w) = idb w.
Proof.
  unfold completeCurrentChunk. destruct (audioChunks (this w)); [reflexivity|].
  simpl. destruct (onChunkComplete (options (this w))); reflexivity.
Qed.

Lemma idb_saveChunkToStorage d w : idb (saveChunkToStorage d w) = idb w.
Proof. unfold saveChunkToStorage. destruct (IDB.open_throws _); reflexivity. Qed.

Lemma idb_saveCompleteRecordingToStorage w :
  idb (saveCompleteRecordingToStorage w) = idb w.
Proof.
  unfold saveCompleteRecordingToStorage. destruct (mainBlob _); [|reflexivity].
  destruct (IDB.open_throws _); reflexivity.
Qed.

Lemma idb_start w : idb (fst (start w)) = idb w.
Proof.
  unfold start. destruct (mediaRecorder (this w)); [|reflexivity].
  match goal with |- context [mediaRecorder_start ?x] =>
    destruct (mediaRecorder_start x) as [w2|] eqn:F end; cbn [fst]; [|reflexivity].
  rewrite idb_startChunkTimer. exact (idb_mediaRecorder_start _ _ F).
Qed.

Lemma idb_resume w : idb (fst (resume w)) = idb w.
Proof.
  unfold resume. destruct (mediaRecorder (this w)); [|reflexivity].
  destruct (isRecording (this w)); [reflexivity|].
  match goal with |- context [mediaRecorder_start ?x] =>
    destruct (mediaRecorder_start x) as [w2|] eqn:F end; cbn [fst]; [|reflexivity].
  rewrite idb_startChunkTimer. exact (idb_mediaRecorder_start _ _ F).
Qed.

Lemma idb_stop w : idb (fst (stop w)) = idb w.
Proof. pose proof (outside_stop w) as H. unfold outside in H. congruence. Qed.

Lemma idb_pause w : idb (fst (pause w)) = idb w.
Proof.
  unfold pause. destruct (mediaRecorder (this w)); [|reflexivity].
  destruct (isRecording (this w)); [|reflexivity]. simpl.
  rewrite idb_completeCurrentChunk, idb_mediaRecorder_stop. apply idb_clearChunkTimer.
Qed.

Lemma idb_chunkTimer_callback w : idb (chunkTimer_callback w) = idb w.
Proof.
  unfold chunkTimer_callback. set (w1 := completeCurrentChunk w).
  assert (H1 : idb w1 = idb w) by apply idb_completeCurrentChunk.
  destruct (mediaRecorder (this w1)); [|exact H1].
  destruct (isRecording (this w1)); [|exact H1].
  assert (H2 : idb (mediaRecorder_stop w1) = idb w)
    by (rewrite idb_mediaRecorder_stop; exact H1).
  match goal with |- context [mediaRecorder_start ?x] =>
    destruct (mediaRecorder_start x) as [w4|] eqn:F end; [|exact H2].
  rewrite idb_startChunkTimer, (idb_mediaRecorder_start _ _ F). exact H2.
Qed.

Lemma idb_mediaRecorder_task d w : idb (mediaRecorder_task d w) = idb w.
Proof.
  unfold mediaRecorder_task. destruct (mrTasks w) as [|n]; [reflexivity|].
  set (w1 := ondataavailable d (set_mrTasks n w)).
  assert (H1 : idb w1 = idb w).
  { unfold w1, ondataavailable. destruct (0 <? blob_size d)%nat; [|reflexivity].
    rewrite idb_saveChunkToStorage. reflexivity. }
  unfold onstop. simpl. rewrite idb_saveCompleteRecordingToStorage.
  destruct (mainAudioUrl (this w1)); exact H1.
Qed.

Lemma idb_step w ev : idb (step w ev) = idb_of_step w ev.
Proof.
  destruct ev; cbn [step idb_of_step].
  - unfold initialize. destruct granted; reflexivity.
  - apply idb_start.
  - apply idb_stop.
  - apply idb_pause.
  - apply idb_resume.
  - apply cleanup_effect.
  - reflexivity.
  - reflexivity.
  - unfold timer_fires. destruct (timeouts w) as [|t rest]; [reflexivity|].
    apply (idb_chunkTimer_callback (set_timeouts rest w)).
  - apply idb_mediaRecorder_task.
  - destruct (idbTasks w) as [|t rest] eqn:E.
    + unfold indexedDB_task. rewrite E. reflexivity.
    + apply (idb_indexedDB_task _ _ _ E).
  - reflexivity.
Qed.

Lemma at_most_one_set_database e d : at_most_one_db d -> at_most_one (IDB.set_database d e).
Proof. intros H. exact H. Qed.

Lemma at_most_one_clearStore name e d :
  at_most_one_db d -> at_most_one_db (clearStore name e d).
Proof.
  intros H. unfold clearStore. destruct (IDB.contains name d); [|exact H].
  destruct (IDB.fault e) as [[]|]; try exact H;
    (intros n s; unfold IDB.clear; simpl;
     destruct (decide (name = n)) as [->|Hne];
     [rewrite lookup_insert_eq; intros [= <-]; rewrite map_size_empty; lia
     |rewrite lookup_insert_ne by exact Hne; apply H]).
Qed.

Lemma at_most_one_checkForRecovery e :
  at_most_one e -> at_most_one (snd (checkForRecovery e)).
Proof.
  intros H. unfold checkForRecovery.
  destruct (negb (IDB.indexedDB e)); [exact H|].
  destruct (IDB.open_throws e); [exact H|].
  destruct (IDB.open e 1) as [|b d] eqn:Eo; [exact H|].
  pose proof (at_most_one_open _ _ _ _ H Eo) as Hd.
  destruct (negb (IDB.contains "recordings" d)); [exact Hd|].
  destruct (IDB.fault e) as [[]|]; try exact Hd;
    (destruct (IDB.slot "recordings" (IDB.set_database d e)) as [s|]; [|exact Hd];
     destruct (s !! "latest_recording") as [r|]; [|exact Hd];
     destruct (IDB.e_data r); exact Hd).
Qed.

Lemma at_most_one_clearStoredRecordings e :
  at_most_one e -> at_most_one (snd (clearStoredRecordings e)).
Proof.
  intros H. unfold clearStoredRecordings.
  destruct (negb (IDB.indexedDB e)); [exact H|].
  destruct (IDB.open_throws e); [exact H|].
  destruct (IDB.open e 1) as [|b d] eqn:Eo; [exact H|].
  pose proof (at_most_one_open _ _ _ _ H Eo) as Hd.
  destruct (negb (IDB.contains "chunks" d) && negb (IDB.contains "recordings" d));
    [exact Hd|].
  apply at_most_one_set_database. auto using at_most_one_clearStore.
Qed.

(** X12. Along every run, whatever the callers and the platform do, a
    store that held at most one entry per object store still does: no
    sequence of saves, recovery checks and clears ever builds a history. *)
Theorem slots_never_hold_a_history (evs : list Event) (w : World) :
  at_most_one (idb w) -> at_most_one (idb (run evs w)).
Proof.
  intros H.
  apply (run_invariant (fun w => at_most_one (idb w)) (fun _ => true));
    [|clear; induction evs; auto|exact H].
  intros v ev _ Hv. rewrite idb_step.
  destruct ev; cbn [idb_of_step]; try exact Hv.
  - apply at_most_one_checkForRecovery, Hv.
  - apply at_most_one_clearStoredRecordings, Hv.
  - destruct (idbTasks v); [exact Hv|]. apply at_most_one_save_request, Hv.
Qed.

(** X12 on the example session with its saves processed. *)
Lemma slots_never_hold_a_history_witness :
  at_most_one (idb w_recording) /\
  at_most_one (idb (run (rotations ++ [IndexedDBTask; IndexedDBTask; IndexedDBTask])
                        w_recording)).
Proof.
  assert (H : at_most_one (idb w_recording)) by exact I.
  split; [exact H|]. exact (slots_never_hold_a_history _ _ H).
Defined.

(** ** Schema bootstrap, clearing and reading *)

Lemma onupgradeneeded_fixpoint d :
  IDB.contains "chunks" d = true -> IDB.contains "recordings" d = true ->
  IDB.onupgradeneeded d = d.
Proof. intros H1 H2. unfold IDB.onupgradeneeded. rewrite H1, H2. reflexivity. Qed.

Lemma lookup_createObjectStore name d n s :
  IDB.contains name d = false ->
  IDB.objectStores d !! n = Some s ->
  IDB.objectStores (IDB.createObjectStore name d) !! n = Some s.
Proof.
  intros Hc Hn. simpl. destruct (decide (name = n)) as [->|Hne].
  - assert (IDB.contains n d = true) by (apply contains_spec; eauto). congruence.
  - rewrite lookup_insert_ne by exact Hne. exact Hn.
Qed.

Lemma version_onupgradeneeded d :
  IDB.version (IDB.onupgradeneeded d) = IDB.version d.
Proof.
  unfold IDB.onupgradeneeded. destruct (IDB.contains "chunks" d);
    match goal with |- context [IDB.contains "recordings" ?x] =>
      destruct (IDB.contains "recordings" x) end; reflexivity.
Qed.

(** X13. The upgrade handler is an idempotent bootstrap: after it both
    object stores exist, the database version is unchanged, every store
    that existed keeps its content, and running it again changes nothing. *)
Theorem onupgradeneeded_is_idempotent (d : IDB.Database) :
  IDB.contains "chunks" (IDB.onupgradeneeded d) = true /\
  IDB.contains "recordings" (IDB.onupgradeneeded d) = true /\
  IDB.version (IDB.onupgradeneeded d) = IDB.version d /\
  (forall name s, IDB.objectStores d !! name = Some s ->
                  IDB.objectStores (IDB.onupgradeneeded d) !! name = Some s) /\
  IDB.onupgradeneeded (IDB.onupgradeneeded d) = IDB.onupgradeneeded d.
Proof.
  destruct (contains_onupgradeneeded d) as [H1 H2].
  split; [exact H1|]. split; [exact H2|]. split; [|split].
  - apply version_onupgradeneeded.
  - intros name s Hs. unfold IDB.onupgradeneeded.
    destruct (IDB.contains "chunks" d) eqn:E1.
    + destruct (IDB.contains "recordings" d) eqn:E2; [exact Hs|].
      apply lookup_createObjectStore; assumption.
    + destruct (IDB.contains "recordings" (IDB.createObjectStore "chunks" d)) eqn:E2.
      * apply lookup_createObjectStore; assumption.
      * apply lookup_createObjectStore; [exact E2|].
        apply lookup_createObjectStore; assumption.
  - apply onupgradeneeded_fixpoint; assumption.
Qed.

Lemma set_database_same e d : IDB.database e = Some d -> IDB.set_database d e = e.
Proof. destruct e. simpl. intros ->. reflexivity. Qed.

Lemma store_opens_inv e :
  store_opens e = true ->
  IDB.indexedDB e = true /\ IDB.fault e = None /\
  exists d, IDB.database e = Some d /\ (IDB.version d =? 1)%positive = true.
Proof.
  unfold store_opens. intros H.
  apply andb_true_iff in H as [H Hd]. apply andb_true_iff in H as [Hi Hf].
  split; [exact Hi|]. split; [destruct (IDB.fault e); [discriminate|reflexivity]|].
  destruct (IDB.database e) as [d|]; [eauto|discriminate].
Qed.

(** The store [checkForRecovery] leaves behind. *)
Lemma checkForRecovery_env e :
  snd (checkForRecovery e) =
  if negb (IDB.indexedDB e) then e
  else if IDB.open_throws e then e
  else match IDB.open e 1 with
       | IDB.OpenError => e
       | IDB.OpenSuccess _ d => IDB.set_database d e
       end.
Proof.
  unfold checkForRecovery.
  destruct (negb (IDB.indexedDB e)); [reflexivity|].
  destruct (IDB.open_throws e); [reflexivity|].
  destruct (IDB.open e 1) as [|b d]; [reflexivity|].
  destruct (negb (IDB.contains "recordings" d)); [reflexivity|].
  destruct (IDB.fault e) as [[]|]; try reflexivity;
    (destruct (IDB.slot "recordings" (IDB.set_database d e)) as [s|]; [|reflexivity];
     destruct (s !! "latest_recording") as [r|]; [|reflexivity];
     destruct (IDB.e_data r); reflexivity).
Qed.

Lemma checkForRecovery_store e :
  snd (checkForRecovery e) = e \/
  (IDB.database e = None /\
   snd (checkForRecovery e) =
     IDB.set_database (IDB.onupgradeneeded {| IDB.version := 1; IDB.objectStores := ∅ |}) e).
Proof.
  rewrite checkForRecovery_env.
  destruct (negb (IDB.indexedDB e)); [auto|].
  destruct (IDB.open_throws e); [auto|]. rewrite open_at_1.
  destruct (IDB.fault e) as [[]|]; auto;
    (destruct (IDB.database e) as [d|] eqn:Ed; [|auto];
     destruct (IDB.version d =? 1)%positive; [|auto];
     left; apply set_database_same, Ed).
Qed.

(** X14. [checkForRecovery()] only reads: every object store that exists
    keeps its content, and asking again gives the same answer.  Recovery is
    not consumed by being checked. *)
Theorem checkForRecovery_only_reads (e : IDB.Env) :
  (forall name s, IDB.slot name e = Some s ->
                  IDB.slot name (snd (checkForRecovery e)) = Some s) /\
  fst (checkForRecovery (snd (checkForRecovery e))) = fst (checkForRecovery e).
Proof.
  destruct (checkForRecovery_store e) as [-> | (Hd & ->)]; [auto|].
  split.
  - intros name s. unfold IDB.slot. rewrite Hd. discriminate.
  - rewrite !checkForRecovery_result.
    assert (H1 : store_opens e = false).
    { unfold store_opens. rewrite Hd, andb_false_r. reflexivity. }
    rewrite H1.
    assert (Hs : stored_recording
                   (IDB.set_database
                      (IDB.onupgradeneeded {| IDB.version := 1; IDB.objectStores := ∅ |})
                      e) = None).
    { unfold stored_recording, IDB.slot. cbn [IDB.database IDB.set_database].
      vm_compute. reflexivity. }
    rewrite Hs. clear H1.
    match goal with |- context [store_opens ?x] => destruct (store_opens x) end;
      reflexivity.
Qed.

(** The store [clearStoredRecordings] leaves behind. *)
Lemma clearStoredRecordings_env e :
  snd (clearStoredRecordings e) =
  if negb (IDB.indexedDB e) then e
  else if IDB.open_throws e then e
  else match IDB.open e 1 with
       | IDB.OpenError => e
       | IDB.OpenSuccess _ d =>
           if negb (IDB.contains "chunks" d) && negb (IDB.contains "recordings" d)
           then IDB.set_database d e
           else IDB.set_database
                  (clearStore "recordings" e (clearStore "chunks" e d)) e
       end.
Proof.
  unfold clearStoredRecordings.
  destruct (negb (IDB.indexedDB e)); [reflexivity|].
  destruct (IDB.open_throws e); [reflexivity|].
  destruct (IDB.open e 1) as [|b d]; [reflexivity|].
  destruct (negb (IDB.contains "chunks" d) && negb (IDB.contains "recordings" d));
    reflexivity.
Qed.

Lemma lookup_clearStore name e d n :
  IDB.fault e = None ->
  IDB.objectStores (clearStore name e d) !! n =
  if decide (name = n)
  then match IDB.objectStores d !! n with Some _ => Some ∅ | None => None end
  else IDB.objectStores d !! n.
Proof.
  intros Hf. unfold clearStore, IDB.contains. rewrite Hf.
  destruct (decide (name = n)) as [->|Hne].
  - destruct (IDB.objectStores d !! n) as [s|] eqn:E.
    + rewrite bool_decide_eq_true_2 by eauto. simpl. apply lookup_insert_eq.
    + rewrite bool_decide_eq_false_2 by (intros [? [=]]). exact E.
  - destruct (bool_decide _); [|reflexivity]. simpl.
    rewrite lookup_insert_ne by exact Hne. reflexivity.
Qed.

Lemma not_contains name d : IDB.contains name d = false -> IDB.objectStores d !! name = None.
Proof.
  intros H. destruct (IDB.objectStores d !! name) eqn:E; [|reflexivity].
  assert (IDB.contains name d = true) by (apply contains_spec; eauto). congruence.
Qed.

(** X15. After [clearStoredRecordings()], [checkForRecovery()] reports no
    recovery, whatever the store held and whether or not it works; and when
    the store opens, each of the two object stores that exists is left
    empty. *)
Theorem clearStoredRecordings_removes_recovery (e : IDB.Env) :
  fst (checkForRecovery (snd (clearStoredRecordings e))) = Resolved noRecovery /\
  (if store_opens e then
     forall name, name = "chunks" \/ name = "recordings" ->
       IDB.slot name (snd (clearStoredRecordings e)) =
       match IDB.slot name e with Some _ => Some ∅ | None => None end
   else True).
Proof.
  rewrite checkForRecovery_result, clearStoredRecordings_env.
  assert (Hslot : forall name d, IDB.fault e = None ->
            name = "chunks" \/ name = "recordings" ->
            IDB.objectStores (clearStore "recordings" e (clearStore "chunks" e d)) !! name =
            match IDB.objectStores d !! name with Some _ => Some ∅ | None => None end).
  { intros name d Hf [-> | ->]; rewrite !lookup_clearStore by exact Hf;
      repeat case_decide; try congruence; try reflexivity. }
  assert (Hno : forall d, IDB.fault e = None ->
            (if store_opens
                  (IDB.set_database (clearStore "recordings" e (clearStore "chunks" e d)) e)
             then match stored_recording
                          (IDB.set_database
                             (clearStore "recordings" e (clearStore "chunks" e d)) e) with
                  | Some ent =>
                      match IDB.e_data ent with
                      | Some b => {| hasRecovery := true; recording := Some b |}
                      | None => noRecovery
                      end
                  | None => noRecovery
                  end
             else noRecovery) = noRecovery).
  { intros d Hf.
    match goal with |- context [store_opens ?x] => destruct (store_opens x) end;
      [|reflexivity].
    unfold stored_recording, IDB.slot. cbn [IDB.database IDB.set_database].
    rewrite (Hslot "recordings" d Hf) by auto.
    destruct (IDB.objectStores d !! "recordings"); [rewrite lookup_empty|]; reflexivity. }
  destruct (store_opens e) eqn:Eo.
  - destruct (store_opens_inv _ Eo) as (Hi & Hf & d & Hd & Hv).
    unfold IDB.open_throws. rewrite Hi, open_at_1, Hf, Hd, Hv. cbn [negb orb].
    destruct (negb (IDB.contains "chunks" d) && negb (IDB.contains "recordings" d)) eqn:En.
    + apply andb_true_iff in En as [E1 E2].
      apply negb_true_iff in E1, E2. apply not_contains in E1, E2.
      rewrite (set_database_same _ _ Hd), Eo.
      split.
      * unfold stored_recording, IDB.slot. rewrite Hd, E2. reflexivity.
      * intros name [-> | ->]; unfold IDB.slot; rewrite Hd, ?E1, ?E2; reflexivity.
    + split; [f_equal; apply Hno, Hf|].
      intros name Hn. unfold IDB.slot at 1. cbn [IDB.database IDB.set_database].
      rewrite (Hslot name d Hf Hn). unfold IDB.slot. rewrite Hd. reflexivity.
  - split; [|exact I].
    destruct (IDB.indexedDB e) eqn:Ei; cbn [negb]; [|rewrite Eo; reflexivity].
    destruct (IDB.open_throws e); [rewrite Eo; reflexivity|].
    rewrite open_at_1.
    destruct (IDB.fault e) as [f|] eqn:Ef.
    + assert (Hfalse : forall d, store_opens (IDB.set_database d e) = false).
      { intros d. unfold store_opens. cbn [IDB.fault IDB.set_database IDB.indexedDB].
        rewrite Ef, andb_false_r. reflexivity. }
      destruct f; rewrite ?Eo; try reflexivity;
        (destruct (IDB.database e) as [d|];
         [destruct (IDB.version d =? 1)%positive; [|rewrite Eo; reflexivity]|];
         match goal with |- context [if ?c then IDB.set_database _ _ else _] =>
           destruct c end; rewrite Hfalse; reflexivity).
    + destruct (IDB.database e) as [d|] eqn:Ed.
      * destruct (IDB.version d =? 1)%positive eqn:Ev.
        -- exfalso. unfold store_opens in Eo. rewrite Ei, Ef, Ed, Ev in Eo. discriminate.
        -- rewrite Eo. reflexivity.
      * match goal with |- context [if ?c then IDB.set_database _ _ else _] =>
          destruct c eqn:En end; [|f_equal; apply Hno; reflexivity].
        exfalso. apply andb_true_iff in En as [E1 _]. apply negb_true_iff in E1.
        destruct (contains_onupgradeneeded
                    {| IDB.version := 1; IDB.objectStores := ∅ |}) as [H1 _].
        congruence.
Qed.

(** ** Saves on a working store *)

Lemma store_ready_inv e :
  store_ready e = true ->
  IDB.indexedDB e = true /\ IDB.fault e = None /\
  match IDB.database e with
  | None => True
  | Some d =>
      (IDB.version d =? 1)%positive = true /\
      IDB.contains "chunks" d = true /\ IDB.contains "recordings" d = true
  end.
Proof.
  unfold store_ready. intros H.
  apply andb_true_iff in H as [H Hd]. apply andb_true_iff in H as [Hi Hf].
  split; [exact Hi|]. split; [destruct (IDB.fault e); [discriminate|reflexivity]|].
  destruct (IDB.database e) as [d|]; [|exact I].
  apply andb_true_iff in Hd as [Hd H3]. apply andb_true_iff in Hd as [H1 H2]. auto.
Qed.

(** On a working store a save request opens a version-1 database that has
    both object stores, and replaces its slot there. *)
Lemma save_request_ready name entry e :
  store_ready e = true ->
  name = "chunks" \/ name = "recordings" ->
  exists d,
    (IDB.version d =? 1)%positive = true /\
    IDB.contains "chunks" d = true /\ IDB.contains "recordings" d = true /\
    (forall n s, IDB.slot n e = Some s -> IDB.objectStores d !! n = Some s) /\
    save_request name entry e =
      (IDB.set_database (IDB.put name entry (IDB.clear name d)) e, false).
Proof.
  intros Hr Hn. destruct (store_ready_inv _ Hr) as (Hi & Hf & Hd).
  unfold save_request. rewrite open_at_1, Hf.
  destruct (IDB.database e) as [d|] eqn:Ed.
  - destruct Hd as (Hv & H1 & H2). rewrite Hv. exists d.
    split; [exact Hv|]. split; [exact H1|]. split; [exact H2|]. split.
    + intros n s. unfold IDB.slot. rewrite Ed. auto.
    + unfold save_onsuccess, IDB.replace_slot. rewrite Hf.
      destruct Hn as [-> | ->]; rewrite ?H1, ?H2; reflexivity.
  - set (d := IDB.onupgradeneeded {| IDB.version := 1; IDB.objectStores := ∅ |}).
    destruct (contains_onupgradeneeded {| IDB.version := 1; IDB.objectStores := ∅ |})
      as [H1 H2]. fold d in H1, H2.
    exists d. split; [reflexivity|]. split; [exact H1|]. split; [exact H2|]. split.
    + intros n s. unfold IDB.slot. rewrite Ed. discriminate.
    + unfold save_onsuccess, IDB.replace_slot. rewrite Hf.
      destruct Hn as [-> | ->]; rewrite ?H1, ?H2; reflexivity.
Qed.

Lemma contains_put_clear name entry d n :
  IDB.contains n d = true ->
  IDB.contains n (IDB.put name entry (IDB.clear name d)) = true.
Proof.
  rewrite !contains_spec. unfold IDB.put, IDB.clear. simpl. rewrite lookup_insert_eq.
  simpl. intros [s Hs]. destruct (decide (name = n)) as [->|Hne].
  - rewrite lookup_insert_eq. eauto.
  - rewrite !lookup_insert_ne by exact Hne. eauto.
Qed.

Lemma lookup_put_clear name entry d n :
  IDB.objectStores (IDB.put name entry (IDB.clear name d)) !! n =
  if decide (name = n) then Some {[ IDB.e_id entry := entry ]}
  else IDB.objectStores d !! n.
Proof.
  unfold IDB.put, IDB.clear. simpl. rewrite lookup_insert_eq. simpl.
  destruct (decide (name = n)) as [->|Hne].
  - rewrite lookup_insert_eq, insert_empty. reflexivity.
  - rewrite !lookup_insert_ne by exact Hne. reflexivity.
Qed.

Lemma task_store_cases t : task_store t = "chunks" \/ task_store t = "recordings".
Proof. destruct t; auto. Qed.

(** Processing one save request on a working store. *)
Lemma indexedDB_task_ready w t rest :
  idbTasks w = t :: rest ->
  store_ready (idb w) = true ->
  let w1 := indexedDB_task w in
  idbTasks w1 = rest /\ this w1 = this w /\ now w1 = now w /\
  store_ready (idb w1) = true /\
  IDB.slot (task_store t) (idb w1) =
    Some {[ IDB.e_id (task_entry t w) := task_entry t w ]} /\
  (forall n s, n <> task_store t -> IDB.slot n (idb w) = Some s ->
               IDB.slot n (idb w1) = Some s).
Proof.
  intros Ht Hr w1.
  destruct (save_request_ready (task_store t) (task_entry t w) (idb w) Hr
              (task_store_cases t)) as (d & Hv & H1 & H2 & Hk & Hs).
  destruct (store_ready_inv _ Hr) as (Hi & Hf & _).
  assert (Hw : w1 = set_idb (IDB.set_database
                               (IDB.put (task_store t) (task_entry t w)
                                        (IDB.clear (task_store t) d)) (idb w))
                            (set_idbTasks rest w)).
  { unfold w1, indexedDB_task. rewrite Ht.
    destruct t as [c|]; cbn [task_store task_entry] in Hs; rewrite Hs; reflexivity. }
  rewrite Hw. cbn [idb idbTasks this now set_idb set_idbTasks].
  split; [reflexivity|]. split; [reflexivity|]. split; [reflexivity|]. split; [|split].
  - unfold store_ready. cbn [IDB.indexedDB IDB.fault IDB.database IDB.set_database].
    rewrite Hi, Hf, !contains_put_clear by assumption.
    replace (IDB.version (IDB.put (task_store t) (task_entry t w)
                                  (IDB.clear (task_store t) d))) with (IDB.version d).
    + rewrite Hv. reflexivity.
    + unfold IDB.put, IDB.clear. simpl. rewrite lookup_insert_eq. reflexivity.
  - unfold IDB.slot. cbn [IDB.database IDB.set_database].
    rewrite lookup_put_clear. case_decide; [reflexivity|congruence].
  - intros n s Hn Hsl. unfold IDB.slot. cbn [IDB.database IDB.set_database].
    rewrite lookup_put_clear. case_decide; [congruence|]. apply Hk, Hsl.
Qed.

Lemma drain_cons w t rest :
  idbTasks w = t :: rest -> store_ready (idb w) = true ->
  drain w = drain (indexedDB_task w).
Proof.
  intros Ht Hr. unfold drain. rewrite Ht.
  destruct (indexedDB_task_ready w t rest Ht Hr) as (-> & _). reflexivity.
Qed.

Lemma drain_slots tasks : forall w,
  idbTasks w = tasks -> store_ready (idb w) = true ->
  idbTasks (drain w) = [] /\ this (drain w) = this w /\ now (drain w) = now w /\
  store_ready (idb (drain w)) = true /\
  (IDB.slot "recordings" (idb w) =
     Some {[ "latest_recording" := recordingEntry (this w) (now w) ]} \/
   In SaveRecording tasks ->
   IDB.slot "recordings" (idb (drain w)) =
     Some {[ "latest_recording" := recordingEntry (this w) (now w) ]}) /\
  (forall cur,
     (forall d, cur = Some d ->
        IDB.slot "chunks" (idb w) =
          Some {[ "latest_chunk" := chunkEntry (this w) (now w) d ]}) ->
     forall d, final_chunk cur tasks = Some d ->
       IDB.slot "chunks" (idb (drain w)) =
         Some {[ "latest_chunk" := chunkEntry (this w) (now w) d ]}).
Proof.
  induction tasks as [|t rest IH]; intros w Ht Hr.
  - assert (Hd : drain w = w) by (unfold drain; rewrite Ht; reflexivity).
    rewrite Hd. split; [exact Ht|]. split; [reflexivity|]. split; [reflexivity|].
    split; [exact Hr|]. split.
    + intros [H | []]. exact H.
    + intros cur Hc d Hf. apply Hc. exact Hf.
  - rewrite (drain_cons w t rest Ht Hr).
    destruct (indexedDB_task_ready w t rest Ht Hr) as (H1 & H2 & H3 & H4 & H5 & H6).
    destruct (IH (indexedDB_task w) H1 H4) as (I1 & I2 & I3 & I4 & I5 & I6).
    rewrite H2, H3 in *.
    split; [exact I1|]. split; [exact I2|]. split; [exact I3|]. split; [exact I4|].
    split.
    + intros Hq. apply I5. destruct t as [c|].
      * destruct Hq as [Hq | [Hq | Hq]]; [|discriminate|right; exact Hq].
        left. apply H6; [discriminate|exact Hq].
      * left. exact H5.
    + intros cur Hc d Hf. destruct t as [c|]; cbn [final_chunk fold_left] in Hf.
      * apply (I6 (Some c)); [|exact Hf]. intros d' [= <-]. exact H5.
      * apply (I6 cur); [|exact Hf]. intros d' Hd'. apply H6; [discriminate|].
        apply Hc, Hd'.
Qed.

(** X16. Round trip through the store.  On a working store, once IndexedDB
    has processed every outstanding save request: no request is left, the
    recorder is untouched, the recording slot holds the recorder's current
    main blob (read when the request is processed, not when it was issued),
    [checkForRecovery()] returns exactly that blob, and the chunk slot holds
    the raw fragment of the last chunk save. *)
Theorem saves_round_trip (w : World) :
  store_ready (idb w) = true ->
  In SaveRecording (idbTasks w) ->
  let w' := drain w in
  idbTasks w' = [] /\ this w' = this w /\
  stored_recording (idb w') = Some (recordingEntry (this w) (now w)) /\
  fst (checkForRecovery (idb w')) =
    Resolved match mainBlob (this w) with
             | Some b => {| hasRecovery := true; recording := Some b |}
             | None => noRecovery
             end /\
  (forall d, final_chunk None (idbTasks w) = Some d ->
     IDB.slot "chunks" (idb w') =
       Some {[ "latest_chunk" := chunkEntry (this w) (now w) d ]}).
Proof.
  intros Hr Hin w'.
  destruct (drain_slots (idbTasks w) w eq_refl Hr) as (D1 & D2 & _ & D4 & D5 & D6).
  fold w' in D1, D2, D4, D5, D6.
  assert (Hs : IDB.slot "recordings" (idb w') =
               Some {[ "latest_recording" := recordingEntry (this w) (now w) ]})
    by (apply D5; right; exact Hin).
  assert (Hst : stored_recording (idb w') = Some (recordingEntry (this w) (now w))).
  { unfold stored_recording. rewrite Hs. apply lookup_singleton_eq. }
  split; [exact D1|]. split; [exact D2|]. split; [exact Hst|]. split.
  - rewrite checkForRecovery_result, Hst.
    assert (Ho : store_opens (idb w') = true).
    { destruct (store_ready_inv _ D4) as (Hi & Hf & Hd).
      unfold store_opens. rewrite Hi, Hf. unfold IDB.slot in Hs.
      destruct (IDB.database (idb w')) as [d|]; [|discriminate].
      destruct Hd as (-> & _). reflexivity. }
    rewrite Ho. reflexivity.
  - apply (D6 None). discriminate.
Qed.

(** X16 on the example session: the two saves issued by the first stop
    task, processed on a fresh store. *)
Lemma saves_round_trip_witness :
  store_ready (idb w_save_pending) = true /\
  In SaveRecording (idbTasks w_save_pending) /\
  fst (checkForRecovery (idb (drain w_save_pending))) =
    Resolved {| hasRecovery := true;
                recording := Some (mkBlob [Byte.x01] "audio/wav") |}.
Proof.
  assert (Hr : store_ready (idb w_save_pending) = true) by reflexivity.
  assert (Hin : In SaveRecording (idbTasks w_save_pending)) by (right; left; reflexivity).
  destruct (saves_round_trip w_save_pending Hr Hin) as (_ & _ & _ & Hc & _).
  split; [exact Hr|]. split; [exact Hin|]. rewrite Hc. reflexivity.
Defined.

(** ** The store-missing branch of the save methods *)

Lemma open_too_new e : version_too_new e -> IDB.open e 1 = IDB.OpenError.
Proof.
  intros (d & Hd & Hv). rewrite open_at_1, Hd.
  destruct (Pos.eqb_spec (IDB.version d) 1) as [E|_]; [lia|].
  destruct (IDB.fault e) as [[]|]; reflexivity.
Qed.

(** Once the database is past version 1, nothing the recorder does reaches
    the store any more. *)
Lemma too_new_step w ev : version_too_new (idb w) -> idb (step w ev) = idb w.
Proof.
  intros H. rewrite idb_step. pose proof (open_too_new _ H) as Ho.
  destruct ev; cbn [idb_of_step]; try reflexivity.
  - rewrite checkForRecovery_env, Ho.
    destruct (negb _); [reflexivity|]. destruct (IDB.open_throws _); reflexivity.
  - rewrite clearStoredRecordings_env, Ho.
    destruct (negb _); [reflexivity|]. destruct (IDB.open_throws _); reflexivity.
  - destruct (idbTasks w); [reflexivity|]. unfold save_request. rewrite Ho. reflexivity.
Qed.

Lemma too_new_run evs : forall w, version_too_new (idb w) -> idb (run evs w) = idb w.
Proof.
  induction evs as [|ev evs IH]; intros w H; [reflexivity|].
  simpl. unfold run in IH. rewrite IH; rewrite too_new_step; auto.
Qed.

Lemma lookup_onupgradeneeded_new name d :
  name = "chunks" \/ name = "recordings" ->
  IDB.contains name d = false ->
  IDB.objectStores (IDB.onupgradeneeded d) !! name = Some ∅.
Proof.
  intros Hn Hc. unfold IDB.onupgradeneeded. destruct Hn as [-> | ->].
  - rewrite Hc.
    destruct (IDB.contains "recordings" (IDB.createObjectStore "chunks" d)); simpl.
    + apply lookup_insert_eq.
    + rewrite lookup_insert_ne by discriminate. apply lookup_insert_eq.
  - destruct (IDB.contains "chunks" d).
    + rewrite Hc. simpl. apply lookup_insert_eq.
    + assert (H : IDB.contains "recordings" (IDB.createObjectStore "chunks" d) = false).
      { apply not_true_is_false. intros H. apply contains_spec in H. simpl in H.
        rewrite lookup_insert_ne in H by discriminate.
        apply contains_spec in H. congruence. }
      rewrite H. simpl. apply lookup_insert_eq.
Qed.

Lemma lookup_onupgradeneeded_old d name s :
  IDB.objectStores d !! name = Some s ->
  IDB.objectStores (IDB.onupgradeneeded d) !! name = Some s.
Proof.
  intros Hs. unfold IDB.onupgradeneeded.
  destruct (IDB.contains "chunks" d) eqn:E1.
  - destruct (IDB.contains "recordings" d) eqn:E2; [exact Hs|].
    apply lookup_createObjectStore; assumption.
  - destruct (IDB.contains "recordings" (IDB.createObjectStore "chunks" d)) eqn:E2.
    + apply lookup_createObjectStore; assumption.
    + apply lookup_createObjectStore; [exact E2|].
      apply lookup_createObjectStore; assumption.
Qed.

(** X17. A save that finds the version-1 database without its object store
    is lost, and the store is out of reach from then on.  The branch asks
    for the database at the next version, whose upgrade handler creates the
    store, and for the save again once that request succeeds; but the save,
    like every request of the recorder, opens the database at version 1,
    which an upgraded database refuses.  When that save was the only request
    outstanding, after its task and after every run of events that follows:
    the object store of the lost save holds no entry, every object store the
    database had keeps its content, and [checkForRecovery()] never reports a
    recovery.  These three facts do not depend on the upgrade being granted
    at once: requests issued while it is held back wait behind it. *)
Theorem missing_store_save_is_lost
    (w : World) (t : IDBTask) (d : IDB.Database) (evs : list Event) :
  idbTasks w = [t] ->
  IDB.indexedDB (idb w) = true ->
  IDB.fault (idb w) = None ->
  IDB.database (idb w) = Some d ->
  IDB.version d = 1%positive ->
  IDB.contains (task_store t) d = false ->
  let w' := run evs (indexedDB_task w) in
  entries (task_store t) (idb w') = ∅ /\
  (forall name s, IDB.objectStores d !! name = Some s ->
                  IDB.slot name (idb w') = Some s) /\
  (forall b, fst (checkForRecovery (idb w')) <>
             Resolved {| hasRecovery := true; recording := b |}).
Proof.
  intros Ht Hi Hf Hd Hv Hc w'.
  set (w1 := indexedDB_task w).
  assert (He : idb w1 =
               IDB.set_database
                 (IDB.onupgradeneeded
                    {| IDB.version := 2; IDB.objectStores := IDB.objectStores d |})
                 (idb w)).
  { unfold w1. rewrite (idb_indexedDB_task _ _ _ Ht).
    unfold save_request. rewrite open_at_1, Hf, Hd, Hv. cbn [Pos.eqb].
    unfold save_onsuccess. rewrite Hc. unfold IDB.open.
    cbn [IDB.fault IDB.database IDB.set_database]. rewrite Hf, Hv. reflexivity. }
  assert (Hnew : version_too_new (idb w1)).
  { rewrite He. eexists. split; [reflexivity|].
    rewrite version_onupgradeneeded. simpl. lia. }
  assert (Hw : idb w' = idb w1) by (apply too_new_run, Hnew).
  rewrite Hw. split; [|split].
  - unfold entries. rewrite He. unfold IDB.slot. cbn [IDB.database IDB.set_database].
    rewrite lookup_onupgradeneeded_new; [reflexivity|apply task_store_cases|exact Hc].
  - intros name s Hs. rewrite He. unfold IDB.slot.
    cbn [IDB.database IDB.set_database]. apply lookup_onupgradeneeded_old. exact Hs.
  - intros b. rewrite checkForRecovery_result.
    assert (Ho : store_opens (idb w1) = false).
    { destruct Hnew as (d' & Hd' & Hv'). unfold store_opens. rewrite Hd'.
      destruct (Pos.eqb_spec (IDB.version d') 1) as [E|_]; [lia|].
      rewrite andb_false_r. reflexivity. }
    rewrite Ho. discriminate.
Qed.

(** X17 on a version-1 database that lacks the [recordings] store: the
    recording is not stored, neither is the one saved by the stop that
    follows, and the [chunks] store is as it was. *)
Lemma missing_store_save_is_lost_witness :
  idbTasks w_recording_save_first = [SaveRecording] /\
  IDB.contains "recordings"
    {| IDB.version := 1; IDB.objectStores := {[ "chunks" := ∅ ]} |} = false /\
  entries "recordings"
    (idb (run [Stop; MediaRecorderTask fragB; IndexedDBTask; IndexedDBTask]
              (indexedDB_task w_recording_save_first))) = ∅ /\
  IDB.slot "chunks"
    (idb (run [Stop; MediaRecorderTask fragB; IndexedDBTask; IndexedDBTask]
              (indexedDB_task w_recording_save_first))) = Some ∅.
Proof.
  assert (Ht : idbTasks w_recording_save_first = [SaveRecording]) by reflexivity.
  assert (Hc : IDB.contains "recordings"
                 {| IDB.version := 1; IDB.objectStores := {[ "chunks" := ∅ ]} |} = false)
    by (vm_compute; reflexivity).
  destruct (missing_store_save_is_lost w_recording_save_first SaveRecording _
              [Stop; MediaRecorderTask fragB; IndexedDBTask; IndexedDBTask]
              Ht eq_refl eq_refl eq_refl eq_refl Hc)
    as (He & Hs & _).
  split; [exact Ht|]. split; [exact Hc|]. split; [exact He|].
  apply Hs. apply lookup_singleton_eq.
Defined.

(** ** The hook: pausing and resuming *)

Lemma pause_active w :
  active w = true ->
  fst (pause w) = completeCurrentChunk (mediaRecorder_stop (clearChunkTimer w)).
Proof.
  unfold active, pause. destruct (mediaRecorder (this w)); [|discriminate].
  intros ->. reflexivity.
Qed.

Lemma mr_stop_inactive m : mr_state (fst (mr_stop m)) = mr_inactive.
Proof. unfold mr_stop. destruct (mr_state m) eqn:E; simpl; auto. Qed.

Lemma mediaRecorder_stop_inactive w m :
  mediaRecorder (this w) = Some m ->
  exists m', mediaRecorder (this (mediaRecorder_stop w)) = Some m' /\
             mr_state m' = mr_inactive.
Proof.
  intros E. unfold mediaRecorder_stop. rewrite E.
  exists (fst (mr_stop m)). split; [|apply mr_stop_inactive].
  destruct (snd (mr_stop m)); reflexivity.
Qed.

(** After [pause()] on an active recorder: still flagged as recording, the
    MediaRecorder inactive, no chunk timer. *)
Lemma paused_recorder w :
  active w = true ->
  isRecording (this (fst (pause w))) = true /\
  chunkTimer (this (fst (pause w))) = None /\
  exists m, mediaRecorder (this (fst (pause w))) = Some m /\ mr_state m = mr_inactive.
Proof.
  intros Ha. rewrite (pause_active w Ha). unfold active in Ha.
  destruct (mediaRecorder (this w)) as [m|] eqn:Em; [|discriminate].
  destruct (guards_clearChunkTimer w) as (H1 & H2 & H3).
  destruct (guards_mediaRecorder_stop (clearChunkTimer w)) as (H4 & _ & H6).
  destruct (guards_completeCurrentChunk (mediaRecorder_stop (clearChunkTimer w)))
    as (H7 & H8 & H9).
  rewrite H7, H4, H1, H8, H9, H6, H3.
  split; [exact Ha|]. split; [reflexivity|].
  apply (mediaRecorder_stop_inactive _ m). rewrite H2. exact Em.
Qed.

Lemma resume_rejected w :
  isRecording (this w) = true -> resume w = (w, Returned ()).
Proof.
  intros H. unfold resume. rewrite H. destruct (mediaRecorder (this w)); reflexivity.
Qed.

(** X18. The hook's [pauseRecording()] followed by [resumeRecording()] on an
    active recording: the hook reports [isRecording = true] again and its
    one-second interval is running, but [recorder.resume()] was rejected by
    its guard, so the recorder is exactly as [pause()] left it: the
    MediaRecorder inactive, no chunk timer, no timeout armed, no task
    queued.  The elapsed time counts while nothing is captured. *)
Theorem hook_resume_after_pause_captures_nothing (hw : HookWorld) :
  active (world hw) = true ->
  let hp := pauseRecording hw in
  let hr := fst (resumeRecording hp) in
  snd (resumeRecording hp) = Returned () /\
  Hook.isRecording (Hook.state (hook hp)) = false /\
  Hook.timerRef (hook hp) = None /\
  Hook.isRecording (Hook.state (hook hr)) = true /\
  (exists t, Hook.timerRef (hook hr) = Some t /\ In t (intervals hr)) /\
  Hook.chunks (Hook.state (hook hr)) = Hook.chunks (Hook.state (hook hp)) /\
  this (world hr) = this (world hp) /\
  timeouts (world hr) = timeouts (world hp) /\
  mrTasks (world hr) = mrTasks (world hp) /\
  chunkTimer (this (world hr)) = None /\
  (exists m, mediaRecorder (this (world hr)) = Some m /\ mr_state m = mr_inactive).
Proof.
  intros Ha hp hr.
  destruct (paused_recorder (world hw) Ha) as (Hi & Ht & Hm).
  assert (Hw : world hp = fst (pause (world hw))) by reflexivity.
  assert (Hr : resumeRecording hp =
               ({| hook :=
                     with_state
                       (with_isRecording true
                          (onChunkComplete_calls (world hp) (world hp)
                             (Hook.state (hook hp))))
                       (with_timerRef (Some (nextId (world hp))) (hook hp));
                   world := set_nextId (S (nextId (world hp))) (world hp);
                   intervals := clearInterval (Hook.timerRef (hook hp)) (intervals hp)
                                ++ [nextId (world hp)] |}, Returned ())).
  { unfold resumeRecording. rewrite (resume_rejected (world hp)); [reflexivity|].
    rewrite Hw. exact Hi. }
  subst hr. rewrite Hr. cbn [fst snd hook world intervals].
  split; [reflexivity|]. split; [reflexivity|]. split; [reflexivity|].
  split; [reflexivity|]. split.
  { exists (nextId (world hp)). split; [reflexivity|].
    apply in_or_app. right. left. reflexivity. }
  split.
  { cbn [with_state Hook.state onChunkComplete_calls with_isRecording with_chunks
         Hook.chunks].
    rewrite drop_all. cbn [map]. apply app_nil_r. }
  rewrite Hw. split; [reflexivity|]. split; [reflexivity|]. split; [reflexivity|].
  split; [exact Ht|exact Hm].
Qed.

(** X18 on the example session. *)
Lemma hook_resume_after_pause_captures_nothing_witness :
  active (world hw_recording) = true /\
  Hook.isRecording
    (Hook.state (hook (fst (resumeRecording (pauseRecording hw_recording))))) = true /\
  chunkTimer (this (world (fst (resumeRecording (pauseRecording hw_recording))))) = None.
Proof.
  assert (Ha : active (world hw_recording) = true) by reflexivity.
  destruct (hook_resume_after_pause_captures_nothing hw_recording Ha)
    as (_ & _ & _ & H1 & _ & _ & _ & _ & _ & H2 & _).
  split; [exact Ha|]. split; [exact H1|exact H2].
Defined.

(** ** The hook: stopping *)

Lemma stop_keeps_main w :
  mainBlob (this (fst (stop w))) = mainBlob (this w) /\
  mainAudioUrl (this (fst (stop w))) = mainAudioUrl (this w).
Proof.
  split.
  - change (c_main (core (fst (stop w))) = c_main (core w)). rewrite core_stop.
    destruct (active w); [|reflexivity].
    unfold complete_c. destruct (c_buffer (core w)); reflexivity.
  - destruct (views_stop w) as [H _]. unfold url_view in H. congruence.
Qed.

Lemma stop_result w :
  snd (stop w) = Returned (if active w then mainBlob (this w) else None).
Proof.
  destruct (active w) eqn:Ha.
  - apply stop_returns_mainBlob_field, Ha.
  - rewrite (stop_rejected w Ha). reflexivity.
Qed.

(** X19. What the hook's [stopRecording()] stores and returns.  The blob it
    resolves with, and the [mainBlob] and [mainAudioUrl] it copies into its
    state, are the ones the recorder held before the call: [recorder.stop()]
    only queues the task that will build the recording.  The chunk list it
    copies does contain the chunk completed by this stop.  The interval is
    cleared and the stream held in [streamRef] is stopped. *)
Theorem stopRecording_stores_the_old_main_blob (hw : HookWorld) :
  let r := stopRecording hw in
  let s := Hook.state (hook (fst r)) in
  snd r = (if active (world hw) then mainBlob (this (world hw)) else None) /\
  Hook.mainBlob s = mainBlob (this (world hw)) /\
  Hook.mainAudioUrl s = mainAudioUrl (this (world hw)) /\
  Hook.isRecording s = false /\
  Hook.chunks s = chunks (this (world (fst r))) /\
  core (world (fst r)) =
    (if active (world hw) then complete_c (core (world hw)) else core (world hw)) /\
  Hook.timerRef (hook (fst r)) = None /\
  Hook.streamRef (hook (fst r)) = None /\
  (forall t, Hook.timerRef (hook hw) = Some t -> ~ In t (intervals (fst r))) /\
  (forall st, Hook.streamRef (hook hw) = Some st -> ~ In st (liveStreams (world (fst r)))).
Proof.
  intros r s. subst s r. unfold stopRecording.
  pose proof (stop_result (world hw)) as Hr.
  pose proof (stop_keeps_main (world hw)) as [Hb Hu].
  pose proof (core_stop (world hw)) as Hc.
  destruct (stop (world hw)) as [w1 c]. cbn [fst snd] in *. subst c.
  cbn [fst snd hook world intervals Hook.state Hook.timerRef Hook.streamRef
       with_stopped Hook.mainBlob Hook.mainAudioUrl Hook.isRecording Hook.chunks
       getState st_chunks st_mainBlob st_mainAudioUrl].
  split; [reflexivity|]. split; [exact Hb|]. split; [exact Hu|].
  split; [reflexivity|]. split.
  { destruct (Hook.streamRef (hook hw)); reflexivity. }
  split.
  { rewrite <- Hc. destruct (Hook.streamRef (hook hw)); reflexivity. }
  split; [reflexivity|]. split; [reflexivity|]. split.
  - intros t ->. apply not_In_filter_neq.
  - intros st ->. apply not_In_filter_neq.
Qed.

(** ** The hook: recovery *)

Lemma checkForRecovery_recoverable e :
  fst (checkForRecovery e) = Resolved (recovery_of (recoverable e)).
Proof.
  rewrite checkForRecovery_result. unfold recoverable, recovery_of.
  destruct (store_opens e); [|reflexivity].
  destruct (stored_recording e) as [ent|]; [|reflexivity].
  destruct (IDB.e_data ent); reflexivity.
Qed.

Lemma recovery_of_inj a b : recovery_of a = recovery_of b -> a = b.
Proof. destruct a, b; simpl; intros H; inversion H; reflexivity. Qed.

(** Checking does not change what can be recovered. *)
Lemma recoverable_checkForRecovery e :
  recoverable (snd (checkForRecovery e)) = recoverable e.
Proof.
  destruct (checkForRecovery_store e) as [-> | (Hd & ->)]; [reflexivity|].
  unfold recoverable at 2. unfold store_opens. rewrite Hd, andb_false_r.
  unfold recoverable.
  assert (Hs : stored_recording
                 (IDB.set_database
                    (IDB.onupgradeneeded {| IDB.version := 1; IDB.objectStores := ∅ |})
                    e) = None).
  { unfold stored_recording, IDB.slot. cbn [IDB.database IDB.set_database].
    vm_compute. reflexivity. }
  rewrite Hs.
  match goal with |- context [store_opens ?x] => destruct (store_opens x) end;
    reflexivity.
Qed.

Lemma recoverRecording_found hw b :
  recoverable (idb (world hw)) = Some b ->
  recoverRecording hw =
  (let w1 := set_idb (snd (checkForRecovery (idb (world hw)))) (world hw) in
   {| hook := with_state (with_recovered b (nextId w1) (Hook.state (hook hw))) (hook hw);
      world := snd (createObjectURL w1);
      intervals := intervals hw |}, Resolved true).
Proof.
  intros H. unfold recoverRecording.
  pose proof (checkForRecovery_recoverable (idb (world hw))) as Hc.
  rewrite H in Hc. destruct (checkForRecovery (idb (world hw))) as [p e'].
  cbn [fst] in Hc. subst p. reflexivity.
Qed.

Lemma recoverRecording_nothing hw :
  recoverable (idb (world hw)) = None ->
  recoverRecording hw =
  ({| hook := hook hw;
      world := set_idb (snd (checkForRecovery (idb (world hw)))) (world hw);
      intervals := intervals hw |}, Resolved false).
Proof.
  intros H. unfold recoverRecording.
  pose proof (checkForRecovery_recoverable (idb (world hw))) as Hc.
  rewrite H in Hc. destruct (checkForRecovery (idb (world hw))) as [p e'].
  cbn [fst] in Hc. subst p. reflexivity.
Qed.

Lemma recoverRecording_idb hw :
  idb (world (fst (recoverRecording hw))) = snd (checkForRecovery (idb (world hw))).
Proof.
  destruct (recoverable (idb (world hw))) as [b|] eqn:E.
  - rewrite (recoverRecording_found hw b E). reflexivity.
  - rewrite (recoverRecording_nothing hw E). reflexivity.
Qed.

Lemma recoverRecording_answer hw :
  snd (recoverRecording hw) =
  Resolved (match recoverable (idb (world hw)) with Some _ => true | None => false end).
Proof.
  destruct (recoverable (idb (world hw))) as [b|] eqn:E.
  - rewrite (recoverRecording_found hw b E). reflexivity.
  - rewrite (recoverRecording_nothing hw E). reflexivity.
Qed.

Lemma checkRecovery_flag hw :
  Hook.recoveryAvailable (Hook.state (hook (checkRecovery true hw))) =
  match recoverable (idb (world hw)) with Some _ => true | None => false end.
Proof.
  unfold checkRecovery.
  pose proof (checkForRecovery_recoverable (idb (world hw))) as Hc.
  destruct (checkForRecovery (idb (world hw))) as [p e']. cbn [fst] in Hc. subst p.
  destruct (recoverable (idb (world hw))); reflexivity.
Qed.

(** X20. [recoverRecording()] always settles.  It resolves with [true]
    exactly when the store opens and the recording slot holds data; the hook
    then holds that blob as [mainBlob] with a fresh object URL and
    [recoveryAvailable = false].  Otherwise the hook is unchanged.  Recovering
    does not consume the stored recording: the recorder is untouched, the
    slot can be recovered again with the same answer, and the check run on
    the next mount sets [recoveryAvailable] again. *)
Theorem recoverRecording_does_not_consume (hw : HookWorld) :
  let e := idb (world hw) in
  let r := recoverRecording hw in
  snd r = Resolved (match recoverable e with Some _ => true | None => false end) /\
  match recoverable e with
  | Some b =>
      Hook.mainBlob (Hook.state (hook (fst r))) = Some b /\
      Hook.recoveryAvailable (Hook.state (hook (fst r))) = false /\
      exists u, Hook.mainAudioUrl (Hook.state (hook (fst r))) = Some u /\
                In u (objectUrls (world (fst r)))
  | None => hook (fst r) = hook hw /\ objectUrls (world (fst r)) = objectUrls (world hw)
  end /\
  this (world (fst r)) = this (world hw) /\
  recoverable (idb (world (fst r))) = recoverable e /\
  snd (recoverRecording (fst r)) = snd r /\
  Hook.recoveryAvailable (Hook.state (hook (checkRecovery true (fst r)))) =
    (match recoverable e with Some _ => true | None => false end).
Proof.
  intros e r.
  assert (Hi : recoverable (idb (world (fst r))) = recoverable e).
  { subst r e. rewrite recoverRecording_idb. apply recoverable_checkForRecovery. }
  split; [apply recoverRecording_answer|]. split.
  - subst r. fold e. destruct (recoverable e) as [b|] eqn:E.
    + unfold e in E. rewrite (recoverRecording_found hw b E).
      cbn [fst hook with_state Hook.state with_recovered Hook.mainBlob
           Hook.recoveryAvailable Hook.mainAudioUrl world].
      split; [reflexivity|]. split; [reflexivity|].
      eexists. split; [reflexivity|].
      unfold createObjectURL. cbn [snd]. simpl.
      apply in_or_app. right. left. reflexivity.
    + unfold e in E. rewrite (recoverRecording_nothing hw E). split; reflexivity.
  - split.
    { subst r. destruct (recoverable (idb (world hw))) as [b|] eqn:E.
      - rewrite (recoverRecording_found hw b E). reflexivity.
      - rewrite (recoverRecording_nothing hw E). reflexivity. }
    split; [exact Hi|]. split.
    + rewrite recoverRecording_answer, Hi. subst r e.
      symmetry. apply recoverRecording_answer.
    + rewrite checkRecovery_flag, Hi. reflexivity.
Qed.

(** ** The hook: the time shown in the toasts *)

Lemma digits_colon_free d : colon_free (NilEmpty.string_of_uint d).
Proof. induction d; simpl; auto; (split; [intros [=]|assumption]). Qed.

Lemma string_of_uint_colon_free d : colon_free (NilZero.string_of_uint d).
Proof.
  destruct d; try apply digits_colon_free. simpl. split; [intros [=]|exact I].
Qed.

Lemma to_uint_not_Nil n : Nat.to_uint n <> Decimal.Nil.
Proof.
  intros H. pose proof (DecimalNat.Unsigned.of_to n) as E. rewrite H in E.
  pose proof (DecimalNat.Unsigned.to_of (Nat.to_uint n)) as E'.
  rewrite DecimalNat.Unsigned.of_to in E'. rewrite H in E'.
  simpl in E, E'. subst n. discriminate.
Qed.

Lemma toString_inj n m : toString n = toString m -> n = m.
Proof.
  unfold toString. intros H. apply DecimalNat.Unsigned.to_uint_inj.
  pose proof (NilZero.usu _ (to_uint_not_Nil n)) as E1.
  pose proof (NilZero.usu _ (to_uint_not_Nil m)) as E2.
  rewrite H in E1. rewrite E1 in E2. injection E2. auto.
Qed.

(** A string is cut at its first colon in one way only. *)
Lemma cut_at_colon a a' b b' :
  colon_free a -> colon_free a' ->
  a +:+ ":" +:+ b = a' +:+ ":" +:+ b' -> a = a' /\ b = b'.
Proof.
  revert a'. induction a as [|c a IH]; intros [|c' a'] Ha Ha' H; simpl in *.
  - injection H. auto.
  - injection H as Hc _. destruct Ha' as [Hn _]. congruence.
  - injection H as Hc _. destruct Ha as [Hn _]. congruence.
  - injection H as -> H. destruct Ha as [_ Ha], Ha' as [_ Ha'].
    destruct (IH a' Ha Ha' H) as [-> ->]. auto.
Qed.

Lemma length_append (a b : string) :
  String.length (a +:+ b) = (String.length a + String.length b)%nat.
Proof. induction a; simpl; auto. Qed.

(** The seconds field has two digits and determines the seconds. *)
Lemma seconds_field n m :
  (n < 60)%nat -> (m < 60)%nat ->
  String.length (padStart2 (toString n)) = 2%nat /\
  (padStart2 (toString n) = padStart2 (toString m) -> n = m).
Proof.
  intros Hn Hm.
  assert (T : forallb (fun i =>
                forallb (fun j =>
                  Nat.eqb (String.length (padStart2 (toString i))) 2 &&
                  implb (String.eqb (padStart2 (toString i)) (padStart2 (toString j)))
                        (Nat.eqb i j))
                  (seq 0 60)) (seq 0 60) = true)
    by (vm_compute; reflexivity).
  rewrite forallb_forall in T.
  assert (In n (seq 0 60)) as In_n by (apply in_seq; lia).
  assert (In m (seq 0 60)) as In_m by (apply in_seq; lia).
  pose proof (T n In_n) as T'. rewrite forallb_forall in T'.
  pose proof (T' m In_m) as T''. apply andb_true_iff in T'' as [L I].
  split; [apply Nat.eqb_eq, L|].
  intros E. apply String.eqb_eq in E. rewrite E in I. apply Nat.eqb_eq, I.
Qed.

Lemma totalSeconds_whole k : totalSeconds (1000 * k) = k.
Proof.
  unfold totalSeconds. symmetry. apply Nat.div_unique with 500%nat; lia.
Qed.

(** X21. The time shown in the toast: minutes, a colon and a seconds field
    of exactly two digits.  Two elapsed times show the same text exactly when
    they round to the same number of seconds, and after [k] ticks of the
    one-second interval that number is [k]. *)
Theorem timeString_shows_the_seconds (elapsed elapsed' : nat) :
  String.length (timeString elapsed) =
    (String.length (toString (totalSeconds elapsed / 60)) + 3)%nat /\
  (timeString elapsed = timeString elapsed' <->
   totalSeconds elapsed = totalSeconds elapsed') /\
  (forall k : nat, totalSeconds (1000 * k) = k).
Proof.
  assert (L : forall n, (n mod 60 < 60)%nat) by (intros n; apply Nat.mod_upper_bound; lia).
  split; [|split].
  - unfold timeString. cbv zeta. rewrite !length_append.
    destruct (seconds_field _ _ (L (totalSeconds elapsed)) (L 0%nat)) as [-> _].
    simpl. lia.
  - split.
    + unfold timeString. cbv zeta. intros H.
      apply cut_at_colon in H; try apply string_of_uint_colon_free.
      destruct H as [Hm Hs]. apply toString_inj in Hm.
      destruct (seconds_field _ _ (L (totalSeconds elapsed)) (L (totalSeconds elapsed')))
        as [_ I].
      apply I in Hs.
      rewrite (Nat.div_mod_eq (totalSeconds elapsed) 60).
      rewrite (Nat.div_mod_eq (totalSeconds elapsed') 60).
      rewrite Hm, Hs. reflexivity.
    + unfold timeString. intros ->. reflexivity.
  - apply totalSeconds_whole.
Qed.
